(* ===== verification/_CoqProject ===== *)
-Q . S2P
Prelude.v
Utf8.v
RustStr.v
Chars.v
Iterator.v
Runs.v
Trivia.v
Lines.v
Requirements.v
LineSpec.v
Rules.v
Refinement.v
Correctness.v
Conformance.v
Liveness.v
Machine.v
Roundtrip.v
