(* ===== verification/Prelude.v ===== *)
(** * Verification of [puffin-requirements]: the requirements.txt line engine

    The program under [src/crates/puffin-requirements/src/lib.rs] turns the
    text of a requirements file into a vector of parsed requirements.  It has
    three parts, which this development models in the same order:

    - the trivia stripper [RequirementLine::strip_trivia] (with [from_line]
      and [as_str]): the length of the prefix of a logical line that is the
      requirement itself, without a trailing comment or [--hash] block;
    - the line splitter [RequirementsIterator::next] with [find_newline]: an
      iterator over the text that skips comment and blank lines and joins
      lines that end in a backslash;
    - the collection builder [Requirements::from_str], which drives the
      iterator, hands every stripped line to the external PEP 508 parser and
      stops at the first error.

    ** Files

    - [Prelude] (this file): what every other file shares.  The [outcome]
      monad (a Rust call returns, panics, or, in the model only, runs out of
      fuel), [usize] arithmetic at 64 bits with the two overflow behaviours
      of a Rust build ([BuildProfile]: panic when [overflow_checks] is on,
      wrap around when it is off), Z-indexed list helpers, the hint
      databases and tactics of the development.
    - [Utf8]: the encoding of Rust's [str].  Scalar values, [encode_utf8],
      the inductive validity predicate [utf8] and its checker, the forward
      and backward decoders [next_code_point] and [next_code_point_reverse],
      [char::is_whitespace], and the byte test behind [is_char_boundary].
    - [RustStr]: the operations of [str] and [memchr] that the source calls:
      slicing with its two panics, [trim_start], [trim], [starts_with],
      [find], [chars().rev().next()], [memchr2], [memchr_iter].  They are
      modelled from the documented behaviour of the standard library, at
      the lines of [lib.rs] that call them.
    - [Chars]: the same operations read on the decoded text: [chars],
      and dropping elements at the two ends of a list ([drop_while],
      [drop_while_end]), the reference for the loops of [RustStr].
    - [Iterator]: the [Iterator] trait as a class, the laws a consumer
      relies on ([IteratorLaws]: an invariant under which [next] returns,
      and a size that every item makes smaller), [try_collect], the chain
      [.map(f).collect::<Result<Vec<_>, _>>()] of [from_str], and
      [iter_nth], the method [Iterator::nth], which follows the calls of
      [next] one by one; the same chain call by call: the adaptor [Map]
      of [Iterator::map], an instance of the class, and the consumer
      [collect_result].
    - [Runs]: iterators as transition systems: a call of [next] that
      returns is a [step], calls one after the other are a [run]; a
      [simulation] relates the states of an iterator to those of one
      that specifies it; the loop of [collect] as derivations
      ([collects]) with the events of the loop.
    - [Trivia]: Module [RequirementLine] with the record [t] (the struct)
      and its invariant [valid], [strip_trivia] (its [for] loop is
      [strip_comments]), [from_line], [as_str]; the trivia stripper of the
      specification ([spec_strip_trivia]), the lines on which the code
      panics ([hash_reached]) and those on which it strips what the
      specification says ([strips_as_specified]).
    - [Lines]: [find_newline], and Module [RequirementsIterator] with the
      record [t] (text and cursor) and its invariant [valid], [new] and
      [next] ([next_fuel], with the [while let] loop as
      [eat_continuations] and the cursor update as [advance]), and the
      instances of [Iterator] and [IteratorLaws].
    - [Requirements]: the interface of the external parser as a class
      ([RequirementParser]), [from_str] (its closure [parse_line] and its
      loop [collect], an instance of [try_collect]), [deref], and the
      scenarios of the specification and of the crate's tests
      ([simple_text], [pip_compile_text]) run through the model.
    - [LineSpec]: the specification of the splitter, without cursor:
      physical lines ([split_lines], [unsplit]), the logical lines of the
      specification ([spec_lines], [logical_lines]), the lines the code
      yields ([logical_from], [iterator_lines]), the texts on which the two
      agree ([ends_cleanly]), and the equivalence [same_lines] of texts
      that differ in the kind of their line breaks only.
    - [Rules]: the rules of the specification for the logical lines, one
      constructor of the inductive relation [rules] per rule.
    - [Refinement]: the invariant of the cursor ([cursor]), the
      specification of [from_str] ([requirements_spec]), the
      specification of the splitter as an iterator over the physical
      lines that remain ([spec_next]), the relation between the states
      of the code and its states ([at_state]), and the theorems that
      [next] and [from_str] implement the specifications.
    - [Correctness]: what the refinement gives for the texts of interest.
    - [Conformance]: the specification document as one function, written
      apart from the code ([spec_from_str]: the logical lines of its
      section 4.1 with the edge case policy, [document_lines], the clean
      span of 4.2, the collection of 4.3), and where the code conforms.
    - [Liveness]: the calls of [next] one by one: every line is reached.
    - [Machine]: the runs of the splitter: the positions of the cursor
      between two calls ([position]), what the calls of a run return,
      and the derivations of the loop of [from_str].
    - [Roundtrip]: a collection written one requirement per line
      ([write_requirements]) and read back.

    ** Modelling choices

    - A [str] is a [list Z] of bytes, valid UTF-8 by Rust's type invariant;
      theorems that depend on it assume [utf8 s].  Byte offsets, lengths and
      the cursor are [Z], as [usize] values; every [+] and [-] of the source
      on a [usize] is [usize_add] or [usize_sub], so an overflow is a panic
      or a wrap-around as in the build it models.  The width is fixed to 64
      bits, and texts are at most [isize::MAX] bytes long, as every Rust
      allocation is.
    - A panic is a value: [Panicked p].  [&s[a..b]] is [str_slice s a b],
      which panics when a bound is out of range or not on a character
      boundary.
    - The state of the iterator is the record [RequirementsIterator.t];
      [next] returns the item and the new state.  The recursion of [next]
      on skipped lines and its [while let] loop are not structural: both
      take fuel, [next] supplies [length text + 1] of it, and the
      termination theorems show that this is always enough ([OutOfFuel] is
      never returned).  [from_str] gives the same amount to its loop over
      the iterator.
    - [Cow<str>] keeps its two constructors, so that the theorems can say
      which lines are borrowed slices of the text and which are owned
      concatenations.
    - The external parser is a parameter: a [RequirementParser] instance
      gives the types of requirements and errors and the parsing function.
      The theorems about [from_str] hold for every instance; the scenarios
      use an instance that returns the text it is given, the witnesses of
      the error theorems one that rejects texts with a space.

    ** What the theorems show

    - [Utf8], [RustStr]: decoding inverts encoding in both directions, the
      checker decides [utf8], positions next to ASCII bytes are character
      boundaries, slices of a concatenation of valid texts return its
      parts, and the characterisations of the searches and of
      [trim_start].
    - [Chars]: [chars] and [encode_str] are inverse; [first_char] and
      [last_char] are the two ends of [chars s]; [trim_start], [trim_end]
      and [trim] return the text without the whitespace chars at its ends
      ([trim_chars]), with fuel to spare; so [line.trim().is_empty()]
      holds when every char is whitespace and
      [line.trim_start().starts_with('#')] when the first char that is not
      whitespace is [#], and no line passes both tests
      ([LineSpec.is_comment_not_blank]).
    - [Trivia]: the exact result of [strip_trivia] on every line
      ([strip_trivia_spec]): it panics on every line with a [#] after its
      first byte, because the slice it takes ends at [len + position]; its
      bounds; that the requirement it keeps holds no ["--hash"]; that
      [as_str] never panics on a line built by [from_line]; idempotence on
      lines without [#] and its failure on a line that starts with one;
      how the result compares with the trivia stripper of the
      specification ([strip_trivia_meets_spec]), and the lines on which
      the two agree, exactly ([strip_trivia_conforms_iff]).
    - [Lines]: the specification of [find_newline]; that [next]
      terminates; that the cursor moves forward; that [next] keeps the
      invariants of the two structs ([next_valid]); that the iterator is
      fused; the lines lost at the end of the text by the comparison with
      [text.len() - 1], and the underflow on the empty text.
    - [Iterator]: for every iterator, [try_collect] applies its closure to
      the items in order and returns the first error as it is; for every
      iterator that keeps the laws it terminates, and one of its first
      calls of [next] returns [None] or panics ([iter_nth_ends]);
      [try_collect] is [collect_result] on [Map] ([try_collect_map]), and
      [Map] keeps the laws of the iterator it wraps.
    - [Runs]: runs are deterministic and compose; what the steps keep
      holds in every reachable state; iterators related by a simulation
      have the same runs and give the same to [drain], [try_collect]
      and [iter_nth];
      the loop of [try_collect] with fuel returns what its derivations
      give ([try_collect_iff]).
    - [Requirements]: termination of [from_str] (from the laws, which
      [Lines] discharges), fail-fast propagation of the first parser
      error, the order of the collection, that the loop is the chain of
      [lib.rs] ([from_str_map_collect]), and the scenarios.
    - [LineSpec]: [split_lines] and [unsplit] are inverse on well-formed
      lines; the logical lines are the same on texts with the same lines
      ([Proper] instances for [same_lines]); [iterator_lines] and
      [logical_lines] agree exactly on the texts that end cleanly
      ([iterator_lines_logical_lines]); the lines of two texts one after
      the other.
    - [Rules]: [logical_from] is the one solution of the rules; an owned
      line is the join of a chain of continued lines of the text; the
      lines of the specification solve the rules on all the physical
      lines, the code applies them to the lines that a line break ends.
    - [Refinement]: [next] from the start of a physical line computes
      [next_spec] ([next_fuel_spec]), so the code simulates the
      specification iterator ([next_simulates]); the specification
      yields the lines that remain, by induction on lists ([spec_drain],
      [spec_try_collect]), and the simulation carries that to the code:
      the iterator yields [iterator_lines] ([iterator_yields_lines]) and
      [from_str] equals [requirements_spec] ([from_str_refines]), on
      every valid text that is not empty.
    - [Correctness]: the logical lines of the specification on a text
      that ends cleanly; the lines the rules derive, on every text
      ([iterator_follows_rules]); correctness of [from_str] on texts
      without [#];
      exactly where it panics ([from_str_panics_iff]), and only with a
      slice index out of range; the empty collection for comments and
      blank lines; the joining of continuations; the independence of the
      kind of line break; the byte lost after the last line break; two
      files one after the other ([from_str_app]); the same results with
      and without overflow checks ([from_str_build_independent]).
    - [Conformance]: [from_str] returns what the specification document
      says on the texts that end cleanly, in which no comment line ends in
      a backslash, and whose lines the code strips as specified
      ([from_str_conforms], [iterator_yields_specified_lines]); a comment
      line that ends in a backslash is dropped alone, where the edge case
      policy drops the chain ([from_str_comment_line],
      [scenario_comment_chain]); no blank line is continued.
    - [Liveness]: the call of [next] of rank [n] returns the logical line
      of rank [n] when the lines before it were returned, and [None]
      after the last ([next_reaches_every_line]); on every text the
      iteration ends.
    - [Machine]: by the simulation and induction on the runs: in every
      state reachable from [new text] the cursor is at the start of a
      physical line or on the last byte, and inside the text
      ([reachable_cursor]);
      the call of rank [i] of every run returns the logical line of rank
      [i] ([run_yields_lines]); runs exist as far as [from_line] returns.
      [from_str] returns what the derivations of its loop give
      ([from_str_collects]): every line is parsed before the next is
      pulled, and no line is pulled after the first error.
    - [Roundtrip]: plain lines written out are read back as they were, as
      the texts given to the parser and, with a printer the parser
      inverts, as the collection ([from_str_write_requirements]).

    ** Not modelled

    The PEP 508 grammar ([pep508_rs]) is external and enters as the
    [RequirementParser] interface.  [Debug] formatting and the snapshot
    assertions of the test module are I/O.  The search algorithms inside
    [memchr] and [str::find] are modelled by their results (first
    occurrence), not by their vectorised implementations.  Allocation
    failure of the owned lines is not modelled. *)

From Stdlib Require Import ZArith Lia.
From stdpp Require Import base tactics option list numbers.

#[local] Open Scope Z_scope.

(** ** Outcomes of a Rust call *)

(** The panics the modelled code can raise. *)
Inductive panic : Type :=
| ArithmeticOverflow
| SliceIndexOutOfRange
| SliceStartAfterEnd
| SliceNotCharBoundary.

(** A call returns a value, panics, or (in the model only) exhausts the fuel
    given to a loop. *)
Inductive outcome (A : Type) : Type :=
| Done (a : A)
| Panicked (p : panic)
| OutOfFuel.

Arguments Done {A} a.
Arguments Panicked {A} p.
Arguments OutOfFuel {A}.

#[export] Instance panic_eq_dec : EqDecision panic.
Proof. solve_decision. Defined.

#[export] Instance outcome_eq_dec {A} `{EqDecision A} : EqDecision (outcome A).
Proof. solve_decision. Defined.

#[export] Instance outcome_ret : MRet outcome := λ A a, Done a.

#[export] Instance outcome_bind : MBind outcome := λ A B f m,
  match m with
  | Done a => f a
  | Panicked p => Panicked p
  | OutOfFuel => OutOfFuel
  end.

#[export] Instance outcome_fmap : FMap outcome := λ A B f m,
  match m with
  | Done a => Done (f a)
  | Panicked p => Panicked p
  | OutOfFuel => OutOfFuel
  end.

(** [returns m]: the call neither panicked nor ran out of fuel. *)
Definition returns {A} (m : outcome A) : Prop := ∃ a, m = Done a.

(** [panics m]: the call panicked. *)
Definition panics {A} (m : outcome A) : Prop := ∃ p, m = Panicked p.

#[export] Instance returns_dec {A} (m : outcome A) : Decision (returns m).
Proof.
  destruct m as [a| |]; [left; by exists a | right; by intros [? ?] ..].
Defined.

#[export] Instance panics_dec {A} (m : outcome A) : Decision (panics m).
Proof.
  destruct m as [|p|]; [right; by intros [? ?] | left; by exists p | right; by intros [? ?]].
Defined.

(** ** [usize] arithmetic *)

(** [usize::MAX] and [isize::MAX] on a 64-bit target. *)
Definition usize_MAX : Z := 18446744073709551615.
Definition isize_MAX : Z := 9223372036854775807.

Definition is_usize (n : Z) : Prop := 0 ≤ n ≤ usize_MAX.

(** The part of a build's configuration the code's behaviour depends on:
    with [overflow_checks] (debug builds) an overflowing [+] or [-] panics,
    without (release builds) it wraps around. *)
Class BuildProfile : Type := { overflow_checks : bool }.

Definition debug_build : BuildProfile := {| overflow_checks := true |}.
Definition release_build : BuildProfile := {| overflow_checks := false |}.

(** The number of [usize] values: an overflowing operation of a build without
    overflow checks is taken modulo it. *)
Definition usize_modulus : Z := 18446744073709551616.

Definition wrapping (n : Z) : Z := n mod usize_modulus.

Definition usize_add `{BuildProfile} (a b : Z) : outcome Z :=
  if decide (a + b ≤ usize_MAX) then Done (a + b)
  else if overflow_checks then Panicked ArithmeticOverflow
  else Done (wrapping (a + b)).

Definition usize_sub `{BuildProfile} (a b : Z) : outcome Z :=
  if decide (b ≤ a) then Done (a - b)
  else if overflow_checks then Panicked ArithmeticOverflow
  else Done (wrapping (a - b)).

(** [usize::saturating_add]. *)
Definition saturating_add (a b : Z) : Z := Z.min (a + b) usize_MAX.

Declare Scope rust_scope.
Delimit Scope rust_scope with rust.
Notation "a +! b" := (usize_add a b) (at level 50, left associativity) : rust_scope.
Notation "a -! b" := (usize_sub a b) (at level 50, left associativity) : rust_scope.
Open Scope rust_scope.

(** ** Z-indexed views of a list *)

Section zlist.
Context {A : Type}.
Implicit Types (l k : list A) (i j : Z).

(** [zlen l] is [l.len()] as a [usize] value. *)
Definition zlen l : Z := Z.of_nat (length l).

(** The elements of [l] before offset [i], and from offset [i] on. *)
Definition ztake i l : list A := take (Z.to_nat i) l.
Definition zdrop i l : list A := drop (Z.to_nat i) l.

(** [zget l i] is [l.get(i)]. *)
Definition zget l i : option A := if decide (0 ≤ i) then l !! Z.to_nat i else None.

End zlist.

(** ** Databases and tactics *)

(** [div_lia] is [lia] after the divisions and remainders by constants of the
    goal have been replaced by their defining equations. *)
Ltac div_lia := Z.to_euclidean_division_equations; lia.

(** [by_compute] proves a decidable proposition on closed terms by
    evaluating its decision procedure. *)
Ltac by_compute :=
  lazymatch goal with
  | |- ?P => apply (bool_decide_unpack P); vm_compute; exact I
  end.

Create HintDb rust discriminated.
Create HintDb zlist discriminated.
Create Rewrite HintDb rust.
Create Rewrite HintDb zlist.

(** ** Lemmas on outcomes *)

Section outcome_lemmas.
Context {A B : Type}.
Implicit Types (m : outcome A) (f : A → outcome B).

Lemma bind_Done m f b :
  m ≫= f = Done b ↔ ∃ a, m = Done a ∧ f a = Done b.
Proof. destruct m; simpl; naive_solver. Qed.

Lemma bind_Panicked m f p :
  m ≫= f = Panicked p ↔ m = Panicked p ∨ ∃ a, m = Done a ∧ f a = Panicked p.
Proof. destruct m; simpl; naive_solver. Qed.

Lemma bind_OutOfFuel m f :
  m ≫= f = OutOfFuel ↔ m = OutOfFuel ∨ ∃ a, m = Done a ∧ f a = OutOfFuel.
Proof. destruct m; simpl; naive_solver. Qed.

Lemma bind_Done_l a f : Done a ≫= f = f a.
Proof. done. Qed.

Lemma bind_Panicked_l p f : Panicked p ≫= f = Panicked p.
Proof. done. Qed.

Lemma fmap_Done (g : A → B) m b :
  g <$> m = Done b ↔ ∃ a, m = Done a ∧ b = g a.
Proof. destruct m; simpl; naive_solver. Qed.

Lemma mapM_Done_fmap (f : A → outcome B) (g : A → B) l :
  Forall (λ x, f x = Done (g x)) l → mapM f l = Done (g <$> l).
Proof. induction 1 as [|x l Hx _ IH]; [done|]. simpl. by rewrite Hx, IH. Qed.

Lemma bind_not_OutOfFuel m f :
  m ≠ OutOfFuel → (∀ a, m = Done a → f a ≠ OutOfFuel) → m ≫= f ≠ OutOfFuel.
Proof. destruct m; simpl; naive_solver. Qed.

Lemma Done_not_OutOfFuel (a : A) : Done a ≠ OutOfFuel.
Proof. done. Qed.

Lemma Panicked_not_OutOfFuel p : @Panicked A p ≠ OutOfFuel.
Proof. done. Qed.

Lemma returns_Done (a : A) : returns (Done a).
Proof. by exists a. Qed.

Lemma returns_not_panics m : returns m → ¬ panics m.
Proof. intros [a ->] [p ?]; done. Qed.

Lemma returns_not_OutOfFuel m : returns m → m ≠ OutOfFuel.
Proof. by intros [a ->]. Qed.

End outcome_lemmas.

#[export] Hint Resolve returns_Done Done_not_OutOfFuel Panicked_not_OutOfFuel : rust.
#[export] Hint Rewrite @bind_Done_l @bind_Panicked_l : rust.

(** [outcome_inv] breaks the hypotheses that say that a sequence of calls
    returned into one hypothesis per call. *)
Ltac outcome_inv :=
  repeat match goal with
  | H : Done _ = Done _ |- _ => injection H as H; try subst
  | H : Done _ = Panicked _ |- _ => discriminate H
  | H : Done _ = OutOfFuel |- _ => discriminate H
  | H : Panicked _ = Done _ |- _ => discriminate H
  | H : OutOfFuel = Done _ |- _ => discriminate H
  | H : mret _ = Done _ |- _ => injection H as H; try subst
  | H : _ ≫= _ = Done _ |- _ =>
      let a := fresh "a" in let Ha := fresh "Ha" in
      apply bind_Done in H as (a & Ha & H)
  end.

(** [fuel_step] takes one step in a proof that a sequence of calls does not
    run out of fuel: through a bind whose first call is known not to, or
    through a case distinction of the code. *)
Ltac fuel_step :=
  first
  [ apply bind_not_OutOfFuel; [solve [auto with rust] | intros ? ?]
  | apply Done_not_OutOfFuel
  | apply Panicked_not_OutOfFuel
  | case_match
  | case_decide ].

(** [exec_inv] follows a hypothesis that says that code returned through
    the binds and the case distinctions of the code, and leaves one
    hypothesis per call and per test on every path. *)
Ltac exec_inv :=
  repeat match goal with
  | H : Done _ = Done _ |- _ => injection H as H; try subst
  | H : Panicked _ = Done _ |- _ => discriminate H
  | H : OutOfFuel = Done _ |- _ => discriminate H
  | H : Done _ = Panicked _ |- _ => discriminate H
  | H : OutOfFuel = Panicked _ |- _ => discriminate H
  | H : (_, _) = (_, _) |- _ => injection H as ? ?; try subst
  | H : Some _ = Some _ |- _ => injection H as H; try subst
  | H : Some _ = None |- _ => discriminate H
  | H : None = Some _ |- _ => discriminate H
  | H : _ ≫= _ = Done _ |- _ =>
      let a := fresh "a" in let Ha := fresh "Ha" in
      apply bind_Done in H as (a & Ha & H)
  | H : (if decide ?P then _ else _) = _ |- _ => destruct (decide P)
  | H : (if ?c then _ else _) = _ |- _ =>
      let E := fresh "E" in destruct c eqn:E
  | H : match ?x with _ => _ end = _ |- _ =>
      let E := fresh "E" in destruct x eqn:E
  end.

(** ** Lemmas on [usize] arithmetic *)

Section usize_lemmas.
Context `{BuildProfile}.
Implicit Types (a b : Z).

Lemma usize_add_Done a b : a + b ≤ usize_MAX → a +! b = Done (a + b).
Proof. intros. unfold usize_add. by rewrite decide_True. Qed.

Lemma usize_sub_Done a b : b ≤ a → a -! b = Done (a - b).
Proof. intros. unfold usize_sub. by rewrite decide_True. Qed.

Lemma usize_sub_underflow a b :
  a < b →
  a -! b = if overflow_checks then Panicked ArithmeticOverflow
           else Done (wrapping (a - b)).
Proof. intros. unfold usize_sub. by rewrite decide_False by lia. Qed.

Lemma wrapping_neg n :
  - usize_MAX - 1 ≤ n < 0 → wrapping n = n + usize_MAX + 1.
Proof. unfold wrapping, usize_modulus, usize_MAX. div_lia. Qed.

Lemma wrapping_id n : is_usize n → wrapping n = n.
Proof. unfold wrapping, usize_modulus, is_usize, usize_MAX. div_lia. Qed.

Lemma usize_add_Done_inv a b n :
  a + b ≤ usize_MAX → a +! b = Done n → n = a + b.
Proof. intros. rewrite usize_add_Done in * by done. by simplify_eq. Qed.

Lemma usize_sub_Done_inv a b n : b ≤ a → a -! b = Done n → n = a - b.
Proof. intros. rewrite usize_sub_Done in * by done. by simplify_eq. Qed.

Lemma usize_add_is_usize a b n :
  is_usize a → is_usize b → a +! b = Done n → is_usize n.
Proof.
  unfold usize_add, wrapping, usize_modulus, is_usize, usize_MAX. intros ? ?.
  case_decide; [|destruct overflow_checks]; intros; simplify_eq; div_lia.
Qed.

Lemma usize_sub_is_usize a b n :
  is_usize a → is_usize b → a -! b = Done n → is_usize n.
Proof.
  unfold usize_sub, wrapping, usize_modulus, is_usize, usize_MAX. intros ? ?.
  case_decide; [|destruct overflow_checks]; intros; simplify_eq; div_lia.
Qed.

Lemma usize_add_not_OutOfFuel a b : a +! b ≠ OutOfFuel.
Proof. unfold usize_add. case_decide; [|destruct overflow_checks]; done. Qed.

Lemma usize_sub_not_OutOfFuel a b : a -! b ≠ OutOfFuel.
Proof. unfold usize_sub. case_decide; [|destruct overflow_checks]; done. Qed.

End usize_lemmas.

Lemma saturating_add_small a b :
  a + b ≤ usize_MAX → saturating_add a b = a + b.
Proof. unfold saturating_add. lia. Qed.

#[export] Hint Resolve usize_add_not_OutOfFuel usize_sub_not_OutOfFuel : rust.

(** ** Lemmas on Z-indexed views *)

Section zlist_lemmas.
Context {A : Type}.
Implicit Types (l k : list A) (i j : Z) (x : A).

Lemma zlen_nonneg l : 0 ≤ zlen l.
Proof. unfold zlen. lia. Qed.

Lemma zlen_nil : zlen (@nil A) = 0.
Proof. done. Qed.

Lemma zlen_cons x l : zlen (x :: l) = 1 + zlen l.
Proof. unfold zlen. simpl. lia. Qed.

Lemma zlen_app l k : zlen (l ++ k) = zlen l + zlen k.
Proof. unfold zlen. rewrite length_app. lia. Qed.

Lemma zlen_0 l : zlen l = 0 ↔ l = [].
Proof. unfold zlen. destruct l; simpl; split; (done || lia). Qed.

Lemma zlen_ztake i l : 0 ≤ i ≤ zlen l → zlen (ztake i l) = i.
Proof. unfold zlen, ztake. rewrite length_take. lia. Qed.

Lemma zlen_ztake_le i l : zlen (ztake i l) ≤ zlen l.
Proof. unfold zlen, ztake. rewrite length_take. lia. Qed.

Lemma zlen_zdrop i l : 0 ≤ i ≤ zlen l → zlen (zdrop i l) = zlen l - i.
Proof. unfold zlen, zdrop. rewrite length_drop. lia. Qed.

Lemma zlen_zdrop_le i l : zlen (zdrop i l) ≤ zlen l.
Proof. unfold zlen, zdrop. rewrite length_drop. lia. Qed.

Lemma ztake_zdrop i l : ztake i l ++ zdrop i l = l.
Proof. apply take_drop. Qed.

Lemma ztake_0 l : ztake 0 l = [].
Proof. done. Qed.

Lemma zdrop_0 l : zdrop 0 l = l.
Proof. done. Qed.

Lemma ztake_nil i : ztake i (@nil A) = [].
Proof. unfold ztake. by rewrite take_nil. Qed.

Lemma zdrop_nil i : zdrop i (@nil A) = [].
Proof. unfold zdrop. by rewrite drop_nil. Qed.

Lemma zdrop_cons_succ i x l : 0 ≤ i → zdrop (i + 1) (x :: l) = zdrop i l.
Proof.
  intros. unfold zdrop. by replace (Z.to_nat (i + 1)) with (S (Z.to_nat i)) by lia.
Qed.

Lemma ztake_cons_succ i x l : 0 ≤ i → ztake (i + 1) (x :: l) = x :: ztake i l.
Proof.
  intros. unfold ztake. by replace (Z.to_nat (i + 1)) with (S (Z.to_nat i)) by lia.
Qed.

Lemma ztake_neg i l : i ≤ 0 → ztake i l = [].
Proof. intros. unfold ztake. by replace (Z.to_nat i) with 0%nat by lia. Qed.

Lemma ztake_all i l : zlen l ≤ i → ztake i l = l.
Proof. unfold zlen, ztake. intros. apply take_ge. lia. Qed.

Lemma zdrop_all i l : zlen l ≤ i → zdrop i l = [].
Proof. unfold zlen, zdrop. intros. apply drop_ge. lia. Qed.

Lemma ztake_app_len l k : ztake (zlen l) (l ++ k) = l.
Proof. unfold ztake, zlen. rewrite Nat2Z.id. apply take_app_length. Qed.

Lemma zdrop_app_len l k : zdrop (zlen l) (l ++ k) = k.
Proof. unfold zdrop, zlen. rewrite Nat2Z.id. apply drop_app_length. Qed.

Lemma ztake_app_le i l k : i ≤ zlen l → ztake i (l ++ k) = ztake i l.
Proof. unfold ztake, zlen. intros. apply take_app_le. lia. Qed.

Lemma zdrop_app_le i l k : i ≤ zlen l → zdrop i (l ++ k) = zdrop i l ++ k.
Proof. unfold zdrop, zlen. intros. apply drop_app_le. lia. Qed.

Lemma ztake_app_ge i l k :
  zlen l ≤ i → ztake i (l ++ k) = l ++ ztake (i - zlen l) k.
Proof.
  unfold ztake, zlen. intros. rewrite take_app_ge by lia. do 2 f_equal. lia.
Qed.

Lemma zdrop_app_ge i l k :
  zlen l ≤ i → zdrop i (l ++ k) = zdrop (i - zlen l) k.
Proof.
  unfold zdrop, zlen. intros. rewrite drop_app_ge by lia. f_equal. lia.
Qed.

Lemma zdrop_zdrop i j l : 0 ≤ i → 0 ≤ j → zdrop j (zdrop i l) = zdrop (i + j) l.
Proof.
  unfold zdrop. intros. rewrite drop_drop. f_equal. lia.
Qed.

Lemma ztake_ztake i j l : i ≤ j → ztake i (ztake j l) = ztake i l.
Proof.
  unfold ztake. intros. rewrite take_take. f_equal. lia.
Qed.

Lemma ztake_zdrop_commute i j l :
  0 ≤ i → 0 ≤ j → ztake j (zdrop i l) = zdrop i (ztake (i + j) l).
Proof.
  unfold ztake, zdrop. intros. rewrite take_drop_commute. do 2 f_equal. lia.
Qed.

Lemma zdrop_ztake_prefix i j l : zdrop j (ztake i l) `prefix_of` zdrop j l.
Proof.
  destruct (decide (j ≤ zlen (ztake i l))).
  - rewrite <-(ztake_zdrop i l) at 2. rewrite zdrop_app_le by done.
    by apply prefix_app_r.
  - rewrite zdrop_all by lia. apply prefix_nil.
Qed.

Lemma elem_of_ztake i l x : x ∈ ztake i l → x ∈ l.
Proof. intros. rewrite <-(ztake_zdrop i l). apply elem_of_app. by left. Qed.

Lemma elem_of_zdrop i l x : x ∈ zdrop i l → x ∈ l.
Proof. intros. rewrite <-(ztake_zdrop i l). apply elem_of_app. by right. Qed.

Lemma zget_Some l i x : zget l i = Some x ↔ 0 ≤ i ∧ l !! Z.to_nat i = Some x.
Proof. unfold zget. case_decide; naive_solver. Qed.

Lemma zget_lt l i x : zget l i = Some x → 0 ≤ i < zlen l.
Proof.
  rewrite zget_Some. intros [? Hl%lookup_lt_Some]. unfold zlen. lia.
Qed.

Lemma zget_None l i : zget l i = None ↔ i < 0 ∨ zlen l ≤ i.
Proof.
  unfold zget, zlen. case_decide; [rewrite lookup_ge_None|]; (lia || naive_solver lia).
Qed.

Lemma zget_is_Some l i : is_Some (zget l i) ↔ 0 ≤ i < zlen l.
Proof.
  rewrite <-not_eq_None_Some, zget_None. lia.
Qed.

Lemma zget_cons_0 x l : zget (x :: l) 0 = Some x.
Proof. done. Qed.

Lemma zget_cons_pos x l i : 0 < i → zget (x :: l) i = zget l (i - 1).
Proof.
  intros. unfold zget. rewrite !decide_True by lia.
  replace (Z.to_nat i) with (S (Z.to_nat (i - 1))) by lia. done.
Qed.

Lemma zget_app_l l k i : i < zlen l → zget (l ++ k) i = zget l i.
Proof.
  unfold zget, zlen. intros. case_decide; [|done]. apply lookup_app_l. lia.
Qed.

Lemma zget_app_r l k i : zlen l ≤ i → zget (l ++ k) i = zget k (i - zlen l).
Proof.
  unfold zget, zlen. intros. rewrite !decide_True by lia.
  rewrite lookup_app_r by lia. f_equal. lia.
Qed.

Lemma zget_zdrop l i j : 0 ≤ i → 0 ≤ j → zget (zdrop i l) j = zget l (i + j).
Proof.
  unfold zget, zdrop. intros. rewrite !decide_True by lia.
  rewrite lookup_drop. f_equal. lia.
Qed.

Lemma zget_ztake l i j : j < i → zget (ztake i l) j = zget l j.
Proof.
  unfold zget, ztake. intros. case_decide; [|done].
  apply lookup_take_lt. lia.
Qed.

Lemma zdrop_zget l i x :
  zget l i = Some x → zdrop i l = x :: zdrop (i + 1) l.
Proof.
  rewrite zget_Some. intros [? Hl]. unfold zdrop.
  rewrite (drop_S _ _ _ Hl). do 2 f_equal. lia.
Qed.

Lemma ztake_snoc l i x :
  zget l i = Some x → ztake (i + 1) l = ztake i l ++ [x].
Proof.
  rewrite zget_Some. intros [? Hl]. unfold ztake.
  replace (Z.to_nat (i + 1)) with (S (Z.to_nat i)) by lia.
  by apply take_S_r.
Qed.

End zlist_lemmas.

Arguments zlen_nil : clear implicits.

#[export] Hint Resolve zlen_nonneg : zlist rust.
#[export] Hint Rewrite @zlen_nil @zlen_cons @zlen_app @ztake_0 @zdrop_0
  @ztake_nil @zdrop_nil
  @ztake_app_len @zdrop_app_len : zlist.
#[export] Hint Rewrite @zlen_ztake @zlen_zdrop using lia : zlist.

(** [zlist_simpl] normalises lengths and views; [zlia] is [lia] with the
    signs of the lengths in the goal as hypotheses. *)
Ltac zlist_simpl := autorewrite with zlist in *.

Ltac zlia :=
  repeat match goal with
  | |- context [zlen ?l] =>
      lazymatch goal with
      | _ : 0 ≤ zlen l |- _ => fail
      | _ => pose proof (zlen_nonneg l)
      end
  | _ : context [zlen ?l] |- _ =>
      lazymatch goal with
      | _ : 0 ≤ zlen l |- _ => fail
      | _ => pose proof (zlen_nonneg l)
      end
  end;
  unfold is_usize, usize_MAX, isize_MAX in *; lia.
