(* ===== verification/Utf8.v ===== *)
(** * UTF-8, the encoding of Rust's [str]

    Scalar values and their encoding ([char::len_utf8], [char::encode_utf8]),
    the validity of a byte string as a [str] ([utf8], with the executable
    [from_utf8]), the two decoders the iterators of [str] are built on
    ([next_code_point] for [chars().next()], [next_code_point_reverse] for
    [chars().rev().next()]), the byte test of [str::is_char_boundary] and
    [char::is_whitespace].  The theorems are the round trips between the
    encoder and the decoders and the facts on boundaries the slicing lemmas
    of [RustStr] rest on. *)

From Stdlib Require Import ZArith Lia.
From stdpp Require Import base tactics option list numbers.
From S2P Require Import Prelude.

#[local] Open Scope Z_scope.

(** ** Bytes *)

(** A [u8] reinterpreted as an [i8] ([b as i8]). *)
Definition as_i8 (b : Z) : Z := if decide (b < 128) then b else b - 256.

(** [u8::is_utf8_char_boundary]: [(self as i8) >= -0x40], the byte is not
    of the form [10xxxxxx]. *)
Definition is_utf8_char_boundary (b : Z) : bool := bool_decide (-64 ≤ as_i8 b).

(** [utf8_is_cont_byte]: [(byte as i8) < -64]. *)
Definition utf8_is_cont_byte (b : Z) : bool := bool_decide (as_i8 b < -64).

Definition is_ascii (b : Z) : Prop := 0 ≤ b < 128.

(** ** Scalar values *)

(** A [char] is a Unicode scalar value: a code point that is not a
    surrogate. *)
Definition is_scalar (c : Z) : Prop := 0 ≤ c < 55296 ∨ 57344 ≤ c ≤ 1114111.

#[export] Instance is_scalar_dec c : Decision (is_scalar c).
Proof. unfold is_scalar. apply _. Defined.

(** [char::len_utf8]. *)
Definition len_utf8 (c : Z) : Z :=
  if decide (c < 128) then 1
  else if decide (c < 2048) then 2
  else if decide (c < 65536) then 3
  else 4.

(** [char::encode_utf8], with the shifts and masks written as quotients and
    remainders. *)
Definition encode_utf8 (c : Z) : list Z :=
  if decide (c < 128) then [c]
  else if decide (c < 2048) then [192 + c / 64; 128 + c mod 64]
  else if decide (c < 65536) then
    [224 + c / 4096; 128 + (c / 64) mod 64; 128 + c mod 64]
  else [240 + c / 262144; 128 + (c / 4096) mod 64; 128 + (c / 64) mod 64;
        128 + c mod 64].

(** The bytes of a sequence of chars. *)
Definition encode_str (cs : list Z) : list Z := cs ≫= encode_utf8.

(** A byte string is a [str] when it is the encoding of scalar values. *)
Inductive utf8 : list Z → Prop :=
| utf8_nil : utf8 []
| utf8_char c s : is_scalar c → utf8 s → utf8 (encode_utf8 c ++ s).

(** ** Decoding *)

(** [next_code_point]: the first char of a [str] and the bytes after it.
    The width is read off the first byte; [None] when the bytes run out
    (which a valid [str] excludes). *)
Definition next_code_point (s : list Z) : option (Z * list Z) :=
  match s with
  | [] => None
  | x :: r =>
    if decide (x < 128) then Some (x, r)
    else match r with
    | [] => None
    | y :: r =>
      if decide (x < 224) then Some ((x - 192) * 64 + (y - 128), r)
      else match r with
      | [] => None
      | z :: r =>
        if decide (x < 240) then
          Some ((x - 224) * 4096 + (y - 128) * 64 + (z - 128), r)
        else match r with
        | [] => None
        | w :: r =>
          Some ((x - 240) * 262144 + (y - 128) * 4096 + (z - 128) * 64
                + (w - 128), r)
        end
      end
    end
  end.

(** [next_code_point_reverse] on the reversed bytes: the last char and the
    reversed bytes before it.  It walks back over continuation bytes to the
    first byte of the char. *)
Definition next_code_point_rev (rs : list Z) : option (Z * list Z) :=
  match rs with
  | [] => None
  | w :: r =>
    if decide (w < 128) then Some (w, r)
    else match r with
    | [] => None
    | z :: r =>
      if negb (utf8_is_cont_byte z) then Some ((z - 192) * 64 + (w - 128), r)
      else match r with
      | [] => None
      | y :: r =>
        if negb (utf8_is_cont_byte y) then
          Some ((y - 224) * 4096 + (z - 128) * 64 + (w - 128), r)
        else match r with
        | [] => None
        | x :: r =>
          Some ((x - 240) * 262144 + (y - 128) * 4096 + (z - 128) * 64
                + (w - 128), r)
        end
      end
    end
  end.

(** [next_code_point_reverse]: the last char of a [str] and the bytes before
    it. *)
Definition next_code_point_reverse (s : list Z) : option (Z * list Z) :=
  prod_map id reverse <$> next_code_point_rev (reverse s).

(** [from_utf8] with its [chars]: decodes char by char and accepts a char
    when it is a scalar value in its shortest encoding. *)
Fixpoint from_utf8_fuel (fuel : nat) (s : list Z) : option (list Z) :=
  match s, fuel with
  | [], _ => Some []
  | _, O => None
  | _, S fuel =>
    match next_code_point s with
    | Some (c, r) =>
      if decide (is_scalar c ∧ s = encode_utf8 c ++ r)
      then cons c <$> from_utf8_fuel fuel r
      else None
    | None => None
    end
  end.

Definition from_utf8 (s : list Z) : option (list Z) :=
  from_utf8_fuel (length s) s.

(** ** Whitespace *)

(** [char::is_whitespace]: the code points with the [White_Space]
    property. *)
Definition is_whitespace (c : Z) : bool :=
  bool_decide (c = 32 ∨ 9 ≤ c ≤ 13 ∨ c = 133 ∨ c = 160 ∨ c = 5760
               ∨ 8192 ≤ c ≤ 8202 ∨ c = 8232 ∨ c = 8233 ∨ c = 8239
               ∨ c = 8287 ∨ c = 12288).

(** ** Bytes: lemmas *)

Lemma is_utf8_char_boundary_spec b :
  0 ≤ b < 256 → is_utf8_char_boundary b = true ↔ b < 128 ∨ 192 ≤ b.
Proof.
  intros. unfold is_utf8_char_boundary, as_i8.
  rewrite bool_decide_eq_true. case_decide; lia.
Qed.

Lemma utf8_is_cont_byte_spec b :
  0 ≤ b < 256 → utf8_is_cont_byte b = true ↔ 128 ≤ b < 192.
Proof.
  intros. unfold utf8_is_cont_byte, as_i8.
  rewrite bool_decide_eq_true. case_decide; lia.
Qed.

Lemma is_utf8_char_boundary_cont b :
  is_utf8_char_boundary b = negb (utf8_is_cont_byte b).
Proof.
  unfold is_utf8_char_boundary, utf8_is_cont_byte.
  repeat case_bool_decide; (done || lia).
Qed.

Lemma is_utf8_char_boundary_ascii b :
  is_ascii b → is_utf8_char_boundary b = true.
Proof.
  unfold is_ascii. intros. apply is_utf8_char_boundary_spec; lia.
Qed.

(** ** The encoder: lemmas *)

(** What the bytes of an encoding look like, by width. *)
Lemma encode_utf8_cases c :
  0 ≤ c ≤ 1114111 →
  (c < 128 ∧ encode_utf8 c = [c])
  ∨ (128 ≤ c ∧ ∃ x y, encode_utf8 c = [x; y] ∧ 192 ≤ x < 224 ∧ 128 ≤ y < 192
       ∧ c = (x - 192) * 64 + (y - 128))
  ∨ (∃ x y z, encode_utf8 c = [x; y; z] ∧ 224 ≤ x < 240 ∧ 128 ≤ y < 192
       ∧ 128 ≤ z < 192 ∧ c = (x - 224) * 4096 + (y - 128) * 64 + (z - 128)
       ∧ 2048 ≤ c)
  ∨ (∃ x y z w, encode_utf8 c = [x; y; z; w] ∧ 240 ≤ x < 248 ∧ 128 ≤ y < 192
       ∧ 128 ≤ z < 192 ∧ 128 ≤ w < 192 ∧ 65536 ≤ c
       ∧ c = (x - 240) * 262144 + (y - 128) * 4096 + (z - 128) * 64 + (w - 128)).
Proof.
  intros. unfold encode_utf8. repeat case_decide.
  - left. done.
  - right; left. split; [lia|]. eexists _, _. split; [done|]. div_lia.
  - do 2 right; left. eexists _, _, _. split; [done|]. div_lia.
  - do 3 right. eexists _, _, _, _. split; [done|]. div_lia.
Qed.

Lemma encode_utf8_ascii c : c < 128 → encode_utf8 c = [c].
Proof. intros. unfold encode_utf8. by rewrite decide_True. Qed.

Lemma zlen_encode_utf8 c : zlen (encode_utf8 c) = len_utf8 c.
Proof. unfold encode_utf8, len_utf8. by repeat case_decide. Qed.

Lemma len_utf8_bounds c : 1 ≤ len_utf8 c ≤ 4.
Proof. unfold len_utf8. repeat case_decide; lia. Qed.

Lemma encode_utf8_nonempty c : encode_utf8 c ≠ [].
Proof. unfold encode_utf8. by repeat case_decide. Qed.

Lemma encode_utf8_bytes c b :
  0 ≤ c ≤ 1114111 → b ∈ encode_utf8 c → 0 ≤ b < 256.
Proof.
  intros Hc Hb.
  destruct (encode_utf8_cases c Hc)
    as [[? E]|[(?&?&?&E&?)|[(?&?&?&E&?)|(?&?&?&?&E&?)]]];
    rewrite E in Hb; decompose_list_elem_of; lia.
Qed.

(** The first byte of an encoding starts a char; the others continue it. *)
Lemma encode_utf8_head c :
  0 ≤ c ≤ 1114111 →
  ∃ x r, encode_utf8 c = x :: r ∧ is_utf8_char_boundary x = true
         ∧ Forall (λ b, utf8_is_cont_byte b = true) r
         ∧ (x < 128 ↔ c < 128) ∧ 0 ≤ x < 256.
Proof.
  intros Hc.
  destruct (encode_utf8_cases c Hc)
    as [[? E]|[(?&?&?&E&?)|[(?&?&?&E&?)|(?&?&?&?&E&?)]]];
    rewrite E; eexists _, _; (split; [done|]);
    rewrite is_utf8_char_boundary_spec by lia;
    repeat split; try lia;
    repeat (constructor; [apply utf8_is_cont_byte_spec; lia|]); constructor.
Qed.

(** A scalar value is a code point. *)
Lemma is_scalar_range c : is_scalar c → 0 ≤ c ≤ 1114111.
Proof. unfold is_scalar. lia. Qed.

#[export] Hint Resolve is_scalar_range : rust.

(** ** Round trips between the encoder and the decoders *)

(** [encode_cases c as x y z w E] splits on the width of the encoding of
    [c], given [0 ≤ c ≤ 1114111] in the context. *)
Tactic Notation "encode_cases" constr(c) "as" ident(x) ident(y) ident(z)
    ident(w) ident(E) :=
  let Hc := fresh in
  assert (0 ≤ c ≤ 1114111) as Hc by (auto with rust; lia);
  destruct (encode_utf8_cases c Hc)
    as [[? E]|[(?&x&y&E&?)|[(x&y&z&E&?)|(x&y&z&w&E&?)]]];
  clear Hc.

Lemma next_code_point_encode c s :
  0 ≤ c ≤ 1114111 → next_code_point (encode_utf8 c ++ s) = Some (c, s).
Proof.
  intros. encode_cases c as x y z w E; rewrite E; simpl;
    repeat case_decide; try lia; repeat f_equal; lia.
Qed.

Lemma next_code_point_rev_encode c rs :
  0 ≤ c ≤ 1114111 →
  next_code_point_rev (reverse (encode_utf8 c) ++ rs) = Some (c, rs).
Proof.
  intros. encode_cases c as x y z w E; rewrite E; cbn;
    unfold utf8_is_cont_byte, as_i8;
    repeat (case_decide || case_bool_decide); simpl; try lia;
    repeat f_equal; lia.
Qed.

Lemma next_code_point_reverse_encode c s :
  0 ≤ c ≤ 1114111 → next_code_point_reverse (s ++ encode_utf8 c) = Some (c, s).
Proof.
  intros. unfold next_code_point_reverse.
  rewrite reverse_app, next_code_point_rev_encode by done.
  simpl. by rewrite reverse_involutive.
Qed.

(** ** The decoders on any bytes *)

Lemma next_code_point_split s c r :
  next_code_point s = Some (c, r) → ∃ p, s = p ++ r ∧ 1 ≤ zlen p ≤ 4.
Proof.
  intros Hs. destruct s as [|x [|y [|z [|w s]]]]; simpl in Hs;
    repeat case_decide; try done; injection Hs as <- <-;
    first [exists [x; y; z; w]; split; [done | unfold zlen; simpl; lia]
          | exists [x; y; z]; split; [done | unfold zlen; simpl; lia]
          | exists [x; y]; split; [done | unfold zlen; simpl; lia]
          | exists [x]; split; [done | unfold zlen; simpl; lia]].
Qed.

Lemma next_code_point_length s c r :
  next_code_point s = Some (c, r) → (length r < length s)%nat.
Proof.
  intros (p & -> & Hp)%next_code_point_split.
  unfold zlen in Hp. rewrite length_app. lia.
Qed.

Lemma next_code_point_ascii x r :
  x < 128 → next_code_point (x :: r) = Some (x, r).
Proof. intros. simpl. by rewrite decide_True. Qed.

Lemma next_code_point_None s :
  next_code_point s = None → (length s < 4)%nat.
Proof.
  unfold next_code_point. intros.
  repeat (case_match || case_decide); simplify_eq; simpl; lia.
Qed.

Lemma next_code_point_reverse_snoc_ascii s x :
  x < 128 → next_code_point_reverse (s ++ [x]) = Some (x, s).
Proof.
  intros. unfold next_code_point_reverse. rewrite reverse_snoc. simpl.
  rewrite decide_True by done. simpl. by rewrite reverse_involutive.
Qed.

Lemma next_code_point_reverse_nil : next_code_point_reverse [] = None.
Proof. done. Qed.

Lemma next_code_point_reverse_split s c r :
  next_code_point_reverse s = Some (c, r) → ∃ p, s = r ++ p ∧ 1 ≤ zlen p ≤ 4.
Proof.
  unfold next_code_point_reverse. intros Hs.
  apply fmap_Some in Hs as ([c' rr] & Hs & [= -> ->]).
  rewrite <-(reverse_involutive s). revert Hs.
  generalize (reverse s). intros rs Hs. unfold next_code_point_rev in Hs.
  repeat (case_match || case_decide); simplify_eq; simpl;
    rewrite ?reverse_cons, <-?(assoc_L (++)); eexists; (split; [done|done]).
Qed.

(** ** Valid strings *)

Lemma utf8_app s t : utf8 s → utf8 t → utf8 (s ++ t).
Proof.
  induction 1 as [|c s Hc Hs IH]; [done|]. intros Ht.
  rewrite <-(assoc_L (++)). constructor; auto.
Qed.

Lemma utf8_encode c : is_scalar c → utf8 (encode_utf8 c).
Proof.
  intros. rewrite <-(right_id_L [] (++) (encode_utf8 c)).
  constructor; [done | constructor].
Qed.

Lemma utf8_cons_ascii b s : is_ascii b → utf8 s → utf8 (b :: s).
Proof.
  unfold is_ascii. intros Hb Hs.
  change (b :: s) with ([b] ++ s). rewrite <-(encode_utf8_ascii b) by lia.
  constructor; [unfold is_scalar; lia | done].
Qed.

Lemma utf8_all_ascii s : Forall is_ascii s → utf8 s.
Proof. induction 1; [constructor | by apply utf8_cons_ascii]. Qed.

Lemma utf8_bytes s : utf8 s → Forall (λ b, 0 ≤ b < 256) s.
Proof.
  induction 1 as [|c s Hc Hs IH]; [constructor|].
  apply Forall_app. split; [|done].
  apply list.Forall_forall. intros b. apply encode_utf8_bytes. auto with rust.
Qed.

Lemma utf8_elem_of s b : utf8 s → b ∈ s → 0 ≤ b < 256.
Proof. intros Hs%utf8_bytes Hb. by eapply list.Forall_forall in Hs. Qed.

Lemma utf8_zget s i b : utf8 s → zget s i = Some b → 0 ≤ b < 256.
Proof.
  intros Hs [_ Hb]%zget_Some. eapply utf8_elem_of; [done|].
  by eapply list_elem_of_lookup_2.
Qed.

(** A valid string starts with the encoding of a scalar value. *)
Lemma utf8_cons_inv b t :
  utf8 (b :: t) →
  ∃ c r s, is_scalar c ∧ encode_utf8 c = b :: r ∧ t = r ++ s ∧ utf8 s.
Proof.
  inversion 1 as [|c s Hc Hs E].
  destruct (encode_utf8 c) as [|b' r] eqn:Ec; [by apply encode_utf8_nonempty in Ec|].
  simplify_eq/=. by exists c, r, s.
Qed.

Lemma utf8_head_boundary b t :
  utf8 (b :: t) → is_utf8_char_boundary b = true.
Proof.
  intros (c & r & s & Hc & E & _)%utf8_cons_inv.
  destruct (encode_utf8_head c) as (x & r' & E' & ? & _); [auto with rust|].
  rewrite E in E'. by simplify_eq.
Qed.

Lemma utf8_cons_ascii_inv b t : b < 128 → utf8 (b :: t) → utf8 t.
Proof.
  intros Hb (c & r & s & Hc & E & -> & Hs)%utf8_cons_inv.
  destruct (encode_utf8_head c) as (x & r' & E' & _ & _ & Hx & _); [auto with rust|].
  rewrite E in E'. simplify_eq. rewrite encode_utf8_ascii in E by lia.
  by simplify_eq.
Qed.

(** A valid string can be cut where a char starts. *)
Lemma utf8_app_inv s t :
  utf8 (s ++ t) →
  (∀ b, head t = Some b → is_utf8_char_boundary b = true) →
  utf8 s ∧ utf8 t.
Proof.
  intros H. remember (s ++ t) as u eqn:Hu. revert s t Hu.
  induction H as [|c u Hc Hu IH]; intros s t E Ht.
  { symmetry in E. apply app_eq_nil in E as [-> ->]. split; constructor. }
  destruct s as [|b s]; [simpl in E; subst; split; by constructor|].
  apply app_eq_inv in E as [(k & E1 & E2)|(k & E1 & E2)].
  - destruct k as [|b' k].
    + rewrite (right_id_L [] (++)) in E1. simpl in E2. subst.
      split; [rewrite <-E1; by apply utf8_encode | done].
    + destruct (encode_utf8_head c) as (x & r & E' & _ & Hr & _); [auto with rust|].
      rewrite E' in E1. simplify_eq/=.
      assert (utf8_is_cont_byte b' = true) as Hb'.
      { eapply list.Forall_forall in Hr; [done|].
        apply elem_of_app. right. apply list_elem_of_here. }
      specialize (Ht b' eq_refl).
      rewrite is_utf8_char_boundary_cont, Hb' in Ht. done.
  - destruct (IH k t E2 Ht). rewrite E1. split; [by constructor | done].
Qed.

(** A nonempty valid string ends with the encoding of a scalar value. *)
Lemma utf8_snoc_inv s :
  utf8 s → s ≠ [] → ∃ s' c, s = s' ++ encode_utf8 c ∧ utf8 s' ∧ is_scalar c.
Proof.
  induction 1 as [|c s Hc Hs IH]; [done|]. intros _.
  destruct s as [|b s].
  - exists [], c. rewrite (right_id_L [] (++)). split_and!; [done | constructor | done].
  - destruct IH as (s' & c' & -> & Hs' & Hc'); [done|].
    exists (encode_utf8 c ++ s'), c'. rewrite (assoc_L (++)).
    split_and!; [done | by constructor | done].
Qed.

(** The checker accepts exactly the valid strings, and returns their
    chars. *)
Lemma from_utf8_fuel_sound fuel s cs :
  from_utf8_fuel fuel s = Some cs →
  utf8 s ∧ Forall is_scalar cs ∧ s = encode_str cs.
Proof.
  revert s cs. induction fuel as [|fuel IH]; intros [|b s] cs Hs;
    try done; try (injection Hs as <-; by repeat constructor).
  cbn [from_utf8_fuel] in Hs.
  destruct (next_code_point (b :: s)) as [[c r]|] eqn:Hn; [|done].
  case_decide as Hd; [|done]. destruct Hd as [Hc E].
  apply fmap_Some in Hs as (cs' & Hs & ->).
  destruct (IH _ _ Hs) as (? & ? & Er). rewrite E.
  split_and!; [by constructor | by constructor |].
  by rewrite Er at 1.
Qed.

Lemma from_utf8_sound s cs : from_utf8 s = Some cs → utf8 s.
Proof. intros H. by apply from_utf8_fuel_sound in H as [? _]. Qed.

Lemma from_utf8_fuel_complete fuel s :
  utf8 s → (length s ≤ fuel)%nat → is_Some (from_utf8_fuel fuel s).
Proof.
  intros Hs. revert fuel. induction Hs as [|c s Hc Hs IH]; intros fuel Hf.
  { destruct fuel; by eexists. }
  destruct (encode_utf8 c ++ s) as [|b u] eqn:E.
  { apply app_eq_nil in E as [E _]. by apply encode_utf8_nonempty in E. }
  destruct fuel as [|fuel]; [simpl in Hf; lia|]. cbn [from_utf8_fuel].
  rewrite <-E, next_code_point_encode by auto with rust.
  rewrite decide_True by done.
  destruct (IH fuel) as [cs ->]; [|by eexists].
  pose proof (len_utf8_bounds c). pose proof (zlen_encode_utf8 c).
  rewrite <-E, length_app in Hf. unfold zlen in *. lia.
Qed.

Lemma from_utf8_complete s : utf8 s → is_Some (from_utf8 s).
Proof. intros. by apply from_utf8_fuel_complete. Qed.

#[export] Instance utf8_dec s : Decision (utf8 s).
Proof.
  refine (cast_if (decide (is_Some (from_utf8 s)))).
  - abstract (destruct i as [cs Hcs]; by apply from_utf8_sound in Hcs).
  - abstract (intros ?; by apply n, from_utf8_complete).
Defined.

#[export] Hint Resolve utf8_nil utf8_app utf8_encode utf8_cons_ascii : rust.
