(* ===== verification/RustStr.v ===== *)
(** * The operations of [str], of slices and of [memchr] that the source calls

    Each definition gives the documented result of a library call of
    [lib.rs] on the bytes of a [str]: the searches [memchr2], [memchr_iter]
    and [str::find], slicing with its panics ([&s[a..b]], [&s[a..]],
    [&s[..b]]) and [str::is_char_boundary] behind it, [trim_start], [trim],
    [starts_with], [is_empty], [chars().rev().next()] with
    [Option::is_some_and], and [slice::get].  The lemmas characterise every
    search by the decomposition of the haystack it finds, and show which
    offsets of a valid [str] can be sliced at. *)

From Stdlib Require Import ZArith Lia.
From stdpp Require Import base tactics option list numbers strings.
From S2P Require Import Prelude Utf8.

#[local] Open Scope Z_scope.

(** The bytes of a string literal. *)
Definition bytes (s : string) : list Z :=
  (λ a, Z.of_N (Ascii.N_of_ascii a)) <$> String.list_ascii_of_string s.

(** The bytes the source names. *)
Definition LF : Z := 10.
Definition CR : Z := 13.
Definition HASH : Z := 35.
Definition BACKSLASH : Z := 92.

(** ** Searches *)

(** [memchr2(needle1, needle2, haystack)]: the offset of the first byte
    that is one of the needles. *)
Fixpoint memchr2 (needle1 needle2 : Z) (haystack : list Z) : option Z :=
  match haystack with
  | [] => None
  | b :: rest =>
    if decide (b = needle1 ∨ b = needle2) then Some 0
    else Z.succ <$> memchr2 needle1 needle2 rest
  end.

(** [memchr_iter(needle, haystack)]: the offsets of the needle, in
    increasing order; [memchr_iter_from] counts them from [pos]. *)
Fixpoint memchr_iter_from (needle : Z) (haystack : list Z) (pos : Z) : list Z :=
  match haystack with
  | [] => []
  | b :: rest =>
    if decide (b = needle) then pos :: memchr_iter_from needle rest (pos + 1)
    else memchr_iter_from needle rest (pos + 1)
  end.

Definition memchr_iter (needle : Z) (haystack : list Z) : list Z :=
  memchr_iter_from needle haystack 0.

(** [haystack.find(needle)] for a [&str] needle: the offset of the first
    occurrence; [find_from] counts it from [pos]. *)
Fixpoint find_from (needle haystack : list Z) (pos : Z) : option Z :=
  if decide (needle `prefix_of` haystack) then Some pos
  else match haystack with
       | [] => None
       | _ :: rest => find_from needle rest (pos + 1)
       end.

Definition str_find (haystack needle : list Z) : option Z :=
  find_from needle haystack 0.

(** ** Slicing *)

(** [str::is_char_boundary]. *)
Definition is_char_boundary (s : list Z) (index : Z) : bool :=
  if decide (index = 0) then true
  else match zget s index with
       | Some b => is_utf8_char_boundary b
       | None => bool_decide (index = zlen s)
       end.

(** The panic of a slice that [str::get] refused ([slice_error_fail]). *)
Definition slice_error_fail (s : list Z) (a b : Z) : panic :=
  if decide (zlen s < a ∨ zlen s < b) then SliceIndexOutOfRange
  else if decide (b < a) then SliceStartAfterEnd
  else SliceNotCharBoundary.

(** [&s[a..b]]. *)
Definition str_slice (s : list Z) (a b : Z) : outcome (list Z) :=
  if bool_decide (a ≤ b) && is_char_boundary s a && is_char_boundary s b
  then Done (zdrop a (ztake b s))
  else Panicked (slice_error_fail s a b).

(** [&s[a..]]. *)
Definition str_slice_from (s : list Z) (a : Z) : outcome (list Z) :=
  if is_char_boundary s a then Done (zdrop a s)
  else Panicked (slice_error_fail s a (zlen s)).

(** [&s[..b]]. *)
Definition str_slice_to (s : list Z) (b : Z) : outcome (list Z) :=
  if is_char_boundary s b then Done (ztake b s)
  else Panicked (slice_error_fail s 0 b).

(** ** Chars *)

(** [s.chars().next()] and [s.chars().rev().next()]. *)
Definition first_char (s : list Z) : option Z := fst <$> next_code_point s.
Definition last_char (s : list Z) : option Z := fst <$> next_code_point_reverse s.

(** [Option::is_some_and]. *)
Definition is_some_and {A} (o : option A) (f : A → bool) : bool :=
  match o with
  | Some a => f a
  | None => false
  end.

(** [s.starts_with(c)] for a [char]: the encoding of [c] is a prefix of the
    bytes. *)
Definition starts_with (s : list Z) (c : Z) : bool :=
  bool_decide (encode_utf8 c `prefix_of` s).

(** [s.is_empty()]. *)
Definition is_empty (s : list Z) : bool := bool_decide (s = []).

(** [s.trim_start()]: without its leading whitespace chars. *)
Fixpoint trim_start_fuel (fuel : nat) (s : list Z) : list Z :=
  match fuel with
  | O => s
  | S fuel =>
    match next_code_point s with
    | Some (c, rest) => if is_whitespace c then trim_start_fuel fuel rest else s
    | None => s
    end
  end.

Definition trim_start (s : list Z) : list Z := trim_start_fuel (length s) s.

(** [s.trim_end()]: without its trailing whitespace chars. *)
Fixpoint trim_end_fuel (fuel : nat) (s : list Z) : list Z :=
  match fuel with
  | O => s
  | S fuel =>
    match next_code_point_reverse s with
    | Some (c, rest) => if is_whitespace c then trim_end_fuel fuel rest else s
    | None => s
    end
  end.

Definition trim_end (s : list Z) : list Z := trim_end_fuel (length s) s.

(** [s.trim()]. *)
Definition trim (s : list Z) : list Z := trim_end (trim_start s).

(** ** Searches: lemmas *)

Section memchr.
Implicit Types (h pre post : list Z) (n p b : Z).

Lemma memchr2_None n1 n2 h :
  memchr2 n1 n2 h = None ↔ Forall (λ b, b ≠ n1 ∧ b ≠ n2) h.
Proof.
  induction h as [|b h IH]; simpl; [by split; [constructor|]|].
  case_decide as Hb.
  - split; [done|]. inversion 1; naive_solver.
  - rewrite fmap_None, IH, Forall_cons. naive_solver.
Qed.

(** [memchr2] finds the first needle: the haystack splits around it. *)
Lemma memchr2_Some n1 n2 h p :
  memchr2 n1 n2 h = Some p ↔
  ∃ pre b post, h = pre ++ b :: post ∧ p = zlen pre ∧ (b = n1 ∨ b = n2)
                ∧ Forall (λ x, x ≠ n1 ∧ x ≠ n2) pre.
Proof.
  revert p. induction h as [|b h IH]; intros p; simpl.
  { split; [done|]. by intros ([|??] & ? & ? & ? & _). }
  case_decide as Hb.
  - split.
    + intros [= <-]. by exists [], b, h.
    + intros ([|x pre] & b' & post & E & -> & Hb' & Hpre); [done|].
      simplify_eq/=. apply Forall_cons in Hpre as [[] _]. naive_solver.
  - rewrite fmap_Some. setoid_rewrite IH. split.
    + intros (q & (pre & b' & post & -> & -> & ? & ?) & ->).
      exists (b :: pre), b', post. rewrite zlen_cons.
      split_and!; [done | lia | done | constructor; naive_solver].
    + intros ([|x pre] & b' & post & E & -> & Hb' & Hpre); simplify_eq/=;
        [naive_solver|].
      apply Forall_cons in Hpre as [_ Hpre].
      exists (zlen pre). split; [by exists pre, b', post|].
      rewrite zlen_cons. lia.
Qed.

Lemma memchr2_app n1 n2 pre b post :
  Forall (λ x, x ≠ n1 ∧ x ≠ n2) pre → b = n1 ∨ b = n2 →
  memchr2 n1 n2 (pre ++ b :: post) = Some (zlen pre).
Proof. intros. apply memchr2_Some. by exists pre, b, post. Qed.

Lemma memchr2_bounds n1 n2 h p : memchr2 n1 n2 h = Some p → 0 ≤ p < zlen h.
Proof.
  intros (pre & b & post & -> & -> & _)%memchr2_Some.
  rewrite zlen_app, zlen_cons. zlia.
Qed.

Lemma memchr2_zget n1 n2 h p :
  memchr2 n1 n2 h = Some p → ∃ b, zget h p = Some b ∧ (b = n1 ∨ b = n2).
Proof.
  intros (pre & b & post & -> & -> & ? & _)%memchr2_Some. exists b.
  rewrite zget_app_r, Z.sub_diag by lia. done.
Qed.

Lemma memchr_iter_from_succ n h pos :
  memchr_iter_from n h (pos + 1) = Z.succ <$> memchr_iter_from n h pos.
Proof.
  revert pos. induction h as [|b h IH]; intros pos; simpl; [done|].
  rewrite IH. case_decide; simpl; f_equal; lia.
Qed.

Lemma memchr_iter_cons n b h :
  memchr_iter n (b :: h) =
  (if decide (b = n) then [0] else []) ++ (Z.succ <$> memchr_iter n h).
Proof.
  unfold memchr_iter. simpl. rewrite memchr_iter_from_succ. by case_decide.
Qed.

Lemma memchr_iter_nil n : memchr_iter n [] = [].
Proof. done. Qed.

(** The offsets [memchr_iter] yields are those of the needle. *)
Lemma elem_of_memchr_iter n h p : p ∈ memchr_iter n h ↔ zget h p = Some n.
Proof.
  revert p. induction h as [|b h IH]; intros p.
  { rewrite memchr_iter_nil, elem_of_nil. split; [done|].
    intros []%zget_lt. rewrite zlen_nil in *. lia. }
  rewrite memchr_iter_cons, elem_of_app, list_elem_of_fmap.
  setoid_rewrite IH. split.
  - intros [Hp|(q & -> & Hq)].
    + case_decide as Hb; [|by apply elem_of_nil in Hp].
      apply list_elem_of_singleton in Hp as ->. by subst.
    + pose proof (zget_lt _ _ _ Hq). rewrite zget_cons_pos by lia.
      by replace (Z.succ q - 1) with q by lia.
  - intros Hp. pose proof (zget_lt _ _ _ Hp).
    destruct (decide (p = 0)) as [->|].
    + left. rewrite zget_cons_0 in Hp. simplify_eq.
      rewrite decide_True by done. apply list_elem_of_here.
    + right. exists (p - 1). rewrite zget_cons_pos in Hp by lia.
      split; [lia | done].
Qed.

Lemma memchr_iter_empty n h : memchr_iter n h = [] ↔ n ∉ h.
Proof.
  induction h as [|b h IH]; [split; [intros _; apply not_elem_of_nil | done]|].
  rewrite memchr_iter_cons, not_elem_of_cons, <-IH.
  case_decide; simpl; [naive_solver|]. split.
  - intros ?%fmap_nil_inv. naive_solver.
  - intros [_ ->]. done.
Qed.

Lemma memchr_iter_pos n h p : p ∈ (Z.succ <$> memchr_iter n h) → 0 < p.
Proof.
  rewrite list_elem_of_fmap. intros (q & -> & Hq%elem_of_memchr_iter).
  apply zget_lt in Hq. lia.
Qed.

Lemma memchr_iter_bounds n h p : p ∈ memchr_iter n h → 0 ≤ p < zlen h.
Proof. intros ?%elem_of_memchr_iter. by eapply zget_lt. Qed.

(** The offsets come in increasing order. *)
Lemma memchr_iter_increasing n h p ps :
  memchr_iter n h = p :: ps → Forall (λ q, p < q) ps.
Proof.
  revert p ps. induction h as [|b h IH]; intros p ps; [done|].
  rewrite memchr_iter_cons. case_decide; simpl.
  - intros [= <- <-]. apply list.Forall_forall. apply memchr_iter_pos.
  - destruct (memchr_iter n h) as [|p' ps'] eqn:E; [done|].
    intros [= <- <-]. specialize (IH _ _ eq_refl).
    apply Forall_fmap. eapply Forall_impl; [done|]. simpl. lia.
Qed.

Lemma memchr_iter_head_0 n h ps :
  memchr_iter n h = 0 :: ps → head h = Some n.
Proof.
  intros E. assert (0 ∈ memchr_iter n h) as Hp by (rewrite E; apply list_elem_of_here).
  apply elem_of_memchr_iter in Hp. by destruct h.
Qed.

End memchr.

Section find.
Implicit Types (h n : list Z) (i pos : Z).

Lemma find_from_succ n h pos :
  find_from n h (pos + 1) = Z.succ <$> find_from n h pos.
Proof.
  revert pos. induction h as [|b h IH]; intros pos; simpl.
  { case_decide; simpl; f_equal; lia. }
  case_decide; simpl; [f_equal; lia | apply IH].
Qed.

Lemma str_find_nil n : str_find [] n = if decide (n = []) then Some 0 else None.
Proof.
  unfold str_find. simpl. repeat case_decide; try done.
  - by apply prefix_nil_inv in H.
  - subst. by destruct H.
Qed.

Lemma str_find_cons n b h :
  str_find (b :: h) n =
  if decide (n `prefix_of` b :: h) then Some 0 else Z.succ <$> str_find h n.
Proof.
  unfold str_find. simpl. case_decide; [done|]. apply find_from_succ.
Qed.

(** [find] returns the first offset at which the needle occurs. *)
Lemma str_find_Some h n i :
  str_find h n = Some i ↔
  0 ≤ i ≤ zlen h ∧ n `prefix_of` zdrop i h
  ∧ ∀ j, 0 ≤ j < i → ¬ n `prefix_of` zdrop j h.
Proof.
  revert i. induction h as [|b h IH]; intros i.
  { rewrite str_find_nil, zlen_nil, zdrop_nil. setoid_rewrite zdrop_nil.
    case_decide as Hn; split.
    - intros [= <-]. subst. split_and!; [lia.. | done | lia].
    - intros ([? ?] & _). f_equal. lia.
    - done.
    - intros (? & Hp & _). by apply prefix_nil_inv in Hp. }
  rewrite str_find_cons, zlen_cons. case_decide as Hp; split.
  - intros [= <-]. split_and!; [zlia.. | done | lia].
  - intros (? & _ & Hi). destruct (decide (i = 0)) as [->|]; [done|].
    destruct (Hi 0); [lia | done].
  - intros (i' & (? & ? & Hi')%IH & ->)%fmap_Some.
    replace (Z.succ i') with (i' + 1) by lia.
    rewrite zdrop_cons_succ by lia. split_and!; [lia.. | done |].
    intros j ?. destruct (decide (j = 0)) as [->|]; [done|].
    replace j with (j - 1 + 1) by lia. rewrite zdrop_cons_succ by lia.
    apply Hi'. lia.
  - intros (? & Hi & Hlt). destruct (decide (i = 0)) as [->|]; [done|].
    apply fmap_Some. exists (i - 1). split; [|lia]. apply IH.
    replace i with (i - 1 + 1) in Hi by lia. rewrite zdrop_cons_succ in Hi by lia.
    split_and!; [lia.. | done |].
    intros j ?. specialize (Hlt (j + 1)). rewrite zdrop_cons_succ in Hlt by lia.
    apply Hlt. lia.
Qed.

Lemma str_find_None h n :
  str_find h n = None ↔ ∀ j, 0 ≤ j ≤ zlen h → ¬ n `prefix_of` zdrop j h.
Proof.
  induction h as [|b h IH].
  { rewrite str_find_nil, zlen_nil. setoid_rewrite zdrop_nil.
    case_decide as Hn; split; try done.
    - intros Hj. destruct (Hj 0); [lia|]. by subst.
    - intros _ j ? Hp. by apply prefix_nil_inv in Hp. }
  rewrite str_find_cons, zlen_cons. case_decide as Hp; split; try done.
  - intros Hj. destruct (Hj 0); [zlia | done].
  - rewrite fmap_None, IH. intros Hj j ?.
    destruct (decide (j = 0)) as [->|]; [done|].
    replace j with (j - 1 + 1) by lia. rewrite zdrop_cons_succ by lia.
    apply Hj. lia.
  - intros Hj. apply fmap_None, IH. intros j ?.
    specialize (Hj (j + 1)). rewrite zdrop_cons_succ in Hj by lia.
    apply Hj. lia.
Qed.

Lemma str_find_bounds h n i : str_find h n = Some i → 0 ≤ i ∧ i + zlen n ≤ zlen h.
Proof.
  intros (? & [k Hk] & _)%str_find_Some. split; [lia|].
  assert (zlen (zdrop i h) = zlen n + zlen k) as Hl by (by rewrite Hk, zlen_app).
  rewrite zlen_zdrop in Hl by lia. zlia.
Qed.

End find.

(** ** Slicing: lemmas *)

Section slicing.
Implicit Types (s r : list Z) (i a b : Z).

Lemma is_char_boundary_0 s : is_char_boundary s 0 = true.
Proof. done. Qed.

Lemma is_char_boundary_zlen s : is_char_boundary s (zlen s) = true.
Proof.
  unfold is_char_boundary. case_decide; [done|].
  rewrite (proj2 (zget_None s (zlen s))) by lia. by apply bool_decide_eq_true.
Qed.

Lemma is_char_boundary_zget s i b :
  zget s i = Some b → i ≠ 0 → is_char_boundary s i = is_utf8_char_boundary b.
Proof. intros Hb ?. unfold is_char_boundary. by rewrite decide_False, Hb. Qed.

Lemma is_char_boundary_ascii s i b :
  zget s i = Some b → is_ascii b → is_char_boundary s i = true.
Proof.
  intros Hb ?. unfold is_char_boundary. case_decide; [done|].
  rewrite Hb. by apply is_utf8_char_boundary_ascii.
Qed.

Lemma is_char_boundary_range s i : is_char_boundary s i = true → 0 ≤ i ≤ zlen s.
Proof.
  unfold is_char_boundary. case_decide; [zlia|].
  destruct (zget s i) eqn:Hi; [apply zget_lt in Hi; lia|].
  intros ?%bool_decide_eq_true. zlia.
Qed.

Lemma is_char_boundary_oob s i :
  i < 0 ∨ zlen s < i → is_char_boundary s i = false.
Proof.
  intros. apply not_true_is_false. intros ?%is_char_boundary_range. lia.
Qed.

(** Where a string can be cut: at its ends and before every byte that is
    not a continuation byte. *)
Lemma is_char_boundary_app s r :
  is_char_boundary (s ++ r) (zlen s) = true ↔
  s = [] ∨ ∀ b, head r = Some b → is_utf8_char_boundary b = true.
Proof.
  unfold is_char_boundary. case_decide as Hs.
  { apply zlen_0 in Hs. naive_solver. }
  rewrite zget_app_r, Z.sub_diag by lia.
  assert (s ≠ []) by (by rewrite <-zlen_0).
  destruct r as [|b r].
  - change (zget [] 0) with (@None Z).
    rewrite (right_id_L [] (++)), bool_decide_eq_true. naive_solver.
  - change (zget (b :: r) 0) with (Some b). naive_solver.
Qed.

Lemma slice_error_fail_oob s a b :
  zlen s < a ∨ zlen s < b → slice_error_fail s a b = SliceIndexOutOfRange.
Proof. intros. unfold slice_error_fail. by rewrite decide_True. Qed.

Lemma str_slice_to_Done s i r :
  str_slice_to s i = Done r ↔ is_char_boundary s i = true ∧ r = ztake i s.
Proof. unfold str_slice_to. destruct (is_char_boundary s i); naive_solver. Qed.

Lemma str_slice_from_Done s i r :
  str_slice_from s i = Done r ↔ is_char_boundary s i = true ∧ r = zdrop i s.
Proof. unfold str_slice_from. destruct (is_char_boundary s i); naive_solver. Qed.

Lemma str_slice_Done s a b r :
  str_slice s a b = Done r ↔
  a ≤ b ∧ is_char_boundary s a = true ∧ is_char_boundary s b = true
  ∧ r = zdrop a (ztake b s).
Proof.
  unfold str_slice. case_bool_decide; simpl; [|naive_solver].
  destruct (is_char_boundary s a), (is_char_boundary s b); naive_solver.
Qed.

Lemma str_slice_to_boundary s i :
  is_char_boundary s i = true → str_slice_to s i = Done (ztake i s).
Proof. intros. by apply str_slice_to_Done. Qed.

Lemma str_slice_from_boundary s i :
  is_char_boundary s i = true → str_slice_from s i = Done (zdrop i s).
Proof. intros. by apply str_slice_from_Done. Qed.

Lemma str_slice_boundary s a b :
  a ≤ b → is_char_boundary s a = true → is_char_boundary s b = true →
  str_slice s a b = Done (zdrop a (ztake b s)).
Proof. intros. by apply str_slice_Done. Qed.

Lemma str_slice_to_zlen s : str_slice_to s (zlen s) = Done s.
Proof.
  rewrite str_slice_to_boundary by apply is_char_boundary_zlen.
  by rewrite ztake_all.
Qed.

Lemma str_slice_to_0 s : str_slice_to s 0 = Done [].
Proof. done. Qed.

Lemma str_slice_from_0 s : str_slice_from s 0 = Done s.
Proof. done. Qed.

Lemma str_slice_from_zlen s : str_slice_from s (zlen s) = Done [].
Proof.
  rewrite str_slice_from_boundary by apply is_char_boundary_zlen.
  by rewrite zdrop_all.
Qed.

(** A slice that ends after the string panics with an index out of
    range. *)
Lemma str_slice_to_oob s i :
  zlen s < i → str_slice_to s i = Panicked SliceIndexOutOfRange.
Proof.
  intros. unfold str_slice_to.
  rewrite is_char_boundary_oob, slice_error_fail_oob by lia. done.
Qed.

Lemma str_slice_from_oob s i :
  zlen s < i → str_slice_from s i = Panicked SliceIndexOutOfRange.
Proof.
  intros. unfold str_slice_from.
  rewrite is_char_boundary_oob, slice_error_fail_oob by lia. done.
Qed.

Lemma str_slice_to_not_OutOfFuel s i : str_slice_to s i ≠ OutOfFuel.
Proof. unfold str_slice_to. by case_match. Qed.

Lemma str_slice_from_not_OutOfFuel s i : str_slice_from s i ≠ OutOfFuel.
Proof. unfold str_slice_from. by case_match. Qed.

Lemma str_slice_not_OutOfFuel s a b : str_slice s a b ≠ OutOfFuel.
Proof. unfold str_slice. by case_match. Qed.

(** In a valid string, a position holding an ASCII byte and the position
    after it both start a char, and the string is valid on both sides. *)
Lemma utf8_split_ascii s i b :
  utf8 s → zget s i = Some b → b < 128 →
  utf8 (ztake i s) ∧ utf8 (zdrop (i + 1) s).
Proof.
  intros Hs Hb ?. pose proof (zget_lt _ _ _ Hb).
  pose proof (utf8_zget _ _ _ Hs Hb).
  rewrite <-(ztake_zdrop i s), (zdrop_zget _ _ _ Hb) in Hs.
  apply utf8_app_inv in Hs as [? Hs].
  - split; [done|]. by apply utf8_cons_ascii_inv in Hs.
  - intros b' [= <-]. apply is_utf8_char_boundary_ascii. unfold is_ascii. lia.
Qed.

Lemma is_char_boundary_split s i :
  is_char_boundary s i = true ↔
  0 ≤ i ≤ zlen s
  ∧ (ztake i s = [] ∨ ∀ b, head (zdrop i s) = Some b → is_utf8_char_boundary b = true).
Proof.
  split.
  - intros Hi. pose proof (is_char_boundary_range _ _ Hi). split; [done|].
    pose proof (is_char_boundary_app (ztake i s) (zdrop i s)) as Happ.
    rewrite ztake_zdrop, zlen_ztake in Happ by done. by apply Happ.
  - intros [? Hi].
    pose proof (is_char_boundary_app (ztake i s) (zdrop i s)) as Happ.
    rewrite ztake_zdrop, zlen_ztake in Happ by done. by apply Happ.
Qed.

Lemma utf8_is_char_boundary s i :
  utf8 s → is_char_boundary s i = true → utf8 (ztake i s) ∧ utf8 (zdrop i s).
Proof.
  intros Hs [? [Hi|Hi]]%is_char_boundary_split;
    rewrite <-(ztake_zdrop i s) in Hs.
  - rewrite Hi in Hs |- *. split; [constructor | done].
  - by apply utf8_app_inv.
Qed.

Lemma is_char_boundary_after_ascii s i b :
  utf8 s → zget s i = Some b → b < 128 → is_char_boundary s (i + 1) = true.
Proof.
  intros Hs Hb ?. pose proof (zget_lt _ _ _ Hb).
  destruct (utf8_split_ascii s i b) as [_ Hd]; [done..|].
  apply is_char_boundary_split. split; [lia|]. right. intros b' Hb'.
  destruct (zdrop (i + 1) s) as [|x r]; simplify_eq/=.
  by apply utf8_head_boundary in Hd.
Qed.

(** A boundary of a string is a boundary of every prefix that reaches
    it. *)
Lemma is_char_boundary_ztake s a b :
  a ≤ b ≤ zlen s → is_char_boundary s a = true →
  is_char_boundary (ztake b s) a = true.
Proof.
  intros ? Ha. pose proof (is_char_boundary_range _ _ Ha).
  unfold is_char_boundary in *. case_decide; [done|].
  destruct (decide (a < b)).
  { rewrite zget_ztake by done. destruct (zget s a) eqn:E; [done|].
    apply bool_decide_eq_true in Ha. lia. }
  assert (a = b) as -> by lia.
  destruct (zget (ztake b s) b) eqn:E.
  { apply zget_lt in E. rewrite zlen_ztake in E by lia. lia. }
  apply bool_decide_eq_true. by rewrite zlen_ztake by lia.
Qed.

(** The slices of a valid string are valid strings. *)
Lemma str_slice_to_utf8 s i r : utf8 s → str_slice_to s i = Done r → utf8 r.
Proof.
  intros Hs [Hi ->]%str_slice_to_Done. by apply utf8_is_char_boundary.
Qed.

Lemma str_slice_from_utf8 s i r : utf8 s → str_slice_from s i = Done r → utf8 r.
Proof.
  intros Hs [Hi ->]%str_slice_from_Done. by apply utf8_is_char_boundary.
Qed.

Lemma str_slice_utf8 s a b r : utf8 s → str_slice s a b = Done r → utf8 r.
Proof.
  intros Hs (? & Ha & Hb & ->)%str_slice_Done.
  pose proof (is_char_boundary_range _ _ Hb).
  apply utf8_is_char_boundary; [by apply utf8_is_char_boundary|].
  apply is_char_boundary_ztake; [lia | done].
Qed.

End slicing.

#[export] Hint Resolve str_slice_to_not_OutOfFuel str_slice_from_not_OutOfFuel
  str_slice_not_OutOfFuel : rust.
#[export] Hint Rewrite str_slice_to_zlen str_slice_to_0 str_slice_from_0
  str_slice_from_zlen is_char_boundary_0 is_char_boundary_zlen : rust.

(** ** Chars: lemmas *)

Section chars.
Implicit Types (s r : list Z) (c b : Z).

Lemma last_char_nil : last_char [] = None.
Proof. done. Qed.

Lemma last_char_snoc_ascii s b : b < 128 → last_char (s ++ [b]) = Some b.
Proof.
  intros. unfold last_char. by rewrite next_code_point_reverse_snoc_ascii.
Qed.

Lemma last_char_encode s c :
  0 ≤ c ≤ 1114111 → last_char (s ++ encode_utf8 c) = Some c.
Proof.
  intros. unfold last_char. by rewrite next_code_point_reverse_encode.
Qed.

Lemma first_char_encode s c :
  0 ≤ c ≤ 1114111 → first_char (encode_utf8 c ++ s) = Some c.
Proof. intros. unfold first_char. by rewrite next_code_point_encode. Qed.

Lemma last_char_is_Some s : is_Some (last_char s) → s ≠ [].
Proof. by intros [? ?] ->. Qed.

Lemma is_some_and_true {A} (o : option A) f :
  is_some_and o f = true ↔ ∃ a, o = Some a ∧ f a = true.
Proof. destruct o; simpl; naive_solver. Qed.

Lemma starts_with_ascii s b :
  b < 128 → starts_with s b = true ↔ head s = Some b.
Proof.
  intros. unfold starts_with. rewrite bool_decide_eq_true, encode_utf8_ascii by done.
  destruct s as [|x s]; simpl; split.
  - by intros ?%prefix_nil_not.
  - done.
  - by intros ->%prefix_cons_inv_1.
  - intros [= ->]. apply prefix_cons, prefix_nil.
Qed.

Lemma is_empty_true s : is_empty s = true ↔ s = [].
Proof. apply bool_decide_eq_true. Qed.

End chars.

(** ** Trimming: lemmas *)

Section trim.
Implicit Types (s r : list Z) (c b : Z) (fuel : nat).

(** The result of the loop of [trim_start] does not depend on the fuel,
    once there is as much of it as bytes. *)
Lemma trim_start_fuel_irrel fuel fuel' s :
  (length s ≤ fuel)%nat → (length s ≤ fuel')%nat →
  trim_start_fuel fuel s = trim_start_fuel fuel' s.
Proof.
  revert fuel' s. induction fuel as [|fuel IH]; intros [|fuel'] s ? ?;
    try (destruct s; [done | simpl in *; lia]).
  simpl. destruct (next_code_point s) as [[c r]|] eqn:E; [|done].
  apply next_code_point_length in E.
  destruct (is_whitespace c); [apply IH; lia | done].
Qed.

Lemma trim_start_fuel_enough fuel s :
  (length s ≤ fuel)%nat → trim_start_fuel fuel s = trim_start s.
Proof. intros. by apply trim_start_fuel_irrel. Qed.

Lemma trim_start_nil : trim_start [] = [].
Proof. done. Qed.

(** [trim_start] on a text that starts with the char [c]. *)
Lemma trim_start_encode c s :
  0 ≤ c ≤ 1114111 →
  trim_start (encode_utf8 c ++ s) =
  if is_whitespace c then trim_start s else encode_utf8 c ++ s.
Proof.
  intros. unfold trim_start at 1.
  destruct (length (encode_utf8 c ++ s)) as [|n] eqn:Hn.
  { apply length_zero_iff_nil, app_eq_nil in Hn as [?%encode_utf8_nonempty _]. done. }
  cbn [trim_start_fuel]. rewrite next_code_point_encode by done.
  destruct (is_whitespace c); [|done].
  apply trim_start_fuel_enough. rewrite length_app in Hn.
  pose proof (encode_utf8_nonempty c). destruct (encode_utf8 c); simpl in *; [done | lia].
Qed.

Lemma trim_start_cons_ascii b s :
  0 ≤ b < 128 →
  trim_start (b :: s) = if is_whitespace b then trim_start s else b :: s.
Proof.
  intros. pose proof (trim_start_encode b s ltac:(lia)) as E.
  by rewrite encode_utf8_ascii in E by lia.
Qed.

(** [trim_start] on a concatenation: when the first part is whitespace
    only, the trimming goes on in the second. *)
Lemma trim_start_app s r :
  utf8 s →
  trim_start (s ++ r) =
  if decide (trim_start s = []) then trim_start r else trim_start s ++ r.
Proof.
  induction 1 as [|c s Hc Hs IH]; [done|].
  rewrite <-(assoc_L (++)), !trim_start_encode by auto with rust.
  destruct (is_whitespace c); [done|].
  rewrite decide_False; [by rewrite (assoc_L (++))|].
  intros [?%encode_utf8_nonempty _]%app_eq_nil. done.
Qed.

(** What [trim_start] leaves is empty or starts with a char that is not
    whitespace. *)
Lemma trim_start_head s :
  utf8 s →
  trim_start s = [] ∨ ∃ c r, trim_start s = encode_utf8 c ++ r ∧ is_scalar c
                             ∧ is_whitespace c = false ∧ utf8 r.
Proof.
  induction 1 as [|c s Hc Hs IH]; [by left|].
  rewrite trim_start_encode by auto with rust.
  destruct (is_whitespace c) eqn:E; [done|]. right. by exists c, s.
Qed.

Lemma trim_nil : trim [] = [].
Proof. done. Qed.

(** A text of whitespace only is blank. *)
Lemma trim_start_nil_trim s : trim_start s = [] → trim s = [].
Proof. unfold trim. by intros ->. Qed.

(** The first char of a concatenation whose first part is not empty. *)
Lemma starts_with_app s r c :
  c < 128 → s ≠ [] → starts_with (s ++ r) c = starts_with s c.
Proof.
  intros Hc Hs. pose proof (starts_with_ascii (s ++ r) c Hc) as H1.
  pose proof (starts_with_ascii s c Hc) as H2.
  unfold starts_with in *. rewrite bool_decide_eq_true in H1, H2.
  apply bool_decide_ext. rewrite H1, H2. by destruct s.
Qed.

(** On valid UTF-8 the last char is a backslash exactly when the last byte
    is one. *)
Lemma last_char_backslash s :
  utf8 s →
  is_some_and (last_char s) (λ c, bool_decide (c = BACKSLASH))
  = bool_decide (last s = Some BACKSLASH).
Proof.
  intros Hs. destruct (decide (s = [])) as [->|Hne]; [done|].
  destruct (utf8_snoc_inv s Hs Hne) as (s' & c & -> & _ & Hc).
  rewrite last_char_encode by auto with rust. simpl.
  apply bool_decide_ext. unfold BACKSLASH.
  encode_cases c as x y z w E; rewrite E, ?last_app; simpl; naive_solver lia.
Qed.

End trim.

(** ** Slices of a concatenation *)

Section slices_app.
Implicit Types (a m z s : list Z) (b : Z).

(** The end of [a] in [a ++ z] can be sliced at when [z] is valid
    UTF-8. *)
Lemma is_char_boundary_app_utf8 a z :
  utf8 z → is_char_boundary (a ++ z) (zlen a) = true.
Proof.
  intros Hz. apply is_char_boundary_app. right. intros b Hb.
  destruct z; simplify_eq/=. by eapply utf8_head_boundary.
Qed.

Lemma str_slice_from_app a z :
  utf8 z → str_slice_from (a ++ z) (zlen a) = Done z.
Proof.
  intros. rewrite str_slice_from_boundary by by apply is_char_boundary_app_utf8.
  by rewrite zdrop_app_len.
Qed.

Lemma str_slice_to_app a z :
  utf8 z → str_slice_to (a ++ z) (zlen a) = Done a.
Proof.
  intros. rewrite str_slice_to_boundary by by apply is_char_boundary_app_utf8.
  by rewrite ztake_app_len.
Qed.

Lemma str_slice_app a m z :
  utf8 (m ++ z) → utf8 z →
  str_slice (a ++ m ++ z) (zlen a) (zlen a + zlen m) = Done m.
Proof.
  intros. rewrite str_slice_boundary.
  - rewrite (assoc_L (++)), <-zlen_app, ztake_app_len.
    by rewrite zdrop_app_len.
  - zlia.
  - by apply is_char_boundary_app_utf8.
  - rewrite (assoc_L (++)), <-zlen_app. by apply is_char_boundary_app_utf8.
Qed.

(** The parts of a valid text around an ASCII byte are valid. *)
Lemma utf8_app_ascii_inv a b z :
  is_ascii b → utf8 (a ++ b :: z) → utf8 a ∧ utf8 z.
Proof.
  intros Hb Hs. destruct (utf8_app_inv a (b :: z) Hs) as [? Hz].
  { intros ? [= <-]. by apply is_utf8_char_boundary_ascii. }
  split; [done|]. unfold is_ascii in Hb. apply (utf8_cons_ascii_inv b); [lia | done].
Qed.

End slices_app.
