(* ===== verification/Chars.v ===== *)
(** * The string operations read on chars

    [lib.rs] asks its questions about text through [str] methods that work
    on chars: [trim_start], [trim], [starts_with('#')], [is_empty] and
    [chars().rev().next()].  RustStr.v models them the way the standard
    library runs them, as loops over the bytes that decode one char at a
    time from the front or from the back.  This file gives the same
    operations their meaning on the decoded text, [chars s], and proves
    that the loops compute it:

    - [chars] and [encode_str] are inverse to each other on valid strings
      and on scalar values;
    - [first_char] and [last_char] are the head and the last element of
      [chars s];
    - [trim_start], [trim_end] and [trim] drop the whitespace chars at the
      front, at the back and at both ends ([drop_while],
      [drop_while_end]), and the fuel of their loops is enough;
    - the two tests of the iterator, [line.trim().is_empty()] and
      [line.trim_start().starts_with('#')], hold exactly when every char
      is whitespace and when the first char that is not whitespace is
      [#]. *)

From Stdlib Require Import ZArith Lia.
From stdpp Require Import base tactics option list numbers strings.
From S2P Require Import Prelude.
From S2P Require Import Utf8.
From S2P Require Import RustStr.

#[local] Open Scope Z_scope.

(** ** Reference definitions *)

(** [s.chars()], collected: the chars of a [str] (nothing for bytes that
    are not one). *)
Definition chars (s : list Z) : list Z := default [] (from_utf8 s).

(** The list without its longest prefix of elements that satisfy [p]. *)
Fixpoint drop_while {A} (p : A → bool) (l : list A) : list A :=
  match l with
  | [] => []
  | x :: l' => if p x then drop_while p l' else l
  end.

(** The list without its longest suffix of elements that satisfy [p]. *)
Definition drop_while_end {A} (p : A → bool) (l : list A) : list A :=
  foldr (λ x acc, match acc with
                  | [] => if p x then [] else [x]
                  | _ => x :: acc
                  end) [] l.

(** ** Dropping at the ends of a list *)

Section drop_while.
Context {A : Type} (p : A → bool).
Implicit Types (l : list A) (x : A).

Lemma drop_while_nil l : drop_while p l = [] ↔ Forall (λ x, p x = true) l.
Proof.
  induction l as [|x l IH]; simpl; [by split|].
  rewrite list.Forall_cons. destruct (p x); [naive_solver|]. by split; [|intros []].
Qed.

Lemma drop_while_end_nil l :
  drop_while_end p l = [] ↔ Forall (λ x, p x = true) l.
Proof.
  induction l as [|x l IH]; simpl; [by split|]. rewrite list.Forall_cons, <-IH.
  destruct (drop_while_end p l), (p x); naive_solver.
Qed.

Lemma drop_while_end_snoc l x :
  drop_while_end p (l ++ [x]) = if p x then drop_while_end p l else l ++ [x].
Proof.
  induction l as [|y l IH]; simpl; [done|]. rewrite IH.
  destruct (p x); [done|]. by destruct l.
Qed.

Lemma Forall_drop_while (P : A → Prop) l :
  Forall P l → Forall P (drop_while p l).
Proof. induction 1; simpl; [done|]. case_match; [done | by constructor]. Qed.

Lemma Forall_drop_while_end (P : A → Prop) l :
  Forall P l → Forall P (drop_while_end p l).
Proof.
  induction 1 as [|x l Hx Hl IH]; simpl; [done|].
  destruct (drop_while_end p l);
    [destruct (p x); by repeat constructor | by constructor].
Qed.

(** What is left after dropping at the front starts with an element that
    does not satisfy [p]. *)
Lemma drop_while_head l x :
  head (drop_while p l) = Some x → p x = false.
Proof.
  induction l as [|y l IH]; simpl; [done|].
  destruct (p y) eqn:E; [done|]. by intros [= <-].
Qed.

(** Dropping at both ends leaves nothing exactly when every element
    satisfies [p]. *)
Lemma drop_while_both_nil l :
  drop_while_end p (drop_while p l) = [] ↔ Forall (λ x, p x = true) l.
Proof.
  split; [|by intros ->%drop_while_nil].
  intros Hl%drop_while_end_nil. apply drop_while_nil.
  destruct (drop_while p l) as [|x l'] eqn:E; [done|].
  apply list.Forall_cons in Hl as [Hx _].
  pose proof (drop_while_head l x) as Hh. rewrite E in Hh.
  by rewrite Hh in Hx.
Qed.

End drop_while.

(** ** Encoding and decoding are inverse *)

Section chars.
Implicit Types (s r : list Z) (c b : Z) (cs : list Z).

Lemma encode_str_cons c cs : encode_str (c :: cs) = encode_utf8 c ++ encode_str cs.
Proof. done. Qed.

Lemma encode_str_snoc cs c : encode_str (cs ++ [c]) = encode_str cs ++ encode_utf8 c.
Proof.
  unfold encode_str. rewrite bind_app. simpl. by rewrite (right_id_L [] (++)).
Qed.

Lemma encode_str_nil cs : encode_str cs = [] ↔ cs = [].
Proof.
  destruct cs as [|c cs]; [done|]. rewrite encode_str_cons. split; [|done].
  by intros [?%encode_utf8_nonempty _]%app_eq_nil.
Qed.

Lemma utf8_encode_str cs : Forall is_scalar cs → utf8 (encode_str cs).
Proof. induction 1; [constructor | by apply utf8_char]. Qed.

(** A valid string is the encoding of scalar values. *)
Lemma utf8_decode s : utf8 s → ∃ cs, Forall is_scalar cs ∧ s = encode_str cs.
Proof.
  intros [cs Hcs]%from_utf8_complete.
  apply from_utf8_fuel_sound in Hcs as (_ & ? & ?). by exists cs.
Qed.

(** The encoding of a text determines its chars. *)
Lemma encode_str_inj cs cs' :
  Forall is_scalar cs → Forall is_scalar cs' →
  encode_str cs = encode_str cs' → cs = cs'.
Proof.
  intros Hcs. revert cs'.
  induction Hcs as [|c cs Hc Hcs IH]; intros cs' Hcs' E.
  { symmetry. by apply encode_str_nil. }
  destruct Hcs' as [|c' cs' Hc' Hcs']; [by apply (encode_str_nil (c :: cs)) in E|].
  rewrite !encode_str_cons in E. apply (f_equal next_code_point) in E.
  rewrite !next_code_point_encode in E by auto with rust.
  injection E as -> E. f_equal. by apply IH.
Qed.

(** [chars] reads back the chars that [encode_str] wrote. *)
Lemma chars_encode_str cs : Forall is_scalar cs → chars (encode_str cs) = cs.
Proof.
  intros Hcs. unfold chars.
  destruct (from_utf8_complete _ (utf8_encode_str cs Hcs)) as [cs' E].
  rewrite E. apply from_utf8_fuel_sound in E as (_ & ? & ?).
  symmetry. by apply encode_str_inj.
Qed.

Lemma encode_str_chars s : utf8 s → encode_str (chars s) = s.
Proof. intros (cs & ? & ->)%utf8_decode. by rewrite chars_encode_str. Qed.

Lemma chars_scalar s : Forall is_scalar (chars s).
Proof.
  unfold chars. destruct (from_utf8 s) as [cs|] eqn:E; [|constructor].
  by apply from_utf8_fuel_sound in E as (_ & ? & _).
Qed.

Lemma chars_app s r : utf8 s → utf8 r → chars (s ++ r) = chars s ++ chars r.
Proof.
  intros (cs & ? & ->)%utf8_decode (cr & ? & ->)%utf8_decode.
  unfold encode_str. rewrite <-bind_app.
  rewrite !chars_encode_str; [done..|]. by apply Forall_app.
Qed.

Lemma first_char_chars s : utf8 s → first_char s = head (chars s).
Proof.
  intros (cs & Hcs & ->)%utf8_decode. rewrite chars_encode_str by done.
  destruct Hcs; [done|]. by rewrite encode_str_cons, first_char_encode by auto with rust.
Qed.

(** [chars().rev().next()] decodes the last char only; it is the last of
    the chars. *)
Lemma last_char_chars s : utf8 s → last_char s = list.last (chars s).
Proof.
  intros (cs & Hcs & ->)%utf8_decode. rewrite chars_encode_str by done.
  destruct cs as [|c cs _] using rev_ind; [done|].
  apply Forall_app in Hcs as [_ [Hc _]%list.Forall_cons].
  by rewrite encode_str_snoc, last_snoc, last_char_encode by auto with rust.
Qed.

(** [starts_with] compares the first char. *)
Lemma starts_with_encode c b r :
  0 ≤ c ≤ 1114111 → 0 ≤ b ≤ 1114111 →
  starts_with (encode_utf8 c ++ r) b = bool_decide (c = b).
Proof.
  intros. unfold starts_with. apply bool_decide_ext. split.
  - intros [k E]. apply (f_equal next_code_point) in E.
    rewrite !next_code_point_encode in E by done. by injection E.
  - intros ->. by apply prefix_app_r.
Qed.

Lemma starts_with_chars s b :
  utf8 s → 0 ≤ b ≤ 1114111 →
  starts_with s b = bool_decide (head (chars s) = Some b).
Proof.
  intros (cs & Hcs & ->)%utf8_decode ?. rewrite chars_encode_str by done.
  destruct Hcs as [|c cs Hc _].
  - unfold starts_with. apply bool_decide_ext. split; [|done].
    by intros ?%prefix_nil_inv%encode_utf8_nonempty.
  - rewrite encode_str_cons, starts_with_encode by auto with rust.
    apply bool_decide_ext. simpl. naive_solver.
Qed.

End chars.

(** ** Trimming drops the whitespace chars at the ends *)

Section trim.
Implicit Types (s : list Z) (c b : Z) (cs : list Z) (fuel : nat).

Lemma trim_start_encode_str cs :
  Forall is_scalar cs →
  trim_start (encode_str cs) = encode_str (drop_while is_whitespace cs).
Proof.
  induction 1 as [|c cs Hc Hcs IH]; [done|].
  rewrite encode_str_cons, trim_start_encode by auto with rust. simpl.
  by destruct (is_whitespace c).
Qed.

(** The loop of [trim_end] with fuel for every byte: it decodes from the
    back and stops at the last char that is not whitespace. *)
Lemma trim_end_fuel_encode_str fuel cs :
  Forall is_scalar cs → (length (encode_str cs) ≤ fuel)%nat →
  trim_end_fuel fuel (encode_str cs)
  = encode_str (drop_while_end is_whitespace cs).
Proof.
  intros Hcs. revert fuel.
  induction cs as [|c cs IH] using rev_ind; intros fuel Hf; [by destruct fuel|].
  apply Forall_app in Hcs as [Hcs [Hc _]%list.Forall_cons].
  rewrite encode_str_snoc, length_app in *.
  pose proof (len_utf8_bounds c). pose proof (zlen_encode_utf8 c).
  destruct fuel as [|fuel]; [unfold zlen in *; lia|]. cbn [trim_end_fuel].
  rewrite next_code_point_reverse_encode, drop_while_end_snoc by auto with rust.
  destruct (is_whitespace c); [|by rewrite encode_str_snoc].
  apply IH; [done | unfold zlen in *; lia].
Qed.

Lemma trim_end_encode_str cs :
  Forall is_scalar cs →
  trim_end (encode_str cs) = encode_str (drop_while_end is_whitespace cs).
Proof. intros. by apply trim_end_fuel_encode_str. Qed.

(** More fuel than bytes changes nothing. *)
Lemma trim_end_fuel_enough fuel s :
  utf8 s → (length s ≤ fuel)%nat → trim_end_fuel fuel s = trim_end s.
Proof.
  intros (cs & ? & ->)%utf8_decode ?.
  by rewrite trim_end_encode_str, trim_end_fuel_encode_str.
Qed.

Lemma trim_start_chars s :
  utf8 s → trim_start s = encode_str (drop_while is_whitespace (chars s)).
Proof.
  intros (cs & ? & ->)%utf8_decode.
  by rewrite chars_encode_str, trim_start_encode_str.
Qed.

Lemma trim_end_chars s :
  utf8 s → trim_end s = encode_str (drop_while_end is_whitespace (chars s)).
Proof.
  intros (cs & ? & ->)%utf8_decode.
  by rewrite chars_encode_str, trim_end_encode_str.
Qed.

Lemma trim_encode_str cs :
  Forall is_scalar cs →
  trim (encode_str cs)
  = encode_str (drop_while_end is_whitespace (drop_while is_whitespace cs)).
Proof.
  intros. unfold trim. rewrite trim_start_encode_str by done.
  by apply trim_end_encode_str, Forall_drop_while.
Qed.

(** C33 [trim] computes the text without the whitespace chars at its two
    ends: the two loops over the bytes, one decoding forwards and one
    decoding backwards, agree with dropping chars from the decoded text. *)
Theorem trim_chars s :
  utf8 s →
  trim s = encode_str (drop_while_end is_whitespace
                         (drop_while is_whitespace (chars s))).
Proof.
  intros (cs & ? & ->)%utf8_decode.
  by rewrite chars_encode_str, trim_encode_str.
Qed.

Lemma utf8_trim_start s : utf8 s → utf8 (trim_start s).
Proof.
  intros Hs. rewrite (trim_start_chars s Hs).
  apply utf8_encode_str, Forall_drop_while, chars_scalar.
Qed.

Lemma utf8_trim s : utf8 s → utf8 (trim s).
Proof.
  intros (cs & ? & ->)%utf8_decode. rewrite trim_encode_str by done.
  by apply utf8_encode_str, Forall_drop_while_end, Forall_drop_while.
Qed.

(** [line.trim().is_empty()]: every char of the line is whitespace. *)
Lemma trim_is_empty s :
  utf8 s →
  is_empty (trim s) = true ↔ Forall (λ c, is_whitespace c = true) (chars s).
Proof.
  intros (cs & ? & ->)%utf8_decode.
  rewrite is_empty_true, chars_encode_str, trim_encode_str by done.
  by rewrite encode_str_nil, drop_while_both_nil.
Qed.

(** [line.trim_start().starts_with(b)]: the first char of the line that is
    not whitespace is [b]. *)
Lemma trim_start_starts_with s b :
  utf8 s → 0 ≤ b ≤ 1114111 →
  starts_with (trim_start s) b
  = bool_decide (head (drop_while is_whitespace (chars s)) = Some b).
Proof.
  intros Hs Hb. rewrite starts_with_chars by auto using utf8_trim_start.
  rewrite (trim_start_chars s Hs), chars_encode_str; [done|].
  apply Forall_drop_while, chars_scalar.
Qed.

End trim.

Lemma trim_chars_witness :
  let s := [32; 9] ++ bytes "a b" ++ [CR; 32] in
  utf8 s ∧ trim s = bytes "a b".
Proof. split; [by_compute | rewrite trim_chars by by_compute; by vm_compute]. Defined.
