(* ===== verification/Iterator.v ===== *)
(** * Iterators and [collect]

    [Requirements::from_str] is written against the [Iterator] trait: it
    maps a closure over the iterator and collects the results into a
    [Result<Vec<_>, _>], which stops at the first error.  This file holds
    the trait as a class, what a consumer may rely on as a second class
    ([IteratorLaws]), the adaptor chain [map] then [collect] as
    [try_collect], and its theorems, proved for every iterator that
    satisfies the laws. *)

From Stdlib Require Import ZArith Lia.
From stdpp Require Import base tactics option list numbers.
From S2P Require Import Prelude.

(** [Result<T, E>]. *)
Inductive Result (T E : Type) : Type :=
| Ok (v : T)
| Err (e : E).

Arguments Ok {T E} v.
Arguments Err {T E} e.

(** [trait Iterator]: [next] returns the item and the new state. *)
Class Iterator (I Item : Type) : Type := {
  iter_next : I → outcome (option Item * I);
}.

(** What a consumer relies on: an invariant of the states, under which
    [next] returns or panics, and a size that every item returned makes
    smaller. *)
Class IteratorLaws (I Item : Type) `{Iterator I Item} : Type := {
  iter_inv : I → Prop;
  iter_size : I → nat;
  iter_next_total i : iter_inv i → iter_next i ≠ OutOfFuel;
  iter_next_Some i item i' :
    iter_inv i → iter_next i = Done (Some item, i') →
    iter_inv i' ∧ (iter_size i' < iter_size i)%nat;
}.

Section collect.
Context {I Item T E : Type} `{Iterator I Item}.
Context (f : Item → outcome (Result T E)).

(** [iter.map(f).collect::<Result<Vec<T>, E>>()]: pulls items from the
    iterator, applies [f] to each, and stops at the end of the iterator or
    at the first error.  [acc] holds the values collected so far. *)
Fixpoint try_collect (fuel : nat) (iter : I) (acc : list T)
    : outcome (Result (list T) E) :=
  match fuel with
  | O => OutOfFuel
  | S fuel =>
    '(item, iter) ← iter_next iter;
    match item with
    | None => Done (Ok acc)
    | Some item =>
      r ← f item;
      match r with
      | Ok v => try_collect fuel iter (acc ++ [v])
      | Err e => Done (Err e)
      end
    end
  end.

(** The items the iterator yields until it returns [None]. *)
Fixpoint drain (fuel : nat) (iter : I) : outcome (list Item) :=
  match fuel with
  | O => OutOfFuel
  | S fuel =>
    '(item, iter) ← iter_next iter;
    match item with
    | None => Done []
    | Some item => cons item <$> drain fuel iter
    end
  end.

(** The results of [f] on a list of items, as [try_collect] combines them:
    the values in order after [acc], or the first error; a panic of [f]
    before the first error is a panic of the whole. *)
Fixpoint try_all (items : list Item) (acc : list T)
    : outcome (Result (list T) E) :=
  match items with
  | [] => Done (Ok acc)
  | item :: items =>
    r ← f item;
    match r with
    | Ok v => try_all items (acc ++ [v])
    | Err e => Done (Err e)
    end
  end.

(** [Iterator::nth]: the result of the call of [next] that follows [n]
    calls that returned an item, and [None] as soon as one of these calls
    returns [None]. *)
Fixpoint iter_nth (n : nat) (iter : I) : outcome (option Item * I) :=
  match n with
  | O => iter_next iter
  | S n =>
    '(item, iter) ← iter_next iter;
    match item with
    | None => Done (None, iter)
    | Some _ => iter_nth n iter
    end
  end.

Implicit Types (iter : I) (acc : list T) (fuel : nat).

(** [try_collect] applies [f] to the items the iterator yields, in
    order. *)
Lemma try_collect_drain fuel iter acc items :
  drain fuel iter = Done items →
  try_collect fuel iter acc = try_all items acc.
Proof.
  revert iter acc items.
  induction fuel as [|fuel IH]; intros iter acc items Hd; [done|].
  cbn [try_collect drain] in *.
  destruct (iter_next iter) as [[[item|] iter']| |]; simpl in *; try done.
  2:{ by simplify_eq. }
  apply fmap_Done in Hd as (items' & Hd & ->). simpl.
  destruct (f item) as [[v|e]| |]; simpl; try done. by apply IH.
Qed.

(** An error [try_collect] returns is an error [f] returned. *)
Lemma try_collect_Err fuel iter acc e :
  try_collect fuel iter acc = Done (Err e) → ∃ item, f item = Done (Err e).
Proof.
  revert iter acc. induction fuel as [|fuel IH]; intros iter acc Hc; [done|].
  cbn [try_collect] in Hc.
  destruct (iter_next iter) as [[[item|] iter']| |]; simpl in *; try done.
  destruct (f item) as [[v|e']| |] eqn:Ef; simpl in *; try done; [eauto|].
  simplify_eq. eauto.
Qed.

(** The values [try_collect] returns come after those it started with. *)
Lemma try_collect_Ok fuel iter acc vs :
  try_collect fuel iter acc = Done (Ok vs) → acc `prefix_of` vs.
Proof.
  revert iter acc. induction fuel as [|fuel IH]; intros iter acc Hc; [done|].
  cbn [try_collect] in Hc.
  destruct (iter_next iter) as [[[item|] iter']| |]; simpl in *; try done.
  2:{ by simplify_eq. }
  destruct (f item) as [[v|e']| |]; simpl in *; try done.
  apply IH in Hc. etrans; [|done]. by apply prefix_app_r.
Qed.

(** The call of [next] number [n] returns the item number [n] of those
    the iterator yields, and [None] after the last of them. *)
Lemma iter_nth_drain fuel iter items n :
  drain fuel iter = Done items → fst <$> iter_nth n iter = Done (items !! n).
Proof.
  revert iter items n.
  induction fuel as [|fuel IH]; intros iter items n Hd; [done|].
  cbn [drain] in Hd.
  destruct (iter_next iter) as [[[item|] iter']| |] eqn:En; simpl in *; try done.
  - apply fmap_Done in Hd as (items' & Hd & ->).
    destruct n as [|n]; simpl; rewrite En; simpl; [done|]. by apply IH.
  - simplify_eq. destruct n; simpl; by rewrite En.
Qed.

Section laws.
Context `{!IteratorLaws I Item}.

(** Every iterator that keeps the laws comes to an end: one of its first
    [iter_size + 1] calls of [next] returns [None] or panics. *)
Lemma iter_nth_ends iter :
  iter_inv iter →
  ∃ n, (n ≤ iter_size iter)%nat
       ∧ ((∃ iter', iter_nth n iter = Done (None, iter'))
          ∨ ∃ p, iter_nth n iter = Panicked p).
Proof.
  remember (iter_size iter) as size eqn:Hs. revert iter Hs.
  induction (lt_wf size) as [size _ IH]. intros iter -> Hi.
  destruct (iter_next iter) as [[[item|] iter']|p|] eqn:En.
  - destruct (iter_next_Some _ _ _ Hi En) as [Hi' ?].
    destruct (IH _ ltac:(done) iter' eq_refl Hi') as (n & ? & Hn).
    exists (S n). split; [lia|]. simpl. by rewrite En.
  - exists O. split; [lia|]. left. by exists iter'.
  - exists O. split; [lia|]. right. by exists p.
  - by apply iter_next_total in En.
Qed.

(** [try_collect] ends on every iterator that keeps the laws, when [f]
    does: the fuel is not exhausted when there is more of it than the size
    of the iterator. *)
Lemma try_collect_terminates fuel iter acc :
  (∀ item, f item ≠ OutOfFuel) →
  iter_inv iter → (iter_size iter < fuel)%nat →
  try_collect fuel iter acc ≠ OutOfFuel.
Proof.
  intros Hf. revert iter acc.
  induction fuel as [|fuel IH]; intros iter acc Hi ?; [lia|].
  cbn [try_collect].
  apply bind_not_OutOfFuel; [by apply iter_next_total|].
  intros [[item|] iter'] Hn; [|done].
  apply iter_next_Some in Hn as [? ?]; [|done].
  apply bind_not_OutOfFuel; [done|]. intros [v|e] _; [|done].
  apply IH; [done | lia].
Qed.

Lemma drain_terminates fuel iter :
  iter_inv iter → (iter_size iter < fuel)%nat → drain fuel iter ≠ OutOfFuel.
Proof.
  revert iter. induction fuel as [|fuel IH]; intros iter Hi ?; [lia|].
  cbn [drain]. apply bind_not_OutOfFuel; [by apply iter_next_total|].
  intros [[item|] iter'] Hn; [|done].
  apply iter_next_Some in Hn as [? ?]; [|done].
  specialize (IH iter' ltac:(done) ltac:(lia)).
  by destruct (drain fuel iter').
Qed.

End laws.

End collect.

(** ** The adaptor and the consumer of [from_str], one by one *)

(** [Map<I, F>], the iterator [Iterator::map] returns: the iterator it
    wraps and the closure. *)
Record Map (I A B : Type) : Type := {
  map_iter : I;
  map_f : A → outcome B;
}.

Arguments map_iter {I A B} m.
Arguments map_f {I A B} m.

(** [Iterator for Map<I, F>]: [self.iter.next().map(&mut self.f)]. *)
#[global] Instance map_iterator {I A B : Type} `{Iterator I A}
    : Iterator (Map I A B) B := {|
  iter_next m :=
    '(item, iter) ← iter_next (map_iter m);
    let m := {| map_iter := iter; map_f := map_f m |} in
    match item with
    | None => Done (None, m)
    | Some a => b ← map_f m a; Done (Some b, m)
    end
|}.

Section collect_result.
Context {J T E : Type} `{Iterator J (Result T E)}.

(** [collect::<Result<Vec<T>, E>>()]: takes values from an iterator of
    results up to its end or its first error, which it returns. *)
Fixpoint collect_result (fuel : nat) (iter : J) (acc : list T)
    : outcome (Result (list T) E) :=
  match fuel with
  | O => OutOfFuel
  | S fuel =>
    '(item, iter) ← iter_next iter;
    match item with
    | None => Done (Ok acc)
    | Some (Ok v) => collect_result fuel iter (acc ++ [v])
    | Some (Err e) => Done (Err e)
    end
  end.

End collect_result.

(** [try_collect] is the consumer on the adaptor: [iter.map(f).collect()]. *)
Lemma try_collect_map {I Item T E : Type} `{Iterator I Item}
    (f : Item → outcome (Result T E)) fuel (iter : I) acc :
  try_collect f fuel iter acc
  = collect_result fuel {| map_iter := iter; map_f := f |} acc.
Proof.
  revert iter acc. induction fuel as [|fuel IH]; intros iter acc; [done|].
  cbn [try_collect collect_result iter_next map_iterator map_iter map_f].
  destruct (iter_next iter) as [[[item|] iter']| |]; simpl; try done.
  destruct (f item) as [[v|e]| |]; simpl; [apply IH | done..].
Qed.

(** The adaptor keeps the laws of the iterator it wraps, when the closure
    returns or panics. *)
#[global] Instance map_iterator_laws {I A B : Type} `{IteratorLaws I A} :
  IteratorLaws (Map I A B) B | 10.
Proof.
  refine {| iter_inv m := iter_inv (map_iter m) ∧ ∀ a, map_f m a ≠ OutOfFuel;
            iter_size m := iter_size (map_iter m) |}.
  - intros m [Hi Hf]. simpl. apply bind_not_OutOfFuel; [by apply iter_next_total|].
    intros [[a|] iter] _; [|done]. apply bind_not_OutOfFuel; [apply Hf | done].
  - intros m b m' [Hi Hf] Hn. simpl in Hn.
    apply bind_Done in Hn as ([[a|] iter] & Hn & Hb); [|done].
    apply bind_Done in Hb as (b' & _ & [= <- <-]). simpl.
    apply iter_next_Some in Hn as [? ?]; done.
Defined.
