(* ===== verification/Runs.v ===== *)
(** * Iterators as transition systems

    A client of an iterator sees a machine: a state, and one transition,
    the call of [next], labelled with what the call returns.  This file
    gives that reading of the [Iterator] trait for every iterator, and
    proves by induction on the runs

    - [step], [run], [reachable]: runs are deterministic and compose, an
      invariant of the steps holds in every reachable state, the runs
      that end with the first [None] are the runs of [drain], and an
      iterator that keeps the laws yields no more items than its size;
    - [simulation]: when the states of two iterators are related so that
      [next] returns the same on related states and leads to related
      states, the two have the same runs, and [drain] and [try_collect]
      return the same on them;
    - [collects]: the loop of [collect] as derivations with the events of
      the loop; the loop with fuel returns what the derivations give
      ([try_collect_iff]), every item is mapped before the next is
      pulled, and nothing is pulled after the first error
      ([collects_events]). *)

From Stdlib Require Import ZArith Lia.
From stdpp Require Import base tactics option list numbers strings.
From S2P Require Import Prelude Iterator.

#[local] Open Scope Z_scope.

(** ** Runs of an iterator *)

Section runs.
Context {I Item : Type} `{Iterator I Item}.
Implicit Types (iter : I) (r : option Item) (rs : list (option Item))
  (items : list Item).

(** One call of [next] that returns: the state before the call, what the
    call returns, the state after it. *)
Inductive step : I → option Item → I → Prop :=
| step_next iter r iter' : iter_next iter = Done (r, iter') → step iter r iter'.

(** Calls of [next] one after the other, with what they return. *)
Inductive run : I → list (option Item) → I → Prop :=
| run_nil iter : run iter [] iter
| run_cons iter r iter' rs iter'' :
    step iter r iter' → run iter' rs iter'' → run iter (r :: rs) iter''.

(** The states the calls of [next] lead to. *)
Definition reachable (iter0 iter : I) : Prop := ∃ rs, run iter0 rs iter.

Lemma step_inv iter r iter' :
  step iter r iter' ↔ iter_next iter = Done (r, iter').
Proof. split; [by intros [] | by constructor]. Qed.

Lemma step_deterministic iter r1 iter1 r2 iter2 :
  step iter r1 iter1 → step iter r2 iter2 → r1 = r2 ∧ iter1 = iter2.
Proof.
  intros [? ? ? E1] Hs. inversion Hs as [? ? ? E2]. rewrite E1 in E2.
  by simplify_eq.
Qed.

(** As many calls from the same state return the same and lead to the
    same state. *)
Lemma run_deterministic iter rs1 iter1 rs2 iter2 :
  run iter rs1 iter1 → run iter rs2 iter2 → length rs1 = length rs2 →
  rs1 = rs2 ∧ iter1 = iter2.
Proof.
  intros Hr. revert rs2. induction Hr as [|iter r iter' rs iter'' Hs _ IH];
    intros rs2 Hr2 Hl; inversion Hr2 as [|? r2 ? ? ? Hs2 Hr2']; simplify_eq/=;
    [done|].
  destruct (step_deterministic _ _ _ _ _ Hs Hs2) as [-> ->].
  destruct (IH _ Hr2') as [-> ->]; [lia | done].
Qed.

Lemma run_app iter rs iter' rs' iter'' :
  run iter rs iter' → run iter' rs' iter'' → run iter (rs ++ rs') iter''.
Proof. induction 1; simpl; eauto using run. Qed.

Lemma run_app_inv iter rs rs' iter'' :
  run iter (rs ++ rs') iter'' →
  ∃ iter', run iter rs iter' ∧ run iter' rs' iter''.
Proof.
  revert iter. induction rs as [|r rs IH]; intros iter Hr; simpl in *.
  { eauto using run. }
  inversion Hr as [|? ? iter1 ? ? Hs Hr']; simplify_eq.
  destruct (IH _ Hr') as (iter' & ? & ?). eauto using run.
Qed.

#[export] Instance reachable_preorder : PreOrder reachable.
Proof.
  split.
  - intros iter. exists []. constructor.
  - intros iter1 iter2 iter3 [rs1 ?] [rs2 ?]. exists (rs1 ++ rs2).
    by eapply run_app.
Qed.

(** What the steps keep holds after every run. *)
Lemma run_invariant (P : I → Prop) iter rs iter' :
  (∀ iter r iter', P iter → step iter r iter' → P iter') →
  P iter → run iter rs iter' → P iter'.
Proof. intros HP Hi Hr. induction Hr; eauto. Qed.

(** A state in which [next] returns [None] and stays: every later call
    does the same. *)
Lemma run_fused iter rs iter' :
  iter_next iter = Done (None, iter) → run iter rs iter' →
  iter' = iter ∧ rs = replicate (length rs) None.
Proof.
  intros Hn Hr. induction Hr as [|iter r iter' rs iter'' [? ? ? Hs] _ IH];
    [done|].
  rewrite Hn in Hs. simplify_eq. destruct (IH Hn) as [-> E].
  split; [done|]. simpl. by rewrite <-E.
Qed.

(** The runs of [drain]: the items, then the first [None]. *)
Lemma run_drain fuel iter items :
  drain fuel iter = Done items →
  ∃ iter', run iter ((Some <$> items) ++ [None]) iter'.
Proof.
  revert iter items.
  induction fuel as [|fuel IH]; intros iter items Hd; [done|].
  cbn [drain] in Hd.
  destruct (iter_next iter) as [[[item|] iter']| |] eqn:En; simpl in *; try done.
  - apply fmap_Done in Hd as (items' & Hd & ->).
    destruct (IH _ _ Hd) as (iter'' & Hr). exists iter''.
    rewrite fmap_cons. simpl. eauto using run, step.
  - simplify_eq. exists iter'. simpl. eauto using run, step.
Qed.

Lemma drain_run fuel iter items iter' :
  run iter ((Some <$> items) ++ [None]) iter' → (length items < fuel)%nat →
  drain fuel iter = Done items.
Proof.
  revert fuel iter. induction items as [|item items IH]; intros [|fuel] iter Hr ?;
    inversion Hr as [|? ? ? ? ? [? ? ? Hs] Hr']; simplify_eq/=; try lia;
    rewrite Hs, bind_Done_l; [done|].
  rewrite (IH fuel _ Hr') by lia. done.
Qed.

(** The call after [n] calls that returned an item is [iter_nth n]. *)
Lemma iter_nth_run iter items r iter' :
  run iter ((Some <$> items) ++ [r]) iter' →
  iter_nth (length items) iter = Done (r, iter').
Proof.
  revert iter. induction items as [|item items IH]; intros iter Hr;
    inversion Hr as [|? ? ? ? ? [? ? ? Hs] Hr']; simplify_eq;
    cbn [iter_nth length]; rewrite Hs; simpl; [|by apply IH].
  by inversion Hr'.
Qed.

Section laws.
Context `{!IteratorLaws I Item}.

(** An iterator that keeps the laws yields at most [iter_size] items. *)
Lemma run_items_bounded iter items iter' :
  iter_inv iter → run iter (Some <$> items) iter' →
  iter_inv iter' ∧ (length items + iter_size iter' ≤ iter_size iter)%nat.
Proof.
  revert iter. induction items as [|item items IH]; intros iter Hi Hr;
    inversion Hr as [|? ? ? ? ? [? ? ? Hs] Hr']; simplify_eq;
    [split; [done | simpl; lia]|].
  destruct (iter_next_Some _ _ _ Hi Hs) as [Hi' ?].
  destruct (IH _ Hi' Hr') as [? ?]. split; [done | simpl; lia].
Qed.

End laws.

End runs.

Arguments step {I Item _} iter r iter'.
Arguments run {I Item _} iter rs iter'.
Arguments reachable {I Item _} iter0 iter.

(** ** Simulations between iterators *)

Section simulation.
Context {I J Item : Type} {HI : Iterator I Item} {HJ : Iterator J Item}.
Context (R : I → J → Prop).
Implicit Types (i : I) (j : J) (r : option Item) (rs : list (option Item)).

(** [R] relates the states of an iterator to those of another, which
    specifies it: from related states [next] returns the same on both
    sides and leads to related states, or panics on both sides. *)
Definition simulation : Prop :=
  ∀ i j, R i j →
    match iter_next j with
    | Done (r, j') => ∃ i', iter_next i = Done (r, i') ∧ R i' j'
    | Panicked p => iter_next i = Panicked p
    | OutOfFuel => False
    end.

Context (HR : simulation).

Lemma simulation_step i j r i' :
  R i j → step i r i' → ∃ j', step j r j' ∧ R i' j'.
Proof.
  intros Hij Hs%step_inv. specialize (HR i j Hij).
  destruct (iter_next j) as [[r2 j']|p|] eqn:Ej; [|congruence|done].
  destruct HR as (i2 & E & ?). rewrite Hs in E. simplify_eq.
  exists j'. by split; [constructor|].
Qed.

Lemma simulation_step_inv i j r j' :
  R i j → step j r j' → ∃ i', step i r i' ∧ R i' j'.
Proof.
  intros Hij Hs%step_inv. specialize (HR i j Hij). rewrite Hs in HR.
  destruct HR as (i' & ? & ?). exists i'. by split; [constructor|].
Qed.

(** Related states have the same runs. *)
Lemma simulation_run i j rs i' :
  R i j → run i rs i' → ∃ j', run j rs j' ∧ R i' j'.
Proof.
  intros Hij Hr. revert j Hij.
  induction Hr as [|i r i1 rs i2 Hs _ IH]; intros j Hij; [eauto using run|].
  destruct (simulation_step _ _ _ _ Hij Hs) as (j1 & ? & Hij1).
  destruct (IH _ Hij1) as (j2 & ? & ?). eauto using run.
Qed.

Lemma simulation_run_inv i j rs j' :
  R i j → run j rs j' → ∃ i', run i rs i' ∧ R i' j'.
Proof.
  intros Hij Hr. revert i Hij.
  induction Hr as [|j r j1 rs j2 Hs _ IH]; intros i Hij; [eauto using run|].
  destruct (simulation_step_inv _ _ _ _ Hij Hs) as (i1 & ? & Hij1).
  destruct (IH _ Hij1) as (i2 & ? & ?). eauto using run.
Qed.

(** The consumers return the same on related states. *)
Lemma simulation_drain fuel i j : R i j → drain fuel i = drain fuel j.
Proof.
  revert i j. induction fuel as [|fuel IH]; intros i j Hij; [done|].
  cbn [drain]. specialize (HR i j Hij).
  destruct (iter_next j) as [[[item|] j']|p|]; [| |by rewrite HR|done];
    destruct HR as (i' & -> & Hij'); simpl; [|done].
  by rewrite (IH _ _ Hij').
Qed.

Lemma simulation_try_collect {T E} (f : Item → outcome (Result T E)) fuel i j acc :
  R i j → try_collect f fuel i acc = try_collect f fuel j acc.
Proof.
  revert i j acc. induction fuel as [|fuel IH]; intros i j acc Hij; [done|].
  cbn [try_collect]. specialize (HR i j Hij).
  destruct (iter_next j) as [[[item|] j']|p|]; [| |by rewrite HR|done];
    destruct HR as (i' & -> & Hij'); simpl; [|done].
  destruct (f item) as [[v|e]| |]; simpl; [by apply IH | done..].
Qed.

Lemma simulation_iter_nth n i j :
  R i j → fst <$> iter_nth n i = fst <$> iter_nth n j.
Proof.
  revert i j. induction n as [|n IH]; intros i j Hij; cbn [iter_nth];
    specialize (HR i j Hij);
    (destruct (iter_next j) as [[[item|] j']|p|]; [| |by rewrite HR|done]);
    destruct HR as (i' & -> & Hij'); simpl; try done.
  by apply IH.
Qed.

End simulation.

(** ** The loop of [collect] as a derivation *)

Section collector.
Context {I Item T E : Type} `{Iterator I Item}.
Context (f : Item → outcome (Result T E)).
Implicit Types (iter : I) (acc : list T) (res : Result (list T) E).

(** What the loop does, in order: it pulls an item from the iterator, or
    gives the item pulled to the closure. *)
Inductive event : Type :=
| Pulled (item : option Item)
| Mapped (item : Item) (r : Result T E).

(** [.map(f).collect::<Result<Vec<_>, _>>()] from a state of the
    iterator, after the values [acc]: the events of the loop and what it
    returns.  The loop ends with the [None] of the iterator or with the
    first error of the closure, and pulls no item after it. *)
Inductive collects : I → list T → list event → Result (list T) E → Prop :=
| collects_end iter iter' acc :
    step iter None iter' →
    collects iter acc [Pulled None] (Ok acc)
| collects_err iter item iter' acc e :
    step iter (Some item) iter' → f item = Done (Err e) →
    collects iter acc [Pulled (Some item); Mapped item (Err e)] (Err e)
| collects_ok iter item iter' acc v evs res :
    step iter (Some item) iter' → f item = Done (Ok v) →
    collects iter' (acc ++ [v]) evs res →
    collects iter acc (Pulled (Some item) :: Mapped item (Ok v) :: evs) res.

(** The items pulled, in order. *)
Definition pulls (evs : list event) : list (option Item) :=
  omap (λ ev, match ev with Pulled item => Some item | Mapped _ _ => None end) evs.

(** The events of an item that is pulled and mapped to a value. *)
Definition round (p : Item * T) : list event :=
  [Pulled (Some p.1); Mapped p.1 (Ok p.2)].

(** The loop with fuel returns what a derivation gives. *)
Lemma try_collect_collects fuel iter acc res :
  try_collect f fuel iter acc = Done res → ∃ evs, collects iter acc evs res.
Proof.
  revert iter acc. induction fuel as [|fuel IH]; intros iter acc Hc; [done|].
  cbn [try_collect] in Hc.
  destruct (iter_next iter) as [[[item|] iter']| |] eqn:En; simpl in Hc; try done.
  2:{ simplify_eq. eauto using collects, step. }
  destruct (f item) as [[v|e]| |] eqn:Ef; simpl in Hc; try done.
  - destruct (IH _ _ Hc) as [evs ?]. eauto using collects, step.
  - simplify_eq. eauto using collects, step.
Qed.

(** A derivation gives the result of the loop with fuel for every item
    it pulls. *)
Lemma collects_try_collect fuel iter acc evs res :
  collects iter acc evs res → (length (pulls evs) ≤ fuel)%nat →
  try_collect f fuel iter acc = Done res.
Proof.
  intros Hc. revert fuel.
  induction Hc as [? ? ? Hs|? ? ? ? ? Hs Hf|? ? ? ? ? ? ? Hs Hf _ IH];
    apply step_inv in Hs; intros [|fuel] Hl; simpl in Hl; try lia;
    cbn [try_collect]; rewrite Hs, bind_Done_l; [done|..];
    rewrite Hf, bind_Done_l; [done|]. apply IH. lia.
Qed.

(** The items the loop pulls are a run of the iterator, and every item
    pulled but the last was mapped to a value. *)
Lemma collects_run iter acc evs res :
  collects iter acc evs res → ∃ iter', run iter (pulls evs) iter'.
Proof.
  induction 1 as [| |? ? ? ? ? ? ? ? ? ? [iter'' ?]]; simpl;
    eauto using run.
Qed.

(** The shape of the events: every item pulled is mapped before the next
    one is pulled; the loop ends with the [None] of the iterator, after
    values only, or with the first error, and pulls nothing after it. *)
Lemma collects_events iter acc evs res :
  collects iter acc evs res →
  ∃ ps, Forall (λ p, f p.1 = Done (Ok p.2)) ps ∧
    match res with
    | Ok vs => evs = (ps ≫= round) ++ [Pulled None] ∧ vs = acc ++ ps.*2
    | Err e => ∃ item, evs = (ps ≫= round) ++ [Pulled (Some item); Mapped item (Err e)]
               ∧ f item = Done (Err e)
    end.
Proof.
  induction 1 as [| |iter item iter' acc v evs res _ Hf _ (ps & Hps & IH)].
  - exists []. split_and!; [done..|]. simpl. by rewrite (right_id_L [] (++)).
  - exists []. eauto.
  - exists ((item, v) :: ps). split; [by constructor|].
    destruct res as [vs|e]; simpl.
    + destruct IH as [-> ->]. by rewrite <-(assoc_L (++)).
    + destruct IH as (item' & -> & ?). eauto.
Qed.

Lemma pulls_rounds (ps : list (Item * T)) evs :
  pulls ((ps ≫= round) ++ evs) = (Some <$> ps.*1) ++ pulls evs.
Proof.
  unfold pulls. rewrite omap_app. f_equal.
  induction ps as [|p ps IH]; [done|]. cbn. by rewrite IH.
Qed.

(** The calls of [next] the loop makes: one for every value it collects,
    and one more, which returns [None] or the item the closure rejects. *)
Lemma collects_pulls iter acc evs res :
  collects iter acc evs res →
  ∃ ps, Forall (λ p, f p.1 = Done (Ok p.2)) ps ∧
    match res with
    | Ok vs => pulls evs = (Some <$> ps.*1) ++ [None] ∧ vs = acc ++ ps.*2
    | Err e => ∃ item, pulls evs = (Some <$> ps.*1) ++ [Some item]
                       ∧ f item = Done (Err e)
    end.
Proof.
  intros (ps & Hps & Hr)%collects_events. exists ps. split; [done|].
  destruct res as [vs|e].
  - destruct Hr as [-> ->]. by rewrite pulls_rounds.
  - destruct Hr as (item & -> & ?). exists item. by rewrite pulls_rounds.
Qed.

Section laws.
Context `{!IteratorLaws I Item}.

Lemma collects_pulls_bounded iter acc evs res :
  iter_inv iter → collects iter acc evs res →
  (length (pulls evs) ≤ S (iter_size iter))%nat.
Proof.
  intros Hi Hc. induction Hc as [| |? ? ? ? ? ? ? Hs%step_inv _ _ IH];
    simpl; try lia.
  apply iter_next_Some in Hs as [Hi' ?]; [|done]. specialize (IH Hi'). lia.
Qed.

(** The loop with fuel and the derivations agree, on every iterator that
    keeps the laws, with fuel above its size. *)
Lemma try_collect_iff fuel iter acc res :
  iter_inv iter → (iter_size iter < fuel)%nat →
  try_collect f fuel iter acc = Done res ↔ ∃ evs, collects iter acc evs res.
Proof.
  intros Hi Hf. split; [apply try_collect_collects|]. intros [evs Hc].
  eapply collects_try_collect; [done|].
  pose proof (collects_pulls_bounded _ _ _ _ Hi Hc). lia.
Qed.

End laws.

End collector.

