(* ===== verification/Trivia.v ===== *)
(** * The trivia stripper: [RequirementLine]

    [RequirementLine::strip_trivia] computes the length of the requirement
    at the start of a logical line: the line without a comment (a [#] after
    whitespace) and without [--hash] extras.  [from_line] stores it beside
    the line and [as_str] slices the line with it.  The model follows
    [lib.rs] lines 44 to 92 statement by statement; the theorems give the
    result of [strip_trivia] on every line. *)

From Stdlib Require Import ZArith Lia.
From stdpp Require Import base tactics option list numbers strings.
From S2P Require Import Prelude Utf8 RustStr.

#[local] Open Scope Z_scope.

(** [Cow<'a, str>]: a slice borrowed from the text, or an owned string. *)
Inductive Cow : Type :=
| Borrowed (s : list Z)
| Owned (s : list Z).

(** [Deref for Cow]: the string behind either constructor. *)
Definition Cow_deref (c : Cow) : list Z :=
  match c with
  | Borrowed s => s
  | Owned s => s
  end.

#[export] Instance Cow_eq_dec : EqDecision Cow.
Proof. solve_decision. Defined.

(** The literal ["--hash"]. *)
Definition HASH_EXTRAS : list Z := [45; 45; 104; 97; 115; 104].

Module RequirementLine.

(** [struct RequirementLine]: the line as included in the file, and the
    length of the line with comments and [--hash] extras stripped. *)
Record t : Type := { line : Cow; len : Z }.

#[export] Instance t_eq_dec : EqDecision t.
Proof. solve_decision. Defined.

Section with_profile.
Context `{BuildProfile}.

(** The [for position in memchr_iter(b'#', ...)] loop of [strip_trivia],
    over the positions still to visit: the result is the new [len].  [len]
    is the length the loop started with: it is assigned only on the way
    out. *)
Fixpoint strip_comments (requirement : list Z) (len : Z) (positions : list Z)
    : outcome Z :=
  match positions with
  | [] => Done len
  | position :: positions =>
    end_ ← len +! position;
    before ← str_slice_to requirement end_;
    if is_some_and (last_char before) is_whitespace then Done position
    else strip_comments requirement len positions
  end.

(** [RequirementLine::strip_trivia]. *)
Definition strip_trivia (requirement : list Z) : outcome Z :=
  let len := zlen requirement in
  haystack ← str_slice_to requirement len;
  len ← strip_comments requirement len (memchr_iter HASH haystack);
  haystack ← str_slice_to requirement len;
  Done (match str_find haystack HASH_EXTRAS with
        | Some index => index
        | None => len
        end).

(** [RequirementLine::from_line]. *)
Definition from_line (line : Cow) : outcome t :=
  len ← strip_trivia (Cow_deref line);
  Done {| line := line; len := len |}.

(** [RequirementLine::as_str]. *)
Definition as_str (self : t) : outcome (list Z) :=
  str_slice_to (Cow_deref (line self)) (len self).

End with_profile.

(** The invariant of the type: the line is a [str] and [len] is an offset
    of it at which a char starts, which is what [as_str] needs to return. *)
Definition valid (self : t) : Prop :=
  utf8 (Cow_deref (line self))
  ∧ is_char_boundary (Cow_deref (line self)) (len self) = true.

#[export] Instance valid_dec self : Decision (valid self).
Proof. unfold valid. apply _. Defined.

(** The [--hash] step of [strip_trivia] on the first [len] bytes of the
    line: the offset of the first ["--hash"] there, or [len]. *)
Definition without_hash_extras (s : list Z) (len : Z) : Z :=
  default len (str_find (ztake len s) HASH_EXTRAS).

(** What [strip_trivia] returns, by the offsets of [#] in the line. *)
Definition strip_trivia_result (s : list Z) : outcome Z :=
  match memchr_iter HASH s with
  | [] => Done (without_hash_extras s (zlen s))
  | p :: ps =>
    if decide (p = 0) then
      if is_some_and (last_char s) is_whitespace then Done 0
      else match ps with
           | [] => Done (without_hash_extras s (zlen s))
           | _ :: _ => Panicked SliceIndexOutOfRange
           end
    else Panicked SliceIndexOutOfRange
  end.

(** The lines on which [strip_trivia] panics: its loop reaches a [#] after
    offset 0, the first [#] of the line, or the second when the first is
    at offset 0 and the line does not end in whitespace. *)
Definition hash_reached (s : list Z) : Prop :=
  match memchr_iter HASH s with
  | [] => False
  | p :: ps =>
    p ≠ 0 ∨ (is_some_and (last_char s) is_whitespace = false ∧ ps ≠ [])
  end.

#[export] Instance hash_reached_dec s : Decision (hash_reached s).
Proof. unfold hash_reached. destruct (memchr_iter HASH s); apply _. Defined.

(** The trivia stripper of the specification.  Comment stripping looks at
    the first [#] of the line only, and cuts the line there when the char
    before it is whitespace; a [#] at offset 0 has no char before it. *)
Definition spec_strip_comment (s : list Z) : Z :=
  match memchr_iter HASH s with
  | [] => zlen s
  | p :: _ =>
    if is_some_and (last_char (ztake p s)) is_whitespace then p else zlen s
  end.

(** Then the [--hash] extras are cut from what is left. *)
Definition spec_strip_trivia (s : list Z) : Z :=
  without_hash_extras s (spec_strip_comment s).

(** The lines on which the code strips what the specification says: the
    line holds no [#], or its only [#] is its first byte and the line does
    not end in whitespace. *)
Definition strips_as_specified (s : list Z) : Prop :=
  match memchr_iter HASH s with
  | [] => True
  | p :: ps =>
    p = 0 ∧ ps = [] ∧ is_some_and (last_char s) is_whitespace = false
  end.

#[export] Instance strips_as_specified_dec s : Decision (strips_as_specified s).
Proof. unfold strips_as_specified. destruct (memchr_iter HASH s); apply _. Defined.

Section strip_trivia_facts.
Context `{BuildProfile}.
Implicit Types (s : list Z) (n p len : Z) (ps : list Z).

Lemma without_hash_extras_bounds s len :
  0 ≤ len ≤ zlen s → 0 ≤ without_hash_extras s len ≤ len.
Proof.
  intros. unfold without_hash_extras.
  destruct (str_find _ _) as [i|] eqn:Hi; simpl; [|lia].
  apply str_find_bounds in Hi. rewrite zlen_ztake in Hi by done.
  assert (0 ≤ zlen HASH_EXTRAS) by done. lia.
Qed.

Lemma without_hash_extras_0 s : without_hash_extras s 0 = 0.
Proof. done. Qed.

(** The offset the [--hash] step returns can be sliced at: it is [len] or
    the offset of an ASCII [-]. *)
Lemma without_hash_extras_boundary s len :
  is_char_boundary s len = true →
  is_char_boundary s (without_hash_extras s len) = true.
Proof.
  intros Hlen. pose proof (is_char_boundary_range _ _ Hlen).
  unfold without_hash_extras.
  destruct (str_find _ _) as [i|] eqn:Hi; simpl; [|done].
  pose proof (str_find_bounds _ _ _ Hi) as Hb.
  apply str_find_Some in Hi as (_ & [k Hk] & _).
  rewrite zlen_ztake in Hb by done. change (zlen HASH_EXTRAS) with 6 in Hb.
  apply (is_char_boundary_ascii _ _ 45); [|done].
  rewrite <-(zget_ztake _ len) by lia.
  rewrite <-(Z.add_0_r i), <-zget_zdrop, Hk by lia. done.
Qed.

(** The last step of [strip_trivia], from the [len] the loop left. *)
Lemma strip_trivia_tail s len :
  is_char_boundary s len = true →
  (haystack ← str_slice_to s len;
   Done (match str_find haystack HASH_EXTRAS with
         | Some index => index
         | None => len
         end)) = Done (without_hash_extras s len).
Proof. intros. rewrite str_slice_to_boundary by done. done. Qed.

Lemma strip_comments_nil s len : strip_comments s len [] = Done len.
Proof. done. Qed.

(** A [#] at offset 0: the slice is the whole line. *)
Lemma strip_comments_0 s ps :
  zlen s ≤ usize_MAX →
  strip_comments s (zlen s) (0 :: ps) =
  if is_some_and (last_char s) is_whitespace then Done 0
  else strip_comments s (zlen s) ps.
Proof.
  intros. simpl. rewrite usize_add_Done by lia. simpl.
  by rewrite Z.add_0_r, str_slice_to_zlen.
Qed.

(** A [#] after offset 0: the slice ends after the line. *)
Lemma strip_comments_pos s p ps :
  0 < p → zlen s + p ≤ usize_MAX →
  strip_comments s (zlen s) (p :: ps) = Panicked SliceIndexOutOfRange.
Proof.
  intros. simpl. rewrite usize_add_Done by lia. simpl.
  by rewrite str_slice_to_oob by lia.
Qed.

(** Without a [#] the loop does nothing: the result is the [--hash] step on
    the whole line. *)
Lemma strip_trivia_no_hash s :
  memchr_iter HASH s = [] → strip_trivia s = Done (without_hash_extras s (zlen s)).
Proof.
  intros Hs. unfold strip_trivia. rewrite str_slice_to_zlen. simpl.
  rewrite Hs. simpl. apply strip_trivia_tail, is_char_boundary_zlen.
Qed.

(** The first [#] of a line that has one, when it is not at offset 0, makes
    the loop panic. *)
Lemma strip_trivia_first_pos s p ps :
  zlen s ≤ isize_MAX → memchr_iter HASH s = p :: ps → p ≠ 0 →
  strip_trivia s = Panicked SliceIndexOutOfRange.
Proof.
  intros Hs E Hp. unfold strip_trivia. rewrite str_slice_to_zlen. simpl.
  assert (0 ≤ p < zlen s) by (apply (memchr_iter_bounds HASH); rewrite E; left).
  rewrite E, strip_comments_pos by zlia. done.
Qed.

(** A line that holds a [#] and does not start with one makes the loop
    panic. *)
Lemma strip_trivia_hash_panics s :
  zlen s ≤ isize_MAX → head s ≠ Some HASH → HASH ∈ s →
  strip_trivia s = Panicked SliceIndexOutOfRange.
Proof.
  intros Hs Hhead Hin.
  destruct (memchr_iter HASH s) as [|q qs] eqn:E; [by apply memchr_iter_empty in E|].
  apply (strip_trivia_first_pos s q qs); [done..|].
  intros ->. by apply memchr_iter_head_0 in E.
Qed.

(** [strip_trivia], by the offsets of [#] in the line. *)
Lemma strip_trivia_eq_result s :
  zlen s ≤ isize_MAX → strip_trivia s = strip_trivia_result s.
Proof.
  intros Hs. unfold strip_trivia_result.
  destruct (memchr_iter HASH s) as [|p ps] eqn:E; [by apply strip_trivia_no_hash|].
  case_decide as Hp; [subst p | by apply (strip_trivia_first_pos s p ps)].
  unfold strip_trivia. rewrite str_slice_to_zlen. simpl.
  rewrite E, strip_comments_0 by zlia.
  destruct (is_some_and _ _); [done|].
  destruct ps as [|q ps].
  { simpl. apply strip_trivia_tail, is_char_boundary_zlen. }
  pose proof (memchr_iter_increasing _ _ _ _ E) as Hq.
  apply Forall_cons in Hq as [? _].
  assert (q < zlen s) by (apply (memchr_iter_bounds HASH); rewrite E; right; left).
  rewrite strip_comments_pos by zlia. done.
Qed.

(** C4 [strip_trivia] computes [strip_trivia_result] on every line a
    [str] can hold (at most [isize::MAX] bytes): without a [#] the line up
    to its first ["--hash"]; with a [#] at offset 0 only, 0 when the line
    ends in whitespace and the [--hash] step otherwise; a panic on every
    line with a [#] after offset 0 that is reached. *)
Theorem strip_trivia_spec s :
  zlen s ≤ isize_MAX → strip_trivia s = strip_trivia_result s.
Proof. apply strip_trivia_eq_result. Qed.

Lemma strip_comments_not_OutOfFuel s len ps : strip_comments s len ps ≠ OutOfFuel.
Proof. induction ps as [|p ps IH]; simpl; repeat fuel_step; done. Qed.

(** [strip_trivia] and [from_line] have no loop that takes fuel. *)
Lemma strip_trivia_not_OutOfFuel s : strip_trivia s ≠ OutOfFuel.
Proof.
  unfold strip_trivia. pose proof strip_comments_not_OutOfFuel.
  repeat fuel_step; done.
Qed.

Lemma from_line_not_OutOfFuel line : from_line line ≠ OutOfFuel.
Proof.
  unfold from_line. pose proof strip_trivia_not_OutOfFuel. repeat fuel_step.
Qed.

Lemma as_str_not_OutOfFuel l : as_str l ≠ OutOfFuel.
Proof. unfold as_str. auto with rust. Qed.

Lemma strip_trivia_result_not_OutOfFuel s : strip_trivia_result s ≠ OutOfFuel.
Proof. unfold strip_trivia_result. by repeat case_match. Qed.

(** The loop leaves the length it started with, or the offset of a [#]. *)
Lemma strip_comments_Done s len ps n :
  strip_comments s len ps = Done n → n = len ∨ n ∈ ps.
Proof.
  induction ps as [|p ps IH]; simpl; intros Hn; [left; by simplify_eq|].
  apply bind_Done in Hn as (e & _ & Hn). apply bind_Done in Hn as (b & _ & Hn).
  destruct (is_some_and _ _).
  - right. simplify_eq. apply list_elem_of_here.
  - destruct (IH Hn) as [->|?]; [by left | right; by apply list_elem_of_further].
Qed.

(** The [len] the loop leaves is at most the line's and can be sliced
    at. *)
Lemma strip_comments_boundary s ps n :
  ps ⊆ memchr_iter HASH s → strip_comments s (zlen s) ps = Done n →
  is_char_boundary s n = true.
Proof.
  intros Hps [->|Hn]%strip_comments_Done; [apply is_char_boundary_zlen|].
  apply Hps, elem_of_memchr_iter in Hn.
  by apply (is_char_boundary_ascii _ _ HASH).
Qed.

(** What [strip_trivia] returns, when it returns: the [--hash] step
    applied to an offset the line can be sliced at. *)
Lemma strip_trivia_Done s n :
  strip_trivia s = Done n →
  ∃ len, is_char_boundary s len = true ∧ n = without_hash_extras s len.
Proof.
  unfold strip_trivia. rewrite str_slice_to_zlen. simpl. intros Hn.
  apply bind_Done in Hn as (len & Hlen%strip_comments_boundary & Hn); [|done].
  exists len. split; [done|]. rewrite strip_trivia_tail in Hn by done.
  by simplify_eq.
Qed.

(** C37 The length [strip_trivia] returns is a length of a prefix of the
    line, in every build: [0 ≤ len ≤ line.len()]. *)
Theorem strip_trivia_bounds s n : strip_trivia s = Done n → 0 ≤ n ≤ zlen s.
Proof.
  intros (len & Hlen%is_char_boundary_range & ->)%strip_trivia_Done.
  pose proof (without_hash_extras_bounds s len Hlen). lia.
Qed.

(** The length [strip_trivia] returns is on a char boundary of the line. *)
Lemma strip_trivia_boundary s n :
  strip_trivia s = Done n → is_char_boundary s n = true.
Proof.
  intros (len & Hlen & ->)%strip_trivia_Done.
  by apply without_hash_extras_boundary.
Qed.

(** A line built by [from_line] holds the line it was given and a length
    the line can be sliced at. *)
Lemma from_line_Done cow l :
  from_line cow = Done l →
  line l = cow ∧ is_char_boundary (Cow_deref cow) (len l) = true.
Proof.
  unfold from_line. intros Hl.
  by apply bind_Done in Hl as (n & Hn%strip_trivia_boundary & [= <-]).
Qed.

(** [as_str] on a line whose length is on a char boundary. *)
Lemma as_str_boundary l :
  is_char_boundary (Cow_deref (line l)) (len l) = true →
  as_str l = Done (ztake (len l) (Cow_deref (line l))).
Proof. apply str_slice_to_boundary. Qed.

(** [from_line] builds valid lines from valid strings, and [as_str]
    returns a valid string, a prefix of the line, on every valid line. *)
Lemma from_line_valid cow l :
  utf8 (Cow_deref cow) → from_line cow = Done l → valid l.
Proof. intros ? [<- ?]%from_line_Done. by split. Qed.

Lemma as_str_valid l :
  valid l →
  ∃ s, as_str l = Done s ∧ utf8 s ∧ s `prefix_of` Cow_deref (line l).
Proof.
  intros [Hu Hb]. exists (ztake (len l) (Cow_deref (line l))).
  split_and!; [by apply as_str_boundary | by apply utf8_is_char_boundary|].
  apply prefix_take.
Qed.

(** [as_str] does not panic on a line built by [from_line]: it returns
    the first [len] bytes of the line. *)
Theorem as_str_from_line cow l :
  from_line cow = Done l → as_str l = Done (ztake (len l) (Cow_deref cow)).
Proof.
  intros [<- Hb]%from_line_Done. by apply as_str_boundary.
Qed.

(** What the [--hash] step keeps holds no ["--hash"]. *)
Lemma without_hash_extras_no_extras s len :
  0 ≤ len ≤ zlen s →
  str_find (ztake (without_hash_extras s len) s) HASH_EXTRAS = None.
Proof.
  intros Hlen. unfold without_hash_extras.
  destruct (str_find (ztake len s) HASH_EXTRAS) as [i|] eqn:Hi; simpl; [|done].
  pose proof (str_find_bounds _ _ _ Hi) as Hb.
  rewrite zlen_ztake in Hb by done. change (zlen HASH_EXTRAS) with 6 in Hb.
  apply str_find_Some in Hi as (_ & _ & Hi).
  apply str_find_None. intros j Hj Hp. rewrite zlen_ztake in Hj by lia.
  assert (zlen HASH_EXTRAS ≤ zlen (zdrop j (ztake i s))) as Hl.
  { destruct Hp as [k ->]. rewrite zlen_app. zlia. }
  rewrite zlen_zdrop, zlen_ztake in Hl by (rewrite ?zlen_ztake; lia).
  change (zlen HASH_EXTRAS) with 6 in Hl.
  apply (Hi j); [lia|]. etrans; [done|].
  rewrite <-(ztake_ztake i len) by lia. apply zdrop_ztake_prefix.
Qed.

(** The requirement [strip_trivia] keeps holds no ["--hash"]. *)
Theorem strip_trivia_no_extras s n :
  strip_trivia s = Done n → str_find (ztake n s) HASH_EXTRAS = None.
Proof.
  intros (len & Hlen%is_char_boundary_range & ->)%strip_trivia_Done.
  by apply without_hash_extras_no_extras.
Qed.

(** A line without [#] is not a panic: [strip_trivia] returns the
    offset of its first ["--hash"], or its length. *)
Theorem strip_trivia_no_comment s :
  HASH ∉ s → strip_trivia s = Done (without_hash_extras s (zlen s)).
Proof.
  intros Hs%memchr_iter_empty. by apply strip_trivia_no_hash.
Qed.

(** C26 [strip_trivia] panics on every line that has a [#] and does not
    start with one: the slice it takes to look at the char before the [#]
    ends at [len + position], after the end of the line. *)
Theorem strip_trivia_inline_hash_panics s p :
  zlen s ≤ isize_MAX → head s ≠ Some HASH → zget s p = Some HASH →
  strip_trivia s = Panicked SliceIndexOutOfRange.
Proof.
  intros Hs Hhead [_ Hp]%zget_Some. apply strip_trivia_hash_panics; [done..|].
  by eapply list_elem_of_lookup_2.
Qed.

(** [strip_trivia] panics on the lines of [hash_reached], and only with a
    slice index out of range: no addition overflows and no slice is off a
    char boundary. *)
Lemma strip_trivia_Panicked s (e : panic) :
  zlen s ≤ isize_MAX →
  strip_trivia s = Panicked e ↔ e = SliceIndexOutOfRange ∧ hash_reached s.
Proof.
  intros Hs. rewrite strip_trivia_eq_result by done.
  unfold strip_trivia_result, hash_reached.
  destruct (memchr_iter HASH s) as [|q [|q' qs]]; repeat case_match;
    naive_solver.
Qed.

(** On a line without [#] the specification cuts at the first
    ["--hash"] too. *)
Lemma spec_strip_trivia_no_hash s :
  memchr_iter HASH s = [] → spec_strip_trivia s = without_hash_extras s (zlen s).
Proof. intros E. unfold spec_strip_trivia, spec_strip_comment. by rewrite E. Qed.

Lemma spec_strip_trivia_head_hash s ps :
  memchr_iter HASH s = 0 :: ps → spec_strip_trivia s = without_hash_extras s (zlen s).
Proof. intros E. unfold spec_strip_trivia, spec_strip_comment. by rewrite E. Qed.

(** [strip_trivia] against the trivia stripper of the specification: on
    a line without [#] it returns the clean span of the specification; on
    every line, when it returns, it returns that span, or 0 on a line that
    starts with [#] and ends in whitespace, where the specification keeps
    the line. *)
Theorem strip_trivia_meets_spec s :
  zlen s ≤ isize_MAX →
  (HASH ∉ s → strip_trivia s = Done (spec_strip_trivia s))
  ∧ (∀ n, strip_trivia s = Done n →
       n = spec_strip_trivia s
       ∨ (n = 0 ∧ head s = Some HASH
          ∧ is_some_and (last_char s) is_whitespace = true)).
Proof.
  intros Hs. split.
  { intros E%memchr_iter_empty.
    by rewrite strip_trivia_no_hash, spec_strip_trivia_no_hash. }
  intros n. rewrite strip_trivia_eq_result by done. unfold strip_trivia_result.
  destruct (memchr_iter HASH s) as [|p ps] eqn:E.
  { rewrite spec_strip_trivia_no_hash by done. intros [= <-]. by left. }
  case_decide as Hp; [subst p|done].
  rewrite (spec_strip_trivia_head_hash s ps) by done.
  pose proof (memchr_iter_head_0 _ _ _ E).
  destruct (is_some_and _ _) eqn:Ew; [intros [= <-]; by right|].
  destruct ps; [|done]. intros [= <-]. by left.
Qed.

(** The [--hash] step leaves at least the [#] of a line that starts with
    one. *)
Lemma without_hash_extras_head_hash s :
  head s = Some HASH → without_hash_extras s (zlen s) ≠ 0.
Proof.
  destruct s as [|b s]; intros [= ->]. unfold without_hash_extras.
  rewrite ztake_all, str_find_cons by done.
  case_decide as Hp; [by destruct Hp as [? [=]]|].
  pose proof (zlen_nonneg s).
  rewrite zlen_cons.
  destruct (str_find s HASH_EXTRAS) as [i|] eqn:E; simpl; [|lia].
  apply str_find_bounds in E. lia.
Qed.

(** On the lines of [strips_as_specified] the code returns the clean span
    of the specification. *)
Lemma strip_trivia_as_specified s :
  zlen s ≤ isize_MAX → strips_as_specified s →
  strip_trivia s = Done (spec_strip_trivia s).
Proof.
  intros Hs. rewrite strip_trivia_eq_result by done.
  unfold strip_trivia_result, strips_as_specified.
  destruct (memchr_iter HASH s) as [|p ps] eqn:E.
  { by rewrite spec_strip_trivia_no_hash. }
  intros (-> & -> & Hw). rewrite (spec_strip_trivia_head_hash s []) by done.
  by rewrite decide_True, Hw by done.
Qed.

(** C16 The trivia stripper conforms to the specification on the lines of
    [strips_as_specified], and on no other line: on a line that a [str]
    can hold, [strip_trivia] returns the clean span of the specification
    exactly when the line holds no [#], or when its only [#] is its first
    byte and it does not end in whitespace. *)
Theorem strip_trivia_conforms_iff s :
  zlen s ≤ isize_MAX →
  strip_trivia s = Done (spec_strip_trivia s) ↔ strips_as_specified s.
Proof.
  intros Hs. split; [|by apply strip_trivia_as_specified].
  rewrite strip_trivia_eq_result by done.
  unfold strip_trivia_result, strips_as_specified.
  destruct (memchr_iter HASH s) as [|p ps] eqn:E; [done|].
  case_decide as Hp; [subst p|done].
  rewrite (spec_strip_trivia_head_hash s ps) by done.
  pose proof (without_hash_extras_head_hash s (memchr_iter_head_0 _ _ _ E)).
  destruct (is_some_and _ _); [naive_solver|]. by destruct ps.
Qed.

(** C40 Stripping is idempotent on lines without [#]: the requirement
    [strip_trivia] keeps is left whole by a second pass. *)
Theorem strip_trivia_idempotent s n :
  HASH ∉ s → strip_trivia s = Done n → strip_trivia (ztake n s) = Done n.
Proof.
  intros Hs Hn. rewrite strip_trivia_no_hash in Hn by by apply memchr_iter_empty.
  injection Hn as <-.
  pose proof (without_hash_extras_bounds s (zlen s) ltac:(zlia)) as Hb.
  rewrite strip_trivia_no_hash.
  - unfold without_hash_extras at 1. rewrite zlen_ztake, ztake_ztake by lia.
    rewrite without_hash_extras_no_extras by lia. done.
  - apply memchr_iter_empty. intros Hin. by apply Hs, (elem_of_ztake _ _ _ Hin).
Qed.

End strip_trivia_facts.

Lemma strip_trivia_bounds_witness :
  @strip_trivia debug_build (bytes "pkg==1.0 --hash=sha256:abc") = Done 9
  ∧ 0 ≤ 9 ≤ zlen (bytes "pkg==1.0 --hash=sha256:abc").
Proof.
  assert (@strip_trivia debug_build (bytes "pkg==1.0 --hash=sha256:abc") = Done 9)
    as E by (by vm_compute).
  split; [done | exact (@strip_trivia_bounds debug_build _ _ E)].
Defined.

Lemma as_str_from_line_witness :
  @from_line debug_build (Borrowed (bytes "pkg==1.0 --hash=sha256:abc"))
    = Done {| line := Borrowed (bytes "pkg==1.0 --hash=sha256:abc"); len := 9 |}
  ∧ @as_str {| line := Borrowed (bytes "pkg==1.0 --hash=sha256:abc"); len := 9 |}
    = Done (bytes "pkg==1.0 ").
Proof.
  assert (@from_line debug_build (Borrowed (bytes "pkg==1.0 --hash=sha256:abc"))
    = Done {| line := Borrowed (bytes "pkg==1.0 --hash=sha256:abc"); len := 9 |})
    as E by (by vm_compute).
  split; [done | exact (@as_str_from_line debug_build _ _ E)].
Defined.

Lemma strip_trivia_no_extras_witness :
  @strip_trivia release_build (bytes "a --hash=x --hash=y") = Done 2
  ∧ str_find (ztake 2 (bytes "a --hash=x --hash=y")) HASH_EXTRAS = None.
Proof.
  assert (@strip_trivia release_build (bytes "a --hash=x --hash=y") = Done 2)
    as E by (by vm_compute).
  split; [done | exact (@strip_trivia_no_extras release_build _ _ E)].
Defined.

Lemma strip_trivia_no_comment_witness :
  (HASH ∉ bytes "flask==2.0")
  ∧ @strip_trivia debug_build (bytes "flask==2.0") = Done 10.
Proof.
  assert (HASH ∉ (bytes "flask==2.0")) as E by by_compute.
  split; [done | exact (@strip_trivia_no_comment debug_build _ E)].
Defined.

Lemma strip_trivia_inline_hash_panics_witness :
  zlen (bytes "pkg==1.0  # a comment") ≤ isize_MAX
  ∧ head (bytes "pkg==1.0  # a comment") ≠ Some HASH
  ∧ zget (bytes "pkg==1.0  # a comment") 10 = Some HASH
  ∧ @strip_trivia release_build (bytes "pkg==1.0  # a comment")
    = Panicked SliceIndexOutOfRange.
Proof.
  split_and!; [by vm_compute | by vm_compute | by vm_compute |].
  apply (strip_trivia_inline_hash_panics _ 10); by vm_compute.
Defined.

Lemma strip_trivia_idempotent_witness :
  (HASH ∉ bytes "a --hash=x")
  ∧ @strip_trivia debug_build (bytes "a --hash=x") = Done 2
  ∧ @strip_trivia debug_build (ztake 2 (bytes "a --hash=x")) = Done 2.
Proof.
  assert (HASH ∉ (bytes "a --hash=x")) as E1 by by_compute.
  assert (@strip_trivia debug_build (bytes "a --hash=x") = Done 2) as E2
    by (by vm_compute).
  split_and!; [done | done | exact (@strip_trivia_idempotent debug_build _ _ E1 E2)].
Defined.

(** Stripping is not idempotent on every line: on a line that starts
    with [#] and does not end in whitespace the first pass stops at the
    ["--hash"], and the pass on what it kept sees a line that ends in
    whitespace and returns 0. *)
Example strip_trivia_hash_line_not_idempotent :
  @strip_trivia debug_build (bytes "# --hashx") = Done 2
  ∧ @strip_trivia debug_build (ztake 2 (bytes "# --hashx")) = Done 0.
Proof. split; by vm_compute. Qed.

Lemma strip_trivia_meets_spec_witness :
  @strip_trivia debug_build (bytes "pkg==1.0  --hash=sha256:abc") = Done 10
  ∧ spec_strip_trivia (bytes "pkg==1.0  --hash=sha256:abc") = 10
  ∧ @strip_trivia debug_build (bytes "# a ") = Done 0
  ∧ spec_strip_trivia (bytes "# a ") = 4.
Proof.
  destruct (@strip_trivia_meets_spec debug_build (bytes "pkg==1.0  --hash=sha256:abc"))
    as [Hs _]; [by_compute|].
  split; [rewrite Hs by by_compute|]; by vm_compute.
Defined.

Lemma strip_trivia_conforms_iff_witness :
  ¬ strips_as_specified (bytes "pkg==1.0  # a comment")
  ∧ strips_as_specified (bytes "pkg @ https://example.com/x")
  ∧ ¬ strips_as_specified (bytes "pkg @ https://example.com/x#fragment").
Proof.
  pose proof (@strip_trivia_conforms_iff debug_build
                (bytes "pkg==1.0  # a comment")) as H1.
  pose proof (@strip_trivia_conforms_iff debug_build
                (bytes "pkg @ https://example.com/x")) as H2.
  pose proof (@strip_trivia_conforms_iff release_build
                (bytes "pkg @ https://example.com/x#fragment")) as H3.
  split_and!.
  - intros Hs. apply H1 in Hs; [|by vm_compute]. by vm_compute in Hs.
  - apply H2; by vm_compute.
  - intros Hs. apply H3 in Hs; [|by vm_compute]. by vm_compute in Hs.
Defined.

Lemma strip_trivia_spec_witness :
  zlen (bytes "pkg # x") ≤ isize_MAX
  ∧ @strip_trivia debug_build (bytes "pkg # x")
    = strip_trivia_result (bytes "pkg # x").
Proof. split; [by vm_compute | apply strip_trivia_spec; by vm_compute]. Defined.

End RequirementLine.

#[export] Hint Resolve RequirementLine.strip_trivia_not_OutOfFuel
  RequirementLine.from_line_not_OutOfFuel RequirementLine.as_str_not_OutOfFuel
  : rust.
