(* ===== verification/Lines.v ===== *)
(** * The line splitter: [find_newline] and [RequirementsIterator]

    [RequirementsIterator::next] scans the text from its cursor: it skips
    comment and blank lines, joins the lines of a continuation and returns
    the next logical line as a [RequirementLine].  The model follows
    [lib.rs] lines 32 to 42 and 94 to 191 statement by statement, with the
    cursor as explicit state. *)

From Stdlib Require Import ZArith Lia.
From stdpp Require Import base tactics option list numbers strings.
From S2P Require Import Prelude Utf8 RustStr Iterator Trivia.

#[local] Open Scope Z_scope.

(** [find_newline]: the offset of the first line break of the text and its
    width, 2 for [\r\n] and 1 for [\n] or a lone [\r]. *)
Definition find_newline (text : list Z) : option (Z * Z) :=
  position ← memchr2 LF CR text;
  newline_character ← zget text position;
  Some (if decide (newline_character = LF) then (position, 1)
        else if decide (newline_character = CR
                        ∧ zget text (saturating_add position 1) = Some LF)
        then (position, 2)
        else (position, 1)).

(** A text without line break. *)
Definition no_break (s : list Z) : Prop := Forall (λ x, x ≠ LF ∧ x ≠ CR) s.

#[export] Instance no_break_dec s : Decision (no_break s).
Proof. unfold no_break. apply _. Defined.

(** The width of the line break that starts with the byte [b] and is
    followed by [post]: 2 for [\r\n], 1 otherwise. *)
Definition break_width (b : Z) (post : list Z) : Z :=
  if decide (b = CR ∧ head post = Some LF) then 2 else 1.

Section find_newline_facts.
Implicit Types (text pre post : list Z) (start length b : Z).

Lemma break_width_bounds b post :
  1 ≤ break_width b post ≤ 2 ∧ break_width b post ≤ 1 + zlen post.
Proof.
  unfold break_width. case_decide as Hb; [|zlia].
  destruct Hb as [_ Hp]. destruct post; [done|]. rewrite zlen_cons. zlia.
Qed.

Lemma find_newline_None text : find_newline text = None ↔ no_break text.
Proof.
  unfold find_newline, no_break. rewrite <-memchr2_None.
  destruct (memchr2 LF CR text) as [p|] eqn:Hp; simpl; [|done].
  destruct (memchr2_zget _ _ _ _ Hp) as (b & -> & _). done.
Qed.

Lemma find_newline_app pre b post :
  zlen (pre ++ b :: post) ≤ isize_MAX → no_break pre → b = LF ∨ b = CR →
  find_newline (pre ++ b :: post) = Some (zlen pre, break_width b post).
Proof.
  intros Hlen Hpre Hb. unfold find_newline.
  rewrite zlen_app, zlen_cons in Hlen.
  rewrite memchr2_app by done. simpl.
  rewrite saturating_add_small by zlia.
  rewrite !zget_app_r, Z.sub_diag, zget_cons_0, zget_cons_pos by lia. simpl.
  replace (zlen pre + 1 - zlen pre - 1) with 0 by lia.
  assert (zget post 0 = head post) as -> by (by destruct post).
  unfold break_width, LF, CR in *. repeat case_decide; naive_solver lia.
Qed.

(** C5 [find_newline] returns the offset of the first [\n] or [\r] of a
    text of at most [isize::MAX] bytes, with width 2 when it is a [\r]
    followed by [\n] and 1 otherwise; it returns [None] exactly on texts
    without [\n] and [\r]. *)
Theorem find_newline_Some text start length :
  zlen text ≤ isize_MAX →
  find_newline text = Some (start, length) ↔
  ∃ pre b post, text = pre ++ b :: post ∧ no_break pre ∧ (b = LF ∨ b = CR)
                ∧ start = zlen pre ∧ length = break_width b post.
Proof.
  intros Hlen. split.
  - intros Hf. destruct (memchr2 LF CR text) as [p|] eqn:Hp.
    + apply memchr2_Some in Hp as (pre & b & post & -> & -> & Hb & Hpre).
      rewrite find_newline_app in Hf by done. simplify_eq.
      by exists pre, b, post.
    + unfold find_newline in Hf. by rewrite Hp in Hf.
  - intros (pre & b & post & -> & Hpre & Hb & -> & ->).
    by apply find_newline_app.
Qed.

(** The line break [find_newline] finds lies inside the text. *)
Lemma find_newline_bounds text start length :
  find_newline text = Some (start, length) →
  0 ≤ start ∧ 1 ≤ length ≤ 2 ∧ start < zlen text.
Proof.
  unfold find_newline. intros Hf.
  apply bind_Some in Hf as (p & Hp%memchr2_bounds & Hf).
  apply bind_Some in Hf as (b & _ & Hf).
  repeat case_decide; simplify_eq; lia.
Qed.

(** On a text a [str] can hold, the line break ends inside the text. *)
Lemma find_newline_end text start length :
  zlen text ≤ usize_MAX → find_newline text = Some (start, length) →
  start + length ≤ zlen text.
Proof.
  unfold find_newline. intros Hlen Hf.
  apply bind_Some in Hf as (p & Hp%memchr2_bounds & Hf).
  apply bind_Some in Hf as (b & _ & Hf).
  rewrite saturating_add_small in Hf by lia.
  repeat case_decide; simplify_eq; try lia.
  match goal with Hb : _ ∧ zget _ _ = Some _ |- _ => destruct Hb as [_ ?%zget_lt] end.
  lia.
Qed.

End find_newline_facts.

Lemma find_newline_Some_witness :
  zlen (bytes "ab" ++ [CR; LF] ++ bytes "c") ≤ isize_MAX
  ∧ find_newline (bytes "ab" ++ [CR; LF] ++ bytes "c") = Some (2, 2).
Proof.
  split; [by vm_compute|]. apply find_newline_Some; [by vm_compute|].
  exists (bytes "ab"), CR, (LF :: bytes "c").
  split_and!; [done | by_compute | by right | done | done].
Defined.

Module RequirementsIterator.

(** [struct RequirementsIterator]: the text and the cursor. *)
Record t : Type := { text : list Z; index : Z }.

#[export] Instance t_eq_dec : EqDecision t.
Proof. solve_decision. Defined.

(** [RequirementsIterator::new]. *)
Definition new (text : list Z) : t := {| text := text; index := 0 |}.

(** The invariant of the type: the text is a [str], which holds at most
    [isize::MAX] bytes, and the cursor is a [usize]. *)
Definition valid (self : t) : Prop :=
  utf8 (text self) ∧ zlen (text self) ≤ isize_MAX ∧ is_usize (index self).

#[export] Instance valid_dec self : Decision (valid self).
Proof. unfold valid, is_usize. apply _. Defined.

Section with_profile.
Context `{BuildProfile}.

(** The test of both continuation checks: the last char of [text[..end]]
    is a backslash. *)
Definition continued (text : list Z) (end_ : Z) : outcome bool :=
  before ← str_slice_to text end_;
  Done (is_some_and (last_char before) (λ c, bool_decide (c = BACKSLASH))).

(** [self.index += start + length]. *)
Definition advance (index start length : Z) : outcome Z :=
  step ← start +! length;
  index +! step.

(** The [while let] loop of [next]: eats lines until one does not end in a
    continuation, appending them to [line]; returns the line and the
    cursor. *)
Fixpoint eat_continuations (fuel : nat) (text : list Z) (index : Z)
    (line : list Z) : outcome (list Z * Z) :=
  match fuel with
  | O => OutOfFuel
  | S fuel =>
    rest ← str_slice_from text index;
    match find_newline rest with
    | None => Done (line, index)
    | Some (start, length) =>
      end_ ← index +! start;
      c ← continued text end_;
      if (c : bool) then
        end_ ← end_ -! 1;
        fragment ← str_slice text index end_;
        index ← advance index start length;
        eat_continuations fuel text index (line ++ fragment)
      else
        fragment ← str_slice text index end_;
        index ← advance index start length;
        Done (line ++ fragment, index)
    end
  end.

(** [Iterator::next], with fuel for its recursive calls and its loop. *)
Fixpoint next_fuel (fuel : nat) (self : t)
    : outcome (option RequirementLine.t * t) :=
  match fuel with
  | O => OutOfFuel
  | S fuel =>
    let text := text self in
    let index := index self in
    last ← zlen text -! 1;
    if decide (index = last) then Done (None, self) else
    rest ← str_slice_from text index;
    match find_newline rest with
    | None =>
      line ← str_slice_from text index;
      last ← zlen text -! 1;
      let self := {| text := text; index := last |} in
      if starts_with (trim_start line) HASH then Done (None, self)
      else if is_empty (trim line) then Done (None, self)
      else
        item ← RequirementLine.from_line (Borrowed line);
        Done (Some item, self)
    | Some (start, length) =>
      rest ← str_slice_from text index;
      if starts_with (trim_start rest) HASH then
        index ← advance index start length;
        next_fuel fuel {| text := text; index := index |}
      else
        end_ ← index +! start;
        line ← str_slice text index end_;
        if is_empty (trim line) then
          index ← advance index start length;
          next_fuel fuel {| text := text; index := index |}
        else
          end_ ← index +! start;
          c ← continued text end_;
          if (c : bool) then
            end_ ← index +! start;
            end_ ← end_ -! 1;
            line ← str_slice text index end_;
            index ← advance index start length;
            '(line, index) ← eat_continuations fuel text index line;
            item ← RequirementLine.from_line (Owned line);
            Done (Some item, {| text := text; index := index |})
          else
            end_ ← index +! start;
            line ← str_slice text index end_;
            index ← advance index start length;
            item ← RequirementLine.from_line (Borrowed line);
            Done (Some item, {| text := text; index := index |})
    end
  end.

(** [Iterator::next]: a text of [n] bytes has at most [n] line breaks, so
    [n + 1] calls and iterations are enough. *)
Definition next (self : t) : outcome (option RequirementLine.t * t) :=
  next_fuel (S (length (text self))) self.

(** [impl Iterator for RequirementsIterator], with
    [Item = RequirementLine]. *)
#[global] Instance iterator : Iterator t RequirementLine.t :=
  {| iter_next := next |}.

End with_profile.

Section termination.
Context `{BuildProfile}.
Implicit Types (text line : list Z) (index start length : Z) (fuel : nat).

Lemma continued_not_OutOfFuel text end_ : continued text end_ ≠ OutOfFuel.
Proof. unfold continued. repeat fuel_step. Qed.

Lemma advance_not_OutOfFuel index start length :
  advance index start length ≠ OutOfFuel.
Proof. unfold advance. repeat fuel_step. auto with rust. Qed.

(** [advance] moves the cursor past a line break found in the rest of the
    text: it cannot overflow. *)
Lemma advance_Done text index start length :
  zlen text ≤ usize_MAX → 0 ≤ index ≤ zlen text →
  find_newline (zdrop index text) = Some (start, length) →
  advance index start length = Done (index + (start + length))
  ∧ index < index + (start + length) ≤ zlen text.
Proof.
  intros ? ? Hf. pose proof (find_newline_bounds _ _ _ Hf).
  apply find_newline_end in Hf; [|rewrite zlen_zdrop; lia].
  rewrite zlen_zdrop in Hf by lia. unfold advance.
  rewrite usize_add_Done by lia. simpl. rewrite usize_add_Done by lia.
  split; [done | lia].
Qed.

Local Hint Resolve continued_not_OutOfFuel advance_not_OutOfFuel : rust.

(** The loop of [next] ends: every iteration moves the cursor forward. *)
Lemma eat_continuations_terminates fuel text index line :
  zlen text ≤ usize_MAX → 0 ≤ index → zlen text - index < Z.of_nat fuel →
  (0 < fuel)%nat →
  eat_continuations fuel text index line ≠ OutOfFuel.
Proof.
  intros Hlen. revert index line.
  induction fuel as [|fuel IH]; intros index line Hi Hf ?; [lia|].
  cbn [eat_continuations].
  apply bind_not_OutOfFuel; [auto with rust|].
  intros rest [Hb%is_char_boundary_range ->]%str_slice_from_Done.
  destruct (find_newline _) as [[start length]|] eqn:Hn; [|done].
  destruct (advance_Done _ _ _ _ Hlen Hb Hn) as [Ha ?].
  do 2 fuel_step. rewrite Ha. simpl.
  case_match; repeat fuel_step. apply IH; lia.
Qed.

(** [next_fuel] does not run out of fuel when it is given more than the
    number of bytes after the cursor. *)
Lemma next_fuel_terminates fuel self :
  zlen (text self) ≤ usize_MAX → 0 ≤ index self →
  zlen (text self) - index self < Z.of_nat fuel → (0 < fuel)%nat →
  next_fuel fuel self ≠ OutOfFuel.
Proof.
  destruct self as [text index]. simpl. intros Hlen. revert index.
  induction fuel as [|fuel IH]; intros index Hi Hf ?; [lia|].
  cbn [next_fuel RequirementsIterator.text RequirementsIterator.index].
  do 2 fuel_step; [done|].
  apply bind_not_OutOfFuel; [auto with rust|].
  intros rest [Hb%is_char_boundary_range ->]%str_slice_from_Done.
  destruct (find_newline _) as [[start length]|] eqn:Hn.
  2:{ repeat fuel_step. }
  destruct (advance_Done _ _ _ _ Hlen Hb Hn) as [Ha ?].
  rewrite Ha. simpl.
  repeat first
    [ apply IH; simpl; lia
    | apply bind_not_OutOfFuel;
        [apply eat_continuations_terminates; lia | intros [? ?] ?]
    | fuel_step ].
Qed.

(** C6 [next] terminates on every text a [str] can hold: the fuel it
    gives to its recursive calls and its loop, one more than the length of
    the text, is never exhausted. *)
Theorem next_terminates self :
  zlen (text self) ≤ isize_MAX → 0 ≤ index self → next self ≠ OutOfFuel.
Proof.
  intros. apply next_fuel_terminates; unfold zlen in *; zlia.
Qed.

(** More fuel changes nothing once the loop has ended. *)
Lemma eat_continuations_mono fuel fuel' text index line :
  (fuel ≤ fuel')%nat →
  eat_continuations fuel text index line ≠ OutOfFuel →
  eat_continuations fuel' text index line
  = eat_continuations fuel text index line.
Proof.
  revert fuel' index line.
  induction fuel as [|fuel IH]; intros [|fuel'] index line ? Hf; try done; try lia.
  cbn [eat_continuations] in *.
  repeat match goal with
  | |- context [mbind _ ?m] =>
      lazymatch m with
      | eat_continuations _ _ _ _ => fail
      | _ => destruct m as [?| |]; simpl in *; try done
      end
  | |- context [match ?x with _ => _ end] =>
      lazymatch x with
      | eat_continuations _ _ _ _ => fail
      | _ => destruct x; simpl in *; try done
      end
  end; (apply IH; [lia | done]).
Qed.

Lemma next_fuel_mono fuel fuel' self :
  (fuel ≤ fuel')%nat → next_fuel fuel self ≠ OutOfFuel →
  next_fuel fuel' self = next_fuel fuel self.
Proof.
  revert fuel' self.
  induction fuel as [|fuel IH]; intros [|fuel'] self ? Hf; try done; try lia.
  cbn [next_fuel] in *.
  repeat match goal with
  | |- context [mbind _ ?m] =>
      lazymatch m with
      | eat_continuations _ _ _ _ => fail
      | next_fuel _ _ => fail
      | _ => destruct m as [?| |]; simpl in *; try done
      end
  | |- context [match ?x with _ => _ end] =>
      lazymatch x with
      | eat_continuations _ _ _ _ => fail
      | next_fuel _ _ => fail
      | _ => destruct x; simpl in *; try done
      end
  end; try (apply IH; [lia | done]).
  all: rewrite (eat_continuations_mono fuel fuel'); [done | lia |].
  all: intros E; by rewrite E in Hf.
Qed.

(** The fuel of the model does not matter: on a text a [str] can hold,
    [next_fuel] with any fuel above the length of the text returns what
    [next] returns. *)
Theorem next_fuel_enough fuel self :
  zlen (text self) ≤ isize_MAX → 0 ≤ index self →
  (length (text self) < fuel)%nat →
  next_fuel fuel self = next self.
Proof.
  intros. apply next_fuel_mono; [lia|].
  apply next_fuel_terminates; unfold zlen in *; zlia.
Qed.

End termination.

Section progress.
Context `{BuildProfile}.
Implicit Types (text line : list Z) (index start length : Z) (fuel : nat).

(** [use_advance] replaces the result of an [advance] after a line break
    found at the cursor by the sum it is. *)
Ltac use_advance :=
  match goal with
  | Hlen : zlen ?text ≤ usize_MAX, Hb : 0 ≤ ?index ≤ zlen ?text,
    E : find_newline (zdrop ?index ?text) = Some (?s, ?l),
    A : advance ?index ?s ?l = Done ?n |- _ =>
      let Ha := fresh in
      destruct (advance_Done text index s l Hlen Hb E) as [Ha ?];
      rewrite Ha in A; injection A as <-
  end.

(** The loop only moves the cursor forward, and not past the end. *)
Lemma eat_continuations_range fuel text index line line' index' :
  zlen text ≤ usize_MAX → 0 ≤ index →
  eat_continuations fuel text index line = Done (line', index') →
  index ≤ index' ≤ zlen text.
Proof.
  intros Hlen. revert index line.
  induction fuel as [|fuel IH]; intros index line Hi Hf; [done|].
  cbn [eat_continuations] in Hf.
  apply bind_Done in Hf as (rest & [Hb%is_char_boundary_range ->]%str_slice_from_Done & Hf).
  exec_inv; try use_advance; [|lia..].
  apply IH in Hf; lia.
Qed.

(** When [next] returns a line, the cursor has moved forward, inside the
    same text. *)
Lemma next_fuel_progress fuel self item self' :
  zlen (text self) ≤ usize_MAX → 0 ≤ index self →
  next_fuel fuel self = Done (Some item, self') →
  text self' = text self ∧ index self < index self' ≤ zlen (text self).
Proof.
  destruct self as [text index]. simpl. intros Hlen. revert index.
  induction fuel as [|fuel IH]; intros index Hi Hf; [done|].
  cbn [next_fuel RequirementsIterator.text RequirementsIterator.index] in Hf.
  apply bind_Done in Hf as (last & Hlast & Hf).
  case_decide as Hne; [by simplify_eq|].
  apply bind_Done in Hf as (rest & [Hb%is_char_boundary_range ->]%str_slice_from_Done & Hf).
  destruct (find_newline (zdrop index text)) as [[start length]|] eqn:Hn.
  - exec_inv; use_advance; simpl.
    + apply IH in Hf as [-> ?]; [|lia]. simpl in *. split; [done|lia].
    + apply IH in Hf as [-> ?]; [|lia]. simpl in *. split; [done|lia].
    + match goal with
      | Hl : eat_continuations _ _ _ _ = Done _ |- _ =>
          apply eat_continuations_range in Hl; [|lia..]
      end.
      split; [done|lia].
    + split; [done|lia].
  - exec_inv. simpl. split; [done|].
    match goal with
    | Hl : str_slice_from text index = Done ?l, Ht : is_empty (trim ?l) = false |- _ =>
        apply str_slice_from_Done in Hl as [_ ->];
        assert (zdrop index text ≠ []) as Hne' by (by intros Hnil; rewrite Hnil in Ht)
    end.
    assert (index < zlen text).
    { apply dec_stable. intros ?. apply Hne'. apply zdrop_all. lia. }
    repeat match goal with
    | Hs : zlen text -! 1 = Done _ |- _ => apply usize_sub_Done_inv in Hs; [|lia]
    end.
    lia.
Qed.

(** The iterator keeps the laws of [IteratorLaws]: on a text a [str] can
    hold, [next] returns or panics, and every line it returns moves the
    cursor towards the end of the text. *)
#[global] Instance iterator_laws : IteratorLaws t RequirementLine.t.
Proof.
  refine {| iter_inv self := zlen (text self) ≤ isize_MAX ∧ 0 ≤ index self;
            iter_size self := Z.to_nat (zlen (text self) - index self) |}.
  - intros self [? ?]. apply next_fuel_terminates; unfold zlen in *; zlia.
  - intros self item self' [? ?] Hn.
    apply next_fuel_progress in Hn as [Ht ?]; [|zlia..]. rewrite Ht. lia.
Defined.

(** Every line [next] returns was built by [from_line]. *)
Lemma next_fuel_from_line fuel self item self' :
  next_fuel fuel self = Done (Some item, self') →
  ∃ cow, RequirementLine.from_line cow = Done item.
Proof.
  revert self. induction fuel as [|fuel IH]; intros self Hf; [done|].
  cbn [next_fuel] in Hf. exec_inv; eauto.
Qed.

(** A borrowed line is a slice of the text, after the cursor. *)
Lemma next_fuel_borrowed fuel self item self' l :
  zlen (text self) ≤ usize_MAX → 0 ≤ index self →
  next_fuel fuel self = Done (Some item, self') →
  RequirementLine.line item = Borrowed l →
  ∃ a b, index self ≤ a ∧ l = zdrop a (ztake b (text self)).
Proof.
  destruct self as [text index]. simpl. intros Hlen. revert index.
  induction fuel as [|fuel IH]; intros index Hi Hf Hl; [done|].
  cbn [next_fuel RequirementsIterator.text RequirementsIterator.index] in Hf.
  apply bind_Done in Hf as (last & _ & Hf). case_decide; [done|].
  apply bind_Done in Hf as (rest & [Hb%is_char_boundary_range ->]%str_slice_from_Done & Hf).
  destruct (find_newline (zdrop index text)) as [[start length]|] eqn:Hn;
    exec_inv; try use_advance;
    repeat match goal with
    | Hs : RequirementLine.from_line _ = Done _ |- _ =>
        apply RequirementLine.from_line_Done in Hs as [Hs _]; rewrite Hl in Hs
    | Hs : str_slice _ _ _ = Done _ |- _ => apply str_slice_Done in Hs as (? & _ & _ & ->)
    | Hs : str_slice_from _ _ = Done _ |- _ => apply str_slice_from_Done in Hs as [_ ->]
    end; simplify_eq/=.
  - destruct (IH (index + (start + length)) ltac:(lia) Hf Hl) as (a & b & ? & ->).
    exists a, b. split; [lia | done].
  - destruct (IH (index + (start + length)) ltac:(lia) Hf Hl) as (a & b & ? & ->).
    exists a, b. split; [lia | done].
  - by eexists index, _.
  - exists index, (zlen text). by rewrite ztake_all.
Qed.

(** C35 A borrowed line is a slice of the text, after the cursor: [next]
    copies nothing unless it joins a continuation. *)
Theorem next_borrowed_slice self item self' l :
  zlen (text self) ≤ isize_MAX → 0 ≤ index self →
  next self = Done (Some item, self') →
  RequirementLine.line item = Borrowed l →
  ∃ a b, index self ≤ a ∧ l = zdrop a (ztake b (text self)).
Proof. intros. eapply next_fuel_borrowed; [zlia | done..]. Qed.

(** When [next] returns [None] it leaves the cursor on
    [text.len() - 1]. *)
Lemma next_fuel_None fuel self self' :
  next_fuel fuel self = Done (None, self') →
  text self' = text self ∧ zlen (text self) -! 1 = Done (index self').
Proof.
  revert self. induction fuel as [|fuel IH]; intros [text index] Hf; [done|].
  cbn [next_fuel RequirementsIterator.text RequirementsIterator.index] in Hf.
  apply bind_Done in Hf as (last & Hlast & Hf).
  case_decide; [by simplify_eq|].
  exec_inv; simpl; try done;
    match goal with Hn : next_fuel fuel _ = _ |- _ => by apply IH in Hn end.
Qed.

(** C36 The iterator is fused: once [next] has returned [None], every
    later call returns [None] and leaves the cursor where it is. *)
Theorem next_fused self self' :
  next self = Done (None, self') → next self' = Done (None, self').
Proof.
  intros [Ht Hl]%next_fuel_None. unfold next. cbn [next_fuel].
  rewrite Ht, Hl. simpl. by rewrite decide_True.
Qed.

(** The first test of [next], with the cursor on the last byte. *)
Lemma next_fuel_at_last_byte fuel self :
  0 < zlen (text self) → index self = zlen (text self) - 1 →
  next_fuel (S fuel) self = Done (None, self).
Proof.
  intros ? Hi. cbn [next_fuel].
  rewrite usize_sub_Done by lia. simpl. by rewrite decide_True.
Qed.

(** With the cursor on the last byte of the text, [next] returns [None]
    and leaves the cursor there: the comparison of the cursor with
    [text.len() - 1] takes the last byte for the end of the text, and what
    the byte holds is never read. *)
Theorem next_at_last_byte self :
  0 < zlen (text self) → index self = zlen (text self) - 1 →
  next self = Done (None, self).
Proof. apply next_fuel_at_last_byte. Qed.


End progress.

Section typing.
Context `{BuildProfile}.
Implicit Types (text line : list Z) (index : Z) (fuel : nat).

(** The line the loop builds is a valid string when the text is one. *)
Lemma eat_continuations_utf8 fuel text index line line' index' :
  utf8 text → utf8 line →
  eat_continuations fuel text index line = Done (line', index') → utf8 line'.
Proof.
  intros Ht. revert index line.
  induction fuel as [|fuel IH]; intros index line Hl Hf; [done|].
  cbn [eat_continuations] in Hf. exec_inv; [eapply IH; [|done] | | done];
    eauto using utf8_app, str_slice_utf8.
Qed.

(** Every line [next] returns is a valid [RequirementLine]. *)
Lemma next_fuel_valid_item fuel self item self' :
  utf8 (text self) → next_fuel fuel self = Done (Some item, self') →
  RequirementLine.valid item.
Proof.
  destruct self as [text index]. simpl. intros Ht. revert index.
  induction fuel as [|fuel IH]; intros index Hf; [done|].
  cbn [next_fuel RequirementsIterator.text RequirementsIterator.index] in Hf.
  exec_inv; try (by eapply IH);
    (eapply RequirementLine.from_line_valid; [|done]); simpl;
    eauto using utf8_app, str_slice_utf8, str_slice_from_utf8,
      eat_continuations_utf8.
Qed.

(** C12 [next] keeps the types: from a valid iterator (a text that is a
    [str], a cursor that is a [usize]) it returns a valid iterator over the
    same text, also when the subtraction of the first test wraps around,
    and every line it returns is a valid [RequirementLine]: a [str] with a
    length at which it can be cut. *)
Theorem next_valid self r self' :
  valid self → next self = Done (r, self') →
  valid self' ∧ text self' = text self
  ∧ from_option RequirementLine.valid True r.
Proof.
  intros (Hu & Hl & Hi) Hn. unfold valid, is_usize in *. destruct r as [item|].
  - pose proof (next_fuel_valid_item _ _ _ _ Hu Hn).
    apply next_fuel_progress in Hn as [-> ?]; [|zlia..]. split_and!; try done; zlia.
  - apply next_fuel_None in Hn as [-> Hs].
    apply usize_sub_is_usize in Hs; [|unfold is_usize; zlia..].
    unfold is_usize in Hs. split_and!; try done; lia.
Qed.

End typing.

Lemma next_valid_witness :
  let self :=
    new (bytes "a==1 \" ++ [LF] ++ bytes "  --hash=x" ++ [LF] ++ bytes "b==2") in
  valid self
  ∧ ∃ item self', @next release_build self = Done (Some item, self')
    ∧ valid self' ∧ RequirementLine.valid item.
Proof.
  intros self. split; [by_compute|]. eexists _, _. split; [by vm_compute|].
  match goal with
  | |- valid ?s ∧ RequirementLine.valid ?i =>
      destruct (@next_valid release_build self (Some i) s) as (? & _ & ?);
        [by_compute | by vm_compute | done]
  end.
Defined.

Lemma next_at_last_byte_witness :
  0 < zlen (text {| text := bytes "a" ++ [LF] ++ bytes "b"; index := 2 |})
  ∧ index {| text := bytes "a" ++ [LF] ++ bytes "b"; index := 2 |}
    = zlen (text {| text := bytes "a" ++ [LF] ++ bytes "b"; index := 2 |}) - 1
  ∧ @next debug_build {| text := bytes "a" ++ [LF] ++ bytes "b"; index := 2 |}
    = Done (None, {| text := bytes "a" ++ [LF] ++ bytes "b"; index := 2 |}).
Proof.
  split_and!; [by vm_compute | by vm_compute |].
  apply (@next_at_last_byte debug_build); by vm_compute.
Defined.

Lemma next_borrowed_slice_witness :
  ∃ a b, 2 ≤ a ∧ bytes "bc" = zdrop a (ztake b (bytes "a" ++ [LF] ++ bytes "bc" ++ [LF])).
Proof.
  apply (@next_borrowed_slice debug_build
           {| text := bytes "a" ++ [LF] ++ bytes "bc" ++ [LF]; index := 2 |}
           {| RequirementLine.line := Borrowed (bytes "bc"); RequirementLine.len := 2 |}
           {| text := bytes "a" ++ [LF] ++ bytes "bc" ++ [LF]; index := 5 |});
    by vm_compute.
Defined.

Lemma next_fuel_enough_witness :
  @next_fuel debug_build 100 (new (bytes "a" ++ [LF] ++ bytes "b"))
  = @next debug_build (new (bytes "a" ++ [LF] ++ bytes "b")).
Proof.
  apply (@next_fuel_enough debug_build); [by vm_compute | by vm_compute | simpl; lia].
Defined.

Lemma next_fused_witness :
  @next release_build (new []) = Done (None, {| text := []; index := usize_MAX |})
  ∧ @next release_build {| text := []; index := usize_MAX |}
    = Done (None, {| text := []; index := usize_MAX |}).
Proof.
  assert (@next release_build (new [])
          = Done (None, {| text := []; index := usize_MAX |})) as E
    by (by vm_compute).
  split; [done | exact (@next_fused release_build _ _ E)].
Defined.

Lemma next_terminates_witness :
  zlen (text (new (bytes "a" ++ [LF] ++ bytes "b"))) ≤ isize_MAX
  ∧ 0 ≤ index (new (bytes "a" ++ [LF] ++ bytes "b"))
  ∧ @next release_build (new (bytes "a" ++ [LF] ++ bytes "b")) ≠ OutOfFuel.
Proof.
  split_and!; [by vm_compute | by vm_compute |].
  apply (@next_terminates release_build); by vm_compute.
Defined.

End RequirementsIterator.
