(* ===== verification/Requirements.v ===== *)
(** * The collection builder: [Requirements]

    [Requirements::from_str] drives the iterator, gives the requirement of
    every line to the PEP 508 parser and collects the results, stopping at
    the first error.  The parser is external: it enters as the class
    [RequirementParser].  The loop is [Iterator.try_collect], and what it
    needs of the iterator are the laws of [IteratorLaws]. *)

From Stdlib Require Import ZArith Lia.
From stdpp Require Import base tactics option list numbers strings.
From S2P Require Import Prelude Utf8 RustStr Iterator Trivia Lines.

#[local] Open Scope Z_scope.

(** The external parser [pep508_rs]: the types [Requirement] and
    [Pep508Error] and [Requirement::from_str]. *)
Class RequirementParser : Type := {
  Requirement : Type;
  Pep508Error : Type;
  Requirement_from_str : list Z → Result Requirement Pep508Error;
}.

Section with_parser.
Context `{BuildProfile} `{RequirementParser}.

(** [struct Requirements(Vec<Requirement>)]. *)
Record Requirements : Type := { vec : list Requirement }.

(** [Deref for Requirements]. *)
Definition deref (self : Requirements) : list Requirement := vec self.

(** The closure of [from_str]:
    [|requirement| Requirement::from_str(requirement.as_str())]. *)
Definition parse_line (requirement : RequirementLine.t)
    : outcome (Result Requirement Pep508Error) :=
  s ← RequirementLine.as_str requirement;
  Done (Requirement_from_str s).

(** [.map(...).collect::<Result<Vec<_>, _>>()] on the iterator of
    lines. *)
Definition collect (fuel : nat) (iter : RequirementsIterator.t)
    (acc : list Requirement) : outcome (Result (list Requirement) Pep508Error) :=
  try_collect parse_line fuel iter acc.

(** [Requirements::from_str]. *)
Definition from_str (s : list Z) : outcome (Result Requirements Pep508Error) :=
  r ← collect (S (length s)) (RequirementsIterator.new s) [];
  Done (match r with
        | Ok v => Ok {| vec := v |}
        | Err e => Err e
        end).

(** The results of the parser on a list of texts, as [collect] combines
    them: the requirements in order, or the first error. *)
Fixpoint parse_all (texts : list (list Z))
    : Result (list Requirement) Pep508Error :=
  match texts with
  | [] => Ok []
  | s :: texts =>
    match Requirement_from_str s with
    | Ok r =>
      match parse_all texts with
      | Ok rs => Ok (r :: rs)
      | Err e => Err e
      end
    | Err e => Err e
    end
  end.

(** The text [as_str] returns for a line built by [from_line]. *)
Definition requirement_text (l : RequirementLine.t) : list Z :=
  ztake (RequirementLine.len l) (Cow_deref (RequirementLine.line l)).

Section collect_facts.
Implicit Types (iter : RequirementsIterator.t) (acc : list Requirement)
  (fuel : nat) (s : list Z).

Lemma parse_line_not_OutOfFuel item : parse_line item ≠ OutOfFuel.
Proof. unfold parse_line. repeat fuel_step. Qed.

(** One step of [collect]. *)
Lemma collect_S fuel iter acc :
  collect (S fuel) iter acc =
  '(item, iter) ← RequirementsIterator.next iter;
  match item with
  | None => Done (Ok acc)
  | Some requirement =>
    s ← RequirementLine.as_str requirement;
    match Requirement_from_str s with
    | Ok r => collect fuel iter (acc ++ [r])
    | Err e => Done (Err e)
    end
  end.
Proof.
  unfold collect. cbn [try_collect iter_next RequirementsIterator.iterator].
  destruct (RequirementsIterator.next iter) as [[[item|] iter']| |]; try done.
  simpl. unfold parse_line. by destruct (RequirementLine.as_str item).
Qed.

(** C27 [from_str] terminates on every text a [str] can hold: it returns a
    collection or an error, or panics, and the fuel of the model is never
    exhausted. *)
Theorem from_str_terminates s : zlen s ≤ isize_MAX → from_str s ≠ OutOfFuel.
Proof.
  intros. unfold from_str. apply bind_not_OutOfFuel; [|done].
  apply (try_collect_terminates parse_line
           (IteratorLaws0 := RequirementsIterator.iterator_laws));
    [apply parse_line_not_OutOfFuel | done |].
  simpl. unfold zlen. lia.
Qed.

(** The lines the iterator yields were built by [from_line]: [as_str]
    returns their text. *)
Lemma drain_as_str fuel iter ls :
  drain fuel iter = Done ls →
  Forall (λ l, RequirementLine.as_str l = Done (requirement_text l)) ls.
Proof.
  revert iter ls. induction fuel as [|fuel IH]; intros iter ls Hd; [done|].
  cbn [drain iter_next RequirementsIterator.iterator] in Hd.
  destruct (RequirementsIterator.next iter) as [[[item|] iter']| |] eqn:Hn;
    simpl in *; try done.
  2:{ simplify_eq. constructor. }
  apply fmap_Done in Hd as (ls' & Hd & ->). constructor; [|by eapply IH].
  destruct (RequirementsIterator.next_fuel_from_line _ _ _ _ Hn) as [cow Hc].
  apply RequirementLine.from_line_Done in Hc as [<- Hb].
  by apply RequirementLine.as_str_boundary.
Qed.

(** Parsing lines whose text [as_str] returns. *)
Lemma try_all_parse_all ls acc :
  Forall (λ l, RequirementLine.as_str l = Done (requirement_text l)) ls →
  try_all parse_line ls acc =
  Done (match parse_all (requirement_text <$> ls) with
        | Ok rs => Ok (acc ++ rs)
        | Err e => Err e
        end).
Proof.
  intros Hl. revert acc. induction Hl as [|l ls Hs _ IH]; intros acc; simpl.
  { by rewrite (right_id_L [] (++)). }
  unfold parse_line. rewrite Hs. simpl.
  destruct (Requirement_from_str _) as [r|e]; [|done].
  rewrite IH. destruct (parse_all _); [|done]. by rewrite <-(assoc_L (++)).
Qed.

(** [collect] parses the lines the iterator yields, in order, after the
    requirements it already holds. *)
Lemma collect_drain fuel iter acc ls :
  drain fuel iter = Done ls →
  collect fuel iter acc =
  Done (match parse_all (requirement_text <$> ls) with
        | Ok rs => Ok (acc ++ rs)
        | Err e => Err e
        end).
Proof.
  intros Hd. unfold collect. rewrite (try_collect_drain _ _ _ _ _ Hd).
  by eapply try_all_parse_all, drain_as_str.
Qed.

(** C13 [from_str] returns what the parser returns on the lines of the
    iterator, taken in order: the vector of all requirements when every
    line parses, and otherwise the error of the first line that does not,
    as the parser gave it. *)
Theorem from_str_drain s ls :
  drain (S (length s)) (RequirementsIterator.new s) = Done ls →
  from_str s =
  Done (match parse_all (requirement_text <$> ls) with
        | Ok rs => Ok {| vec := rs |}
        | Err e => Err e
        end).
Proof.
  intros Hd. unfold from_str. rewrite (collect_drain _ _ _ _ Hd). simpl.
  by destruct (parse_all _).
Qed.



(** On the empty text [from_str] panics in a build with overflow
    checks, where [next] computes [0 - 1]; in a build without it returns
    the empty collection. *)
Theorem from_str_empty :
  from_str [] =
  if overflow_checks then Panicked ArithmeticOverflow
  else Done (Ok {| vec := [] |}).
Proof.
  unfold from_str. rewrite collect_S.
  unfold RequirementsIterator.next, RequirementsIterator.new.
  cbn [RequirementsIterator.next_fuel RequirementsIterator.text
       RequirementsIterator.index length].
  unfold usize_sub. destruct overflow_checks; by vm_compute.
Qed.

(** A text of one byte yields no requirement, whatever the byte: the
    cursor starts on the last byte, which [next] takes for the end. *)
Theorem from_str_single_byte b : from_str [b] = Done (Ok {| vec := [] |}).
Proof.
  unfold from_str. cbn [length]. rewrite collect_S.
  unfold RequirementsIterator.next.
  rewrite RequirementsIterator.next_fuel_at_last_byte by done. done.
Qed.

End collect_facts.

End with_parser.

(** A parser that accepts every line and returns its text: it shows what
    [from_str] hands to the parser. *)
Definition echo_parser : RequirementParser := {|
  Requirement := list Z;
  Pep508Error := Empty_set;
  Requirement_from_str s := Ok s;
|}.

(** A parser that rejects the texts that hold a space, with the text as the
    error: it shows how [from_str] treats errors. *)
Definition strict_parser : RequirementParser := {|
  Requirement := list Z;
  Pep508Error := list Z;
  Requirement_from_str s := if decide (32 ∈ s) then Err s else Ok s;
|}.

Lemma from_str_terminates_witness :
  zlen (bytes "flask==2.0") ≤ isize_MAX
  ∧ @from_str debug_build echo_parser (bytes "flask==2.0") ≠ OutOfFuel.
Proof.
  split; [by vm_compute|].
  apply (@from_str_terminates debug_build echo_parser). by vm_compute.
Defined.

Lemma from_str_drain_witness :
  @drain _ _ (@RequirementsIterator.iterator release_build) (S (length (bytes "a b" ++ [LF] ++ bytes "c" ++ [LF])))
    (RequirementsIterator.new (bytes "a b" ++ [LF] ++ bytes "c" ++ [LF]))
  = Done [ {| RequirementLine.line := Borrowed (bytes "a b"); RequirementLine.len := 3 |};
           {| RequirementLine.line := Borrowed (bytes "c"); RequirementLine.len := 1 |} ]
  ∧ @from_str release_build strict_parser (bytes "a b" ++ [LF] ++ bytes "c" ++ [LF])
    = Done (Err (bytes "a b")).
Proof.
  assert (@drain _ _ (@RequirementsIterator.iterator release_build) (S (length (bytes "a b" ++ [LF] ++ bytes "c" ++ [LF])))
    (RequirementsIterator.new (bytes "a b" ++ [LF] ++ bytes "c" ++ [LF]))
  = Done [ {| RequirementLine.line := Borrowed (bytes "a b"); RequirementLine.len := 3 |};
           {| RequirementLine.line := Borrowed (bytes "c"); RequirementLine.len := 1 |} ])
    as E by (by vm_compute).
  split; [done|]. exact (@from_str_drain release_build strict_parser _ _ E).
Defined.


(** ** The scenarios of the specification and the tests of the crate *)

Section scenarios.
#[local] Existing Instance echo_parser.

(** The text of the test [simple]. *)
Definition simple_text : list Z := bytes "flask==2.0".

(** The test [simple], and scenario 1 of the specification: one
    requirement. *)
Example scenario_simple :
  @from_str debug_build _ simple_text = Done (Ok {| vec := [simple_text] |}).
Proof. by vm_compute. Qed.

(** Scenarios 2 and 5 of the specification, a requirement followed by
    a comment and a URL with a fragment: [from_str] panics in
    [strip_trivia] on both, in every build, where the specification
    expects the requirement with its trailing spaces and the line
    whole. *)
Example scenario_comment_panics :
  ∀ P : BuildProfile,
    @from_str P _ (bytes "pkg==1.0  # a comment" ++ [LF])
      = Panicked SliceIndexOutOfRange
    ∧ @from_str P _ (bytes "pkg @ https://example.com/x#fragment" ++ [LF])
      = Panicked SliceIndexOutOfRange.
Proof. intros [[]]; split; by vm_compute. Qed.

(** Scenario 3 of the specification: a continuation, then a hash line. *)
Example scenario_continuation :
  @from_str debug_build _
    (bytes "pkg==1.0 \" ++ [LF] ++ bytes "    --hash=sha256:abc" ++ [LF])
  = Done (Ok {| vec := [bytes "pkg==1.0     "] |}).
Proof. by vm_compute. Qed.

(** Scenario 4 of the specification: comments and blank lines only. *)
Example scenario_only_trivia :
  @from_str debug_build _ (bytes "# comment" ++ [LF; LF] ++ bytes "   " ++ [LF])
  = Done (Ok {| vec := [] |}).
Proof. by vm_compute. Qed.

(** Scenario 5 of the specification, a URL with a fragment, in a build
    without overflow checks. *)
Example scenario_url_fragment_panics :
  @from_str release_build _
    (bytes "pkg @ https://example.com/x#fragment" ++ [LF])
  = Panicked SliceIndexOutOfRange.
Proof. by vm_compute. Qed.

(** Line endings [\r\n], [\r] and [\n] in one text. *)
Example scenario_mixed_endings :
  @from_str debug_build _
    (bytes "a" ++ [CR; LF] ++ bytes "b" ++ [CR] ++ bytes "c" ++ [LF]
     ++ bytes "dd" ++ [LF])
  = Done (Ok {| vec := [bytes "a"; bytes "b"; bytes "c"; bytes "dd"] |}).
Proof. by vm_compute. Qed.

(** A last line of one byte that no line break ends is lost: of the
    text [a\nb] only [a] is returned. *)
Example scenario_last_byte_lost :
  @from_str debug_build _ (bytes "a" ++ [LF] ++ bytes "b")
  = Done (Ok {| vec := [bytes "a"] |}).
Proof. by vm_compute. Qed.

(** A continuation whose last line no line break ends is not joined:
    the lines before it form one requirement and the last line another. *)
Example scenario_open_continuation :
  @from_str debug_build _ (bytes "a \" ++ [LF] ++ bytes "bc")
  = Done (Ok {| vec := [bytes "a "; bytes "bc"] |}).
Proof. by vm_compute. Qed.

(** Comment and blank lines are dropped where a logical line starts, not
    inside a continuation (the second open question of the
    specification): a comment line after a lone backslash is the text of
    a requirement, a blank line ends the chain it follows, and a comment
    after the text of a continued line makes [strip_trivia] panic as on
    one line. *)
Example scenario_comment_in_continuation :
  @from_str debug_build _ (bytes "\" ++ [LF] ++ bytes "#b" ++ [LF])
  = Done (Ok {| vec := [bytes "#b"] |})
  ∧ @from_str debug_build _ (bytes "a \" ++ [LF] ++ [LF] ++ bytes "b" ++ [LF])
    = Done (Ok {| vec := [bytes "a "; bytes "b"] |})
  ∧ @from_str debug_build _ (bytes "a \" ++ [LF] ++ bytes "# b" ++ [LF])
    = Panicked SliceIndexOutOfRange.
Proof. split_and!; by vm_compute. Qed.

(** Text that is not ASCII: a requirement with a two-byte char is
    returned whole, and a line that holds only U+3000, the ideographic
    space, is blank. *)
Example scenario_unicode :
  @from_str debug_build _
    (bytes "caf" ++ [195; 169] ++ bytes "==1" ++ [LF] ++ [227; 128; 128] ++ [LF]
     ++ bytes "x" ++ [LF])
  = Done (Ok {| vec := [bytes "caf" ++ [195; 169] ++ bytes "==1"; bytes "x"] |}).
Proof. by vm_compute. Qed.



End scenarios.
