(* ===== verification/LineSpec.v ===== *)
(** * The specification of the line splitter

    What the iterator is meant to yield, said without a cursor: the text is
    cut into physical lines at its line breaks ([split_lines], with
    [unsplit] as its inverse), comment and blank lines are dropped, and the
    lines of a continuation are joined.  [logical_lines] is the sequence of
    the specification, its rules 3 to 6 applied line by line ([spec_lines]:
    the last physical line, which no line break ends, is never continued
    and ends the continuation that reaches it; the edge case policy for a
    chain that begins with a comment is in [Conformance]);
    [iterator_lines] is the sequence the code yields ([logical_from],
    then [tail_line] for the text after the last line break).  The two
    agree exactly on the texts of [ends_cleanly].  The file [Refinement]
    proves that [RequirementsIterator::next] yields [iterator_lines]. *)

From Stdlib Require Import ZArith Lia.
From stdpp Require Import base tactics option list numbers strings sets.
From S2P Require Import Prelude Utf8 RustStr Chars Trivia Lines.

#[local] Open Scope Z_scope.

(** ** Physical lines *)

(** The three line breaks: [\n], [\r\n] and a lone [\r]. *)
Inductive line_break : Type := Lf | CrLf | Cr.

#[export] Instance line_break_eq_dec : EqDecision line_break.
Proof. solve_decision. Defined.

Definition break_bytes (k : line_break) : list Z :=
  match k with
  | Lf => [LF]
  | CrLf => [CR; LF]
  | Cr => [CR]
  end.

(** A physical line: its content and the line break that ends it. *)
Definition physical_line : Type := list Z * line_break.

(** The text of a sequence of physical lines, followed by [tail], the text
    after the last line break. *)
Fixpoint unsplit (ls : list physical_line) (tail : list Z) : list Z :=
  match ls with
  | [] => tail
  | (l, k) :: ls => l ++ break_bytes k ++ unsplit ls tail
  end.

(** One byte in front of a text already split: a [\n] starts a new line, a
    [\r] too, unless it is followed by a [\n]; another byte goes in front of
    the first line. *)
Definition push (b : Z) (r : list physical_line * list Z)
    : list physical_line * list Z :=
  let '(ls, tail) := r in
  if decide (b = LF) then (([], Lf) :: ls, tail)
  else if decide (b = CR) then
    match ls with
    | ([], Lf) :: ls' => (([], CrLf) :: ls', tail)
    | _ => (([], Cr) :: ls, tail)
    end
  else
    match ls with
    | [] => ([], b :: tail)
    | (l, k) :: ls' => ((b :: l, k) :: ls', tail)
    end.

(** The physical lines of a text, and the text after its last line
    break. *)
Definition split_lines (text : list Z) : list physical_line * list Z :=
  foldr push ([], []) text.

(** The sequences [split_lines] returns: no line holds a line break, and a
    lone [\r] is not followed by a [\n]. *)
Fixpoint wf_lines (ls : list physical_line) (tail : list Z) : Prop :=
  match ls with
  | [] => no_break tail
  | (l, k) :: ls =>
    no_break l ∧ (k = Cr → head (unsplit ls tail) ≠ Some LF) ∧ wf_lines ls tail
  end.

#[export] Instance wf_lines_dec ls tail : Decision (wf_lines ls tail).
Proof. induction ls as [|[l k] ls IH]; simpl; apply _. Defined.

(** ** Logical lines *)

(** A line whose first char after leading whitespace is [#]. *)
Definition is_comment (l : list Z) : bool := starts_with (trim_start l) HASH.

(** A line of whitespace only. *)
Definition is_blank (l : list Z) : bool := is_empty (trim l).

(** A line that ends in a backslash. *)
Definition is_continued (l : list Z) : bool :=
  bool_decide (last l = Some BACKSLASH).

(** A continued line without its backslash. *)
Definition before_backslash (l : list Z) : list Z := ztake (zlen l - 1) l.

(** The logical lines of a sequence of physical lines.  [pending] holds the
    lines of a continuation joined so far.  Comment and blank lines are
    dropped where a logical line starts, not inside a continuation. *)
Fixpoint logical_from (pending : option (list Z)) (ls : list (list Z))
    : list Cow :=
  match ls with
  | [] =>
    match pending with
    | Some line => [Owned line]
    | None => []
    end
  | l :: ls =>
    match pending with
    | Some line =>
      if is_continued l then logical_from (Some (line ++ before_backslash l)) ls
      else Owned (line ++ l) :: logical_from None ls
    | None =>
      if is_comment l || is_blank l then logical_from None ls
      else if is_continued l then logical_from (Some (before_backslash l)) ls
      else Borrowed l :: logical_from None ls
    end
  end.

(** The loop of a continuation, on the physical lines that follow it: the
    joined line and the lines left. *)
Fixpoint eat_spec (line : list Z) (ls : list physical_line)
    : list Z * list physical_line :=
  match ls with
  | [] => (line, [])
  | (l, _) :: ls =>
    if is_continued l then eat_spec (line ++ before_backslash l) ls
    else (line ++ l, ls)
  end.

(** The first logical line of a sequence of physical lines, and the lines
    left after it. *)
Fixpoint next_spec (ls : list physical_line)
    : option (Cow * list physical_line) :=
  match ls with
  | [] => None
  | (l, _) :: ls =>
    if is_comment l || is_blank l then next_spec ls
    else if is_continued l then
      let '(line, ls) := eat_spec (before_backslash l) ls in
      Some (Owned line, ls)
    else Some (Borrowed l, ls)
  end.

(** The continuation left open at the end of a sequence of physical
    lines: the lines joined so far, when the last of them ends in a
    backslash. *)
Fixpoint pending_after (pending : option (list Z)) (ls : list (list Z))
    : option (list Z) :=
  match ls with
  | [] => pending
  | l :: ls =>
    match pending with
    | Some line =>
      if is_continued l then pending_after (Some (line ++ before_backslash l)) ls
      else pending_after None ls
    | None =>
      if is_comment l || is_blank l then pending_after None ls
      else if is_continued l then pending_after (Some (before_backslash l)) ls
      else pending_after None ls
    end
  end.

(** The logical lines of the specification.  [ls] are the physical lines
    that a line break ends and [tail] is the last physical line, the text
    after the last line break: no line break follows it, so that it is
    never continued, and it ends the continuation that reaches it. *)
Fixpoint spec_lines (pending : option (list Z)) (ls : list (list Z))
    (tail : list Z) : list Cow :=
  match ls with
  | [] =>
    match pending with
    | Some line => [Owned (line ++ tail)]
    | None => if is_comment tail || is_blank tail then [] else [Borrowed tail]
    end
  | l :: ls =>
    match pending with
    | Some line =>
      if is_continued l then spec_lines (Some (line ++ before_backslash l)) ls tail
      else Owned (line ++ l) :: spec_lines None ls tail
    | None =>
      if is_comment l || is_blank l then spec_lines None ls tail
      else if is_continued l then spec_lines (Some (before_backslash l)) ls tail
      else Borrowed l :: spec_lines None ls tail
    end
  end.

(** The logical lines of a text. *)
Definition logical_lines (text : list Z) : list Cow :=
  let '(ls, tail) := split_lines text in
  spec_lines None ls.*1 tail.

(** What the code makes of the text after the last line break: nothing
    when it is one byte, a comment or blank, and a line of its own
    otherwise, also after a continuation. *)
Definition tail_line (tail : list Z) : list Cow :=
  if decide (zlen tail = 1) then []
  else if is_comment tail || is_blank tail then []
  else [Borrowed tail].

(** The lines the iterator yields. *)
Definition iterator_lines (text : list Z) : list Cow :=
  let '(ls, tail) := split_lines text in
  logical_from None ls.*1 ++ tail_line tail.

(** The texts on which the code and the specification agree: no text
    follows the last line break, or no continuation reaches the text that
    follows and this text is not a requirement of one byte. *)
Definition ends_cleanly (text : list Z) : Prop :=
  let '(ls, tail) := split_lines text in
  tail = []
  ∨ (pending_after None ls.*1 = None
     ∧ (zlen tail ≠ 1 ∨ is_comment tail || is_blank tail = true)).

#[export] Instance ends_cleanly_dec text : Decision (ends_cleanly text).
Proof. unfold ends_cleanly. destruct (split_lines text) as [ls tail]. apply _. Defined.

(** The text with every line break replaced by [\n]. *)
Definition normalize_breaks (text : list Z) : list Z :=
  let '(ls, tail) := split_lines text in
  unsplit ((λ p, (p.1, Lf)) <$> ls) tail.

(** Two texts with the same lines: they differ in the kind of their line
    breaks only. *)
Definition same_lines (text1 text2 : list Z) : Prop :=
  (split_lines text1).1.*1 = (split_lines text2).1.*1
  ∧ (split_lines text1).2 = (split_lines text2).2.

#[export] Instance same_lines_dec text1 text2 : Decision (same_lines text1 text2).
Proof. unfold same_lines. apply _. Defined.

#[export] Instance same_lines_equivalence : Equivalence same_lines.
Proof.
  unfold same_lines. split.
  - by intros text.
  - by intros text1 text2 [-> ->].
  - by intros text1 text2 text3 [-> ->] [-> ->].
Qed.

(** ** Splitting: lemmas *)

Section split_facts.
Implicit Types (text l tail : list Z) (ls : list physical_line)
  (k : line_break) (b : Z).

Lemma break_bytes_length k : 1 ≤ zlen (break_bytes k) ≤ 2.
Proof. by destruct k. Qed.

Lemma break_bytes_head k :
  ∃ b r, break_bytes k = b :: r ∧ (b = LF ∨ b = CR).
Proof. destruct k; simpl; eauto. Qed.

Lemma unsplit_push b ls tail :
  unsplit (push b (ls, tail)).1 (push b (ls, tail)).2 = b :: unsplit ls tail.
Proof.
  unfold push. repeat case_decide; subst; try done.
  - by destruct ls as [|[[|??] []] ?].
  - by destruct ls as [|[??] ?].
Qed.

Lemma split_lines_cons b text : split_lines (b :: text) = push b (split_lines text).
Proof. done. Qed.

(** [unsplit] undoes [split_lines]. *)
Lemma unsplit_split_lines text :
  unsplit (split_lines text).1 (split_lines text).2 = text.
Proof.
  induction text as [|b text IH]; [done|]. rewrite split_lines_cons.
  destruct (split_lines text) as [ls tail]. rewrite unsplit_push.
  by rewrite <-IH.
Qed.

Lemma split_lines_app l text :
  split_lines (l ++ text) = foldr push (split_lines text) l.
Proof. apply foldr_app. Qed.

(** A byte that is not a line break goes in front of the first line. *)
Lemma push_content l b ls tail k :
  b ≠ LF → b ≠ CR → push b ((l, k) :: ls, tail) = ((b :: l, k) :: ls, tail).
Proof. intros. unfold push. by rewrite !decide_False. Qed.

Lemma push_tail b tail :
  b ≠ LF → b ≠ CR → push b ([], tail) = ([], b :: tail).
Proof. intros. unfold push. by rewrite !decide_False. Qed.

Lemma foldr_push_content l l' k ls tail :
  no_break l → foldr push ((l', k) :: ls, tail) l = ((l ++ l', k) :: ls, tail).
Proof.
  induction 1 as [|b l [??] _ IH]; [done|]. simpl. rewrite IH.
  by apply push_content.
Qed.

Lemma foldr_push_tail l tail :
  no_break l → foldr push ([], tail) l = ([], l ++ tail).
Proof.
  induction 1 as [|b l [??] _ IH]; [done|]. simpl. rewrite IH.
  by apply push_tail.
Qed.

(** A line break in front of a text already split. *)
Lemma foldr_push_break k ls tail :
  (k = Cr → head (unsplit ls tail) ≠ Some LF) →
  foldr push (split_lines (unsplit ls tail)) (break_bytes k)
  = (([], k) :: (split_lines (unsplit ls tail)).1, (split_lines (unsplit ls tail)).2).
Proof.
  intros Hk. pose proof (unsplit_split_lines (unsplit ls tail)) as Hu.
  destruct (split_lines (unsplit ls tail)) as [ls' tail'].
  destruct k; simpl; try done. specialize (Hk eq_refl).
  destruct ls' as [|[[|??] []] ?]; try done.
  simpl in Hu. by rewrite <-Hu in Hk.
Qed.

(** [split_lines] undoes [unsplit] on well-formed lines: the physical
    lines of a text are unique. *)
Lemma split_lines_unsplit ls tail :
  wf_lines ls tail → split_lines (unsplit ls tail) = (ls, tail).
Proof.
  induction ls as [|[l k] ls IH]; simpl.
  - intros Ht. unfold split_lines.
    by rewrite foldr_push_tail, (right_id_L [] (++)).
  - intros (Hl & Hk & Hls). rewrite !split_lines_app, foldr_push_break by done.
    rewrite (IH Hls). simpl.
    by rewrite foldr_push_content, (right_id_L [] (++)).
Qed.

Lemma no_break_head l b : no_break l → head l = Some b → b ≠ LF ∧ b ≠ CR.
Proof. destruct 1; naive_solver. Qed.

Lemma push_wf b ls tail :
  wf_lines ls tail → wf_lines (push b (ls, tail)).1 (push b (ls, tail)).2.
Proof.
  intros Hw. unfold push. repeat case_decide; subst.
  - simpl. split_and!; [constructor | done | done].
  - destruct ls as [|[[|c l] k] ls]; simpl in *.
    + split; [constructor | split; [|done]].
      intros _ ?. by destruct (no_break_head tail LF Hw) as [? _].
    + destruct k; (split; [constructor | split; [|naive_solver]]); naive_solver.
    + split; [constructor | split; [|done]].
      intros _ ?. destruct Hw as (Hl & _).
      by destruct (no_break_head _ LF Hl) as [? _].
  - destruct ls as [|[l k] ls]; simpl in *; [by constructor|].
    destruct Hw as (? & ? & ?). split; [by constructor | done].
Qed.

(** The lines [split_lines] returns are well formed. *)
Lemma split_lines_wf text :
  wf_lines (split_lines text).1 (split_lines text).2.
Proof.
  induction text as [|b text IH]; [constructor|]. rewrite split_lines_cons.
  destruct (split_lines text). by apply push_wf.
Qed.

(** The well-formed sequences with [\n] for every line break. *)
Lemma wf_lines_lf ls tail :
  wf_lines ls tail → wf_lines ((λ p, (p.1, Lf)) <$> ls) tail.
Proof.
  induction ls as [|[l k] ls IH]; simpl; [done|]. intros (? & _ & ?). auto.
Qed.

Lemma split_lines_normalize text :
  split_lines (normalize_breaks text)
  = ((λ p, (p.1, Lf)) <$> (split_lines text).1, (split_lines text).2).
Proof.
  unfold normalize_breaks. pose proof (split_lines_wf text) as Hw.
  destruct (split_lines text) as [ls tail].
  by apply split_lines_unsplit, wf_lines_lf.
Qed.

(** Bytes in front of a line leave the text after the last line break as
    it is. *)
Lemma foldr_push_nonempty l ls tail :
  ls ≠ [] →
  (foldr push (ls, tail) l).1 ≠ [] ∧ (foldr push (ls, tail) l).2 = tail.
Proof.
  intros Hne. induction l as [|b l [IH1 IH2]]; simpl; [done|].
  destruct (foldr push (ls, tail) l) as [ls' tail']. simpl in *. subst tail'.
  unfold push. repeat case_match; naive_solver.
Qed.

(** Lines after the lines of a text already split are left as they
    are. *)
Lemma foldr_push_app l ls ls' tail :
  ls ≠ [] →
  foldr push (ls ++ ls', tail) l = ((foldr push (ls, []) l).1 ++ ls', tail).
Proof.
  intros Hne. induction l as [|b l IH]; simpl; [done|]. rewrite IH.
  pose proof (foldr_push_nonempty l ls [] Hne) as [Hn _].
  destruct (foldr push (ls, []) l) as [[|[l0 k0] ls0] tail0]; [done|].
  unfold push. simpl. repeat case_match; by simplify_eq/=.
Qed.

(** The lines of two texts, the first of which ends in [\n]. *)
Lemma split_lines_app_lf text1 text2 :
  last text1 = Some LF →
  split_lines (text1 ++ text2)
  = ((split_lines text1).1 ++ (split_lines text2).1, (split_lines text2).2).
Proof.
  destruct text1 as [|b text1 _] using rev_ind; [done|]. rewrite last_snoc.
  intros [= ->]. rewrite <-(assoc_L (++)), !split_lines_app.
  destruct (split_lines text2) as [ls2 tail2].
  change (foldr push (ls2, tail2) [LF]) with ([([], Lf)] ++ ls2, tail2).
  by rewrite foldr_push_app.
Qed.

(** The text ends in a line break: nothing follows its last line. *)
Lemma split_lines_terminated text b :
  b = LF ∨ b = CR → (split_lines (text ++ [b])).2 = [].
Proof.
  intros Hb. rewrite split_lines_app.
  assert (∃ k, split_lines [b] = ([([], k)], [])) as [k ->].
  { destruct Hb as [-> | ->]; by eexists. }
  by apply foldr_push_nonempty.
Qed.

Lemma utf8_break_bytes k : utf8 (break_bytes k).
Proof.
  apply utf8_all_ascii.
  destruct k; simpl; rewrite !Forall_cons, Forall_nil; unfold is_ascii, LF, CR; lia.
Qed.

Lemma utf8_unsplit_cons l k ls tail :
  utf8 (unsplit ((l, k) :: ls) tail) →
  utf8 l ∧ utf8 (break_bytes k ++ unsplit ls tail) ∧ utf8 (unsplit ls tail).
Proof.
  assert (is_ascii LF ∧ is_ascii CR) as [??] by (unfold is_ascii, LF, CR; lia).
  simpl. destruct k; simpl; intros [? Hr]%utf8_app_ascii_inv; try done.
  - split_and!; [done | by apply utf8_cons_ascii | done].
  - split_and!; [done | by apply utf8_cons_ascii |].
    by apply (utf8_cons_ascii_inv LF).
  - split_and!; [done | by apply utf8_cons_ascii | done].
Qed.

Lemma utf8_unsplit_lf ls tail :
  utf8 (unsplit ls tail) → utf8 (unsplit ((λ p, (p.1, Lf)) <$> ls) tail).
Proof.
  induction ls as [|[l k] ls IH]; [done|].
  intros (Hl & _ & Hr)%utf8_unsplit_cons. simpl.
  apply utf8_app; [done|]. apply utf8_cons_ascii; [|auto].
  unfold is_ascii, LF. lia.
Qed.

Lemma utf8_normalize_breaks text : utf8 text → utf8 (normalize_breaks text).
Proof.
  intros Hu. rewrite <-(unsplit_split_lines text) in Hu. unfold normalize_breaks.
  destruct (split_lines text). by apply utf8_unsplit_lf.
Qed.

Lemma zlen_unsplit_lf ls tail :
  zlen (unsplit ((λ p, (p.1, Lf)) <$> ls) tail) ≤ zlen (unsplit ls tail)
  ∧ (0 < zlen (unsplit ls tail)
     → 0 < zlen (unsplit ((λ p, (p.1, Lf)) <$> ls) tail)).
Proof.
  induction ls as [|[l k] ls [IH _]]; [simpl; lia|].
  rewrite fmap_cons. cbn [unsplit fst break_bytes].
  rewrite !zlen_app, !zlen_cons, (zlen_nil Z).
  pose proof (break_bytes_length k). zlia.
Qed.

(** Replacing the line breaks does not make the text longer, nor empty. *)
Lemma zlen_normalize_breaks text :
  zlen (normalize_breaks text) ≤ zlen text
  ∧ (0 < zlen text → 0 < zlen (normalize_breaks text)).
Proof.
  rewrite <-(unsplit_split_lines text) at 2 3. unfold normalize_breaks.
  destruct (split_lines text). apply zlen_unsplit_lf.
Qed.

Lemma zlen_unsplit ls tail :
  zlen (unsplit ls tail)
  = foldr (λ '(l, k) n, zlen l + zlen (break_bytes k) + n) (zlen tail) ls.
Proof.
  induction ls as [|[l k] ls IH]; simpl; [done|]. rewrite !zlen_app. lia.
Qed.

(** [find_newline] on the text of a sequence of physical lines: the
    length of the first line and the width of its line break. *)
Lemma find_newline_unsplit l k ls tail :
  wf_lines ((l, k) :: ls) tail →
  zlen (unsplit ((l, k) :: ls) tail) ≤ isize_MAX →
  find_newline (l ++ break_bytes k ++ unsplit ls tail)
  = Some (zlen l, zlen (break_bytes k)).
Proof.
  intros (Hl & Hk & _) Hlen. simpl in *.
  destruct k; simpl in *; rewrite find_newline_app by auto;
    unfold break_width; f_equal; f_equal; case_decide; naive_solver.
Qed.

(** C25 [find_newline] finds the first physical line: it returns the
    length of the first line of [split_lines] and the width of the line
    break that ends it, and [None] when the text has no line break. *)
Theorem find_newline_split_lines text :
  zlen text ≤ isize_MAX →
  find_newline text =
  match (split_lines text).1 with
  | (l, k) :: _ => Some (zlen l, zlen (break_bytes k))
  | [] => None
  end.
Proof.
  intros Hlen. pose proof (split_lines_wf text) as Hw.
  rewrite <-(unsplit_split_lines text) in Hlen |- * at 1.
  destruct (split_lines text) as [[|[l k] ls] tail]; simpl in Hw |- *.
  - by apply find_newline_None.
  - by apply find_newline_unsplit.
Qed.

End split_facts.

Lemma find_newline_split_lines_witness :
  find_newline (bytes "ab" ++ [CR; LF] ++ bytes "c" ++ [LF])
  = match (split_lines (bytes "ab" ++ [CR; LF] ++ bytes "c" ++ [LF])).1 with
    | (l, k) :: _ => Some (zlen l, zlen (break_bytes k))
    | [] => None
    end.
Proof. apply find_newline_split_lines. by vm_compute. Defined.

(** ** Logical lines: lemmas *)

Section logical_facts.
Implicit Types (text l line tail : list Z) (ls used : list physical_line)
  (k : line_break) (cow : Cow).

Lemma unsplit_app used ls tail :
  unsplit (used ++ ls) tail = unsplit used [] ++ unsplit ls tail.
Proof.
  induction used as [|[l k] used IH]; simpl; [done|].
  by rewrite IH, <-!(assoc_L (++)).
Qed.

(** A continued line is the text before its backslash, and the
    backslash. *)
Lemma is_continued_snoc l :
  is_continued l = true → l = before_backslash l ++ [BACKSLASH].
Proof.
  unfold is_continued, before_backslash. rewrite bool_decide_eq_true.
  destruct l as [|b l _] using rev_ind; [done|]. rewrite last_snoc.
  intros [= ->]. rewrite zlen_app, zlen_cons, zlen_nil.
  by rewrite ztake_app_le, ztake_all by lia.
Qed.

Lemma is_continued_nil : is_continued [] = false.
Proof. done. Qed.

(** A blank line: its trimmed text is empty, whatever the trimming of its
    start leaves. *)
Lemma is_blank_trim_start l : trim_start l = [] → is_blank l = true.
Proof. intros E. unfold is_blank. by rewrite trim_start_nil_trim. Qed.

Lemma is_blank_nil : is_blank [] = true.
Proof. done. Qed.

(** The two tests on the chars of the line: a blank line holds whitespace
    only, and the first char of a comment line that is not whitespace is
    [#]. *)
Lemma is_blank_chars l :
  utf8 l → is_blank l = true ↔ Forall (λ c, is_whitespace c = true) (chars l).
Proof. apply trim_is_empty. Qed.

Lemma is_comment_chars l :
  utf8 l →
  is_comment l = true ↔ head (drop_while is_whitespace (chars l)) = Some HASH.
Proof.
  intros. unfold is_comment.
  by rewrite trim_start_starts_with, bool_decide_eq_true by done.
Qed.

(** No line is both: the order of the two tests of [next] does not
    matter. *)
Lemma is_comment_not_blank l :
  utf8 l → is_comment l = true → is_blank l = false.
Proof.
  intros Hl Hc%is_comment_chars; [|done]. apply not_true_is_false.
  intros Hb%is_blank_chars%drop_while_nil; [|done]. by rewrite Hb in Hc.
Qed.

(** The loop of a continuation uses up lines from the front. *)
Lemma eat_spec_suffix line ls :
  ∃ used, ls = used ++ (eat_spec line ls).2.
Proof.
  revert line. induction ls as [|[l k] ls IH]; intros line; simpl.
  { by exists []. }
  destruct (is_continued l).
  - destruct (IH (line ++ before_backslash l)) as [used Hu].
    exists ((l, k) :: used). simpl. by rewrite <-Hu.
  - by exists [(l, k)].
Qed.

(** A logical line uses up at least one physical line, from the front. *)
Lemma next_spec_suffix ls cow ls' :
  next_spec ls = Some (cow, ls') → ∃ used, ls = used ++ ls' ∧ used ≠ [].
Proof.
  induction ls as [|[l k] ls IH]; simpl; [done|].
  destruct (is_comment l || is_blank l).
  { intros (used & -> & _)%IH. by exists ((l, k) :: used). }
  destruct (is_continued l); [|intros [= <- <-]; by exists [(l, k)]].
  destruct (eat_spec_suffix (before_backslash l) ls) as [used Hu].
  destruct (eat_spec _ ls) as [line ls'']. intros [= <- <-]. simpl in Hu.
  exists ((l, k) :: used). by rewrite Hu at 1.
Qed.

(** The lines of a continuation, then the logical lines that follow. *)
Lemma logical_from_eat_spec line ls :
  logical_from (Some line) ls.*1
  = Owned (eat_spec line ls).1 :: logical_from None (eat_spec line ls).2.*1.
Proof.
  revert line. induction ls as [|[l k] ls IH]; intros line; simpl; [done|].
  destruct (is_continued l); [apply IH | done].
Qed.

(** The logical lines, one [next_spec] at a time. *)
Lemma logical_from_next_spec ls :
  logical_from None ls.*1 =
  match next_spec ls with
  | Some (cow, ls') => cow :: logical_from None ls'.*1
  | None => []
  end.
Proof.
  induction ls as [|[l k] ls IH]; simpl; [done|].
  destruct (is_comment l || is_blank l); [done|].
  destruct (is_continued l); [|done].
  rewrite logical_from_eat_spec. by destruct (eat_spec _ ls).
Qed.

Lemma tail_line_nil : tail_line [] = [].
Proof. done. Qed.

Lemma tail_line_cases tail :
  tail_line tail = [] ∨ tail_line tail = [Borrowed tail].
Proof. unfold tail_line. repeat case_match; auto. Qed.

(** Bytes that are not line breaks, after the text, go after its last
    line break. *)
Lemma foldr_push_snoc text t :
  foldr push ([], t) text = ((split_lines text).1, (split_lines text).2 ++ t).
Proof.
  induction text as [|b text IH]; [done|]. rewrite split_lines_cons. simpl.
  rewrite IH. destruct (split_lines text) as [ls tail]. unfold push. simpl.
  repeat case_match; simplify_eq/=; done.
Qed.

Lemma split_lines_snoc text b :
  b ≠ LF → b ≠ CR →
  split_lines (text ++ [b]) = ((split_lines text).1, (split_lines text).2 ++ [b]).
Proof.
  intros. rewrite split_lines_app.
  replace (split_lines [b]) with (@nil physical_line, [b]); [apply foldr_push_snoc|].
  unfold split_lines. cbn [foldr]. by rewrite push_tail.
Qed.

(** One byte after the last line break is lost: the text yields the lines
    it yields without it. *)
Lemma iterator_lines_last_byte text b :
  (split_lines text).2 = [] → b ≠ LF → b ≠ CR →
  iterator_lines (text ++ [b]) = iterator_lines text.
Proof.
  intros Ht ? ?. unfold iterator_lines. rewrite split_lines_snoc by done.
  destruct (split_lines text) as [ls tail]. simpl in *. subst tail. simpl.
  unfold tail_line. by rewrite decide_True.
Qed.

(** The logical lines of two sequences of physical lines, when no
    continuation is open at the end of the first. *)
Lemma logical_from_app pending (cs cs' : list (list Z)) :
  pending_after pending cs = None →
  logical_from pending (cs ++ cs') = logical_from pending cs ++ logical_from None cs'.
Proof.
  revert pending. induction cs as [|l cs IH]; intros pending; simpl.
  - by intros ->.
  - destruct pending; repeat case_match; intros Hp; simpl; by rewrite IH.
Qed.

(** The lines of two texts one after the other, when the first ends in
    [\n] and not inside a continuation. *)
Lemma iterator_lines_app text1 text2 :
  last text1 = Some LF → pending_after None (split_lines text1).1.*1 = None →
  iterator_lines (text1 ++ text2) = iterator_lines text1 ++ iterator_lines text2.
Proof.
  intros Hl Hp. unfold iterator_lines. rewrite split_lines_app_lf by done.
  assert ((split_lines text1).2 = []) as Ht.
  { destruct text1 as [|b text1 _] using rev_ind; [done|].
    rewrite last_snoc in Hl. apply split_lines_terminated. left. congruence. }
  destruct (split_lines text1) as [ls1 tail1], (split_lines text2) as [ls2 tail2].
  simpl in *. subst tail1.
  by rewrite fmap_app, logical_from_app, tail_line_nil, (right_id_L [] (++)),
    (assoc_L (++)) by done.
Qed.

(** The lines of the code are the lines of the specification exactly
    when no text follows the last line break, or no continuation reaches
    the text that follows and this text is not a requirement of one
    byte. *)
Lemma spec_lines_logical_from pending (cs : list (list Z)) tail :
  spec_lines pending cs tail = logical_from pending cs ++ tail_line tail
  ↔ tail = []
    ∨ (pending_after pending cs = None
       ∧ (zlen tail ≠ 1 ∨ is_comment tail || is_blank tail = true)).
Proof.
  revert pending. induction cs as [|l cs IH]; intros pending; simpl.
  - unfold tail_line. destruct pending as [line|]; simpl.
    + split; [|by intros [->|[[=] _]]; rewrite (right_id_L [] (++))].
      intros [= E]. left. apply (inj (app line)). by rewrite (right_id_L [] (++)).
    + destruct (is_comment tail || is_blank tail) eqn:E;
        case_decide; naive_solver.
  - destruct pending; repeat case_match; rewrite <-?IH; try done;
      (split; [by intros [= ?] | by intros ->]).
Qed.

Lemma iterator_lines_logical_lines text :
  iterator_lines text = logical_lines text ↔ ends_cleanly text.
Proof.
  unfold ends_cleanly, iterator_lines, logical_lines.
  destruct (split_lines text) as [ls tail].
  rewrite <-spec_lines_logical_from. split; by intros ->.
Qed.

(** The logical lines do not depend on the kind of the line breaks. *)
#[global] Instance iterator_lines_proper : Proper (same_lines ==> (=)) iterator_lines.
Proof.
  intros text1 text2. unfold same_lines, iterator_lines.
  destruct (split_lines text1), (split_lines text2). cbn [fst snd]. by intros [-> ->].
Qed.

#[global] Instance logical_lines_proper : Proper (same_lines ==> (=)) logical_lines.
Proof.
  intros text1 text2. unfold same_lines, logical_lines.
  destruct (split_lines text1), (split_lines text2). cbn [fst snd]. by intros [-> ->].
Qed.

#[global] Instance ends_cleanly_proper : Proper (same_lines ==> iff) ends_cleanly.
Proof.
  intros text1 text2. unfold same_lines, ends_cleanly.
  destruct (split_lines text1), (split_lines text2). cbn [fst snd]. by intros [-> ->].
Qed.

Lemma same_lines_normalize text : same_lines (normalize_breaks text) text.
Proof.
  unfold same_lines. rewrite split_lines_normalize. simpl.
  by rewrite <-list_fmap_compose.
Qed.

Lemma iterator_lines_normalize text :
  iterator_lines (normalize_breaks text) = iterator_lines text.
Proof. by rewrite same_lines_normalize. Qed.

Lemma logical_lines_normalize text :
  logical_lines (normalize_breaks text) = logical_lines text.
Proof. by rewrite same_lines_normalize. Qed.

(** Comment and blank lines give no logical line. *)
Lemma logical_from_trivia (cs : list (list Z)) :
  Forall (λ l, is_comment l || is_blank l = true) cs →
  logical_from None cs = [].
Proof. induction 1 as [|l cs Hl _ IH]; simpl; [done|]. by rewrite Hl. Qed.

(** A line that starts with [#] is a comment. *)
Lemma is_comment_head l : head l = Some HASH → is_comment l = true.
Proof.
  destruct l as [|b l]; intros [= ->]. unfold is_comment.
  by rewrite trim_start_cons_ascii.
Qed.

(** The borrowed logical lines are physical lines that are neither
    comments, nor blank, nor continued. *)
Lemma logical_from_borrowed pending (cs : list (list Z)) l :
  Borrowed l ∈ logical_from pending cs →
  l ∈ cs ∧ is_comment l = false ∧ is_blank l = false ∧ is_continued l = false.
Proof.
  revert pending. induction cs as [|l' cs IH]; intros pending; simpl.
  { destruct pending; intros; decompose_list_elem_of; done. }
  destruct pending as [line|].
  - destruct (is_continued l'); [|intros [[=]|?]%elem_of_cons];
      set_solver.
  - destruct (is_comment l' || is_blank l') eqn:E; [set_solver|].
    apply orb_false_elim in E as [??].
    destruct (is_continued l') eqn:E'; [set_solver|].
    intros [[= ->]|?]%elem_of_cons; set_solver.
Qed.

(** The bytes of the logical lines are bytes of the physical lines. *)
Lemma logical_from_bytes pending (cs : list (list Z)) cow b :
  cow ∈ logical_from pending cs → b ∈ Cow_deref cow →
  b ∈ default [] pending ++ concat cs.
Proof.
  revert pending. induction cs as [|l cs IH]; intros pending; simpl.
  { destruct pending; set_solver. }
  assert (∀ x, x ∈ before_backslash l → x ∈ l) by apply elem_of_ztake.
  destruct pending as [line|]; repeat case_match; intros Hc Hb;
    try (apply elem_of_cons in Hc as [->|Hc]; [set_solver|]);
    specialize (IH _ Hc Hb); set_solver.
Qed.

Lemma elem_of_unsplit ls tail b :
  b ∈ concat ls.*1 ++ tail → b ∈ unsplit ls tail.
Proof.
  induction ls as [|[l k] ls IH]; [done|].
  rewrite fmap_cons. cbn [concat unsplit fst]. set_solver.
Qed.

(** The bytes of the lines the iterator yields are bytes of the text. *)
Lemma iterator_lines_bytes text cow b :
  cow ∈ iterator_lines text → b ∈ Cow_deref cow → b ∈ text.
Proof.
  unfold iterator_lines. rewrite <-(unsplit_split_lines text) at 2.
  destruct (split_lines text) as [ls tail]. simpl.
  intros [Hc|Hc]%elem_of_app Hb; apply elem_of_unsplit, elem_of_app.
  - left. apply (logical_from_bytes _ _ _ _ Hc Hb).
  - destruct (tail_line_cases tail) as [Et|Et]; rewrite Et in Hc; set_solver.
Qed.

(** The logical lines are no longer than the physical lines they are made
    of. *)
Lemma logical_from_zlen pending (cs : list (list Z)) cow :
  cow ∈ logical_from pending cs →
  zlen (Cow_deref cow) ≤ zlen (default [] pending) + zlen (concat cs).
Proof.
  revert pending. induction cs as [|l cs IH]; intros pending; simpl.
  { destruct pending; [intros ->%list_elem_of_singleton | intros []%elem_of_nil].
    simpl. zlia. }
  pose proof (zlen_ztake_le (zlen l - 1) l). fold (before_backslash l) in *.
  rewrite zlen_app.
  destruct pending as [line|]; repeat case_match; intros Hc;
    try (apply elem_of_cons in Hc as [->|Hc]; [clear IH; simpl; zlist_simpl; zlia|]);
    specialize (IH _ Hc); simpl in *; zlist_simpl; zlia.
Qed.

Lemma zlen_concat_unsplit ls tail :
  zlen (concat ls.*1) + zlen tail ≤ zlen (unsplit ls tail).
Proof.
  induction ls as [|[l k] ls IH]; [simpl; zlist_simpl; lia|].
  rewrite fmap_cons. cbn [concat unsplit fst]. rewrite !zlen_app.
  pose proof (break_bytes_length k). lia.
Qed.

(** The lines the iterator yields are no longer than the text. *)
Lemma iterator_lines_zlen text cow :
  cow ∈ iterator_lines text → zlen (Cow_deref cow) ≤ zlen text.
Proof.
  unfold iterator_lines. rewrite <-(unsplit_split_lines text) at 2.
  destruct (split_lines text) as [ls tail]. simpl.
  pose proof (zlen_concat_unsplit ls tail). pose proof (zlen_nonneg tail).
  pose proof (zlen_nonneg (concat ls.*1)).
  intros [Hc%logical_from_zlen|Hc]%elem_of_app; [simpl in Hc; zlist_simpl; lia|].
  destruct (tail_line_cases tail) as [Et|Et]; rewrite Et in Hc; [set_solver|].
  apply list_elem_of_singleton in Hc as ->. simpl. lia.
Qed.

Lemma zlen_unsplit_elem ls tail l :
  l ∈ ls.*1 ++ [tail] → zlen l ≤ zlen (unsplit ls tail).
Proof.
  induction ls as [|[l' k] ls IH].
  - intros ->%list_elem_of_singleton. simpl. lia.
  - rewrite fmap_cons. cbn [unsplit fst app]. rewrite !zlen_app.
    intros [->|Hl]%elem_of_cons; [zlia|]. specialize (IH Hl). zlia.
Qed.

(** The borrowed lines the iterator yields are not comments, and no
    longer than the text. *)
Lemma iterator_lines_borrowed text l :
  Borrowed l ∈ iterator_lines text →
  is_comment l = false ∧ zlen l ≤ zlen text.
Proof.
  unfold iterator_lines. rewrite <-(unsplit_split_lines text) at 2.
  destruct (split_lines text) as [ls tail]. simpl.
  intros [Hc|Hc]%elem_of_app.
  - apply logical_from_borrowed in Hc as (? & ? & _).
    split; [done|]. apply zlen_unsplit_elem, elem_of_app. by left.
  - unfold tail_line in Hc.
    destruct (decide _); [set_solver|].
    destruct (is_comment tail || is_blank tail) eqn:E; [set_solver|].
    apply list_elem_of_singleton in Hc as [= ->].
    apply orb_false_elim in E as [? _].
    split; [done|]. apply zlen_unsplit_elem. set_solver.
Qed.

(** A chain of continued lines and the line that ends it are joined. *)
Lemma eat_spec_chain line chain l k ls :
  Forall (λ p, is_continued p.1 = true) chain → is_continued l = false →
  eat_spec line (chain ++ (l, k) :: ls)
  = (line ++ concat (before_backslash <$> chain.*1) ++ l, ls).
Proof.
  intros Hc Hl. revert line.
  induction Hc as [|[l' k'] chain Hl' _ IH]; intros line; simpl in *.
  { by rewrite Hl. }
  rewrite Hl', IH. by rewrite <-!(assoc_L (++)).
Qed.

(** There are no more logical lines than physical lines, and no more than
    bytes. *)
Lemma logical_from_length pending (cs : list (list Z)) :
  (length (logical_from pending cs)
   ≤ length cs + (if pending is Some _ then 1 else 0))%nat.
Proof.
  revert pending. induction cs as [|l cs IH]; intros pending; simpl.
  { destruct pending; simpl; lia. }
  destruct pending as [line|]; repeat case_match; simpl;
    match goal with |- context [logical_from ?p cs] => pose proof (IH p) end;
    simpl in *; lia.
Qed.

Lemma tail_line_length tail : (length (tail_line tail) ≤ length tail)%nat.
Proof.
  unfold tail_line. repeat case_match; simpl; try lia.
  destruct tail; simpl; [|lia].
  by rewrite is_blank_nil, orb_true_r in *.
Qed.

Lemma length_unsplit ls tail :
  (length ls + length tail ≤ length (unsplit ls tail))%nat.
Proof.
  induction ls as [|[l k] ls IH]; simpl; [lia|].
  rewrite !length_app. destruct k; simpl; lia.
Qed.

Lemma iterator_lines_length text :
  (length (iterator_lines text) ≤ length text)%nat.
Proof.
  unfold iterator_lines. pose proof (unsplit_split_lines text) as Hu.
  destruct (split_lines text) as [ls tail]. simpl in Hu.
  pose proof (logical_from_length None ls.*1).
  pose proof (tail_line_length tail). pose proof (length_unsplit ls tail).
  rewrite length_app, length_fmap in *. rewrite Hu in *.
  unfold physical_line in *. simpl in *. lia.
Qed.

End logical_facts.
