(* ===== verification/Rules.v ===== *)
(** * The rules of the line splitter

    The specification gives the logical lines by rules on the physical
    lines: a comment line and a blank line are dropped (rules 3 and 4), a
    line that ends in a backslash starts a chain that the first line
    without one ends, and the chain is one owned line (rule 5), any other
    line is a borrowed line of its own (rule 6).  [rules] states them, one
    constructor per rule, with the case the specification leaves out: a
    chain that the end of the lines cuts.

    [LineSpec.logical_from], the function that the iterator is proved to
    compute, is the one solution of the rules ([logical_from_rules],
    [rules_logical_from]).  So the rules can be read backwards: an owned
    line of the result is the join of a chain of lines of the text
    ([rules_owned]).  The lines of the specification solve the rules on
    all the physical lines, the last included ([logical_lines_rules]);
    the code applies them to the lines that a line break ends. *)

From Stdlib Require Import ZArith Lia.
From stdpp Require Import base tactics option list numbers strings.
From S2P Require Import Prelude Utf8 RustStr Trivia Lines LineSpec.

#[local] Open Scope Z_scope.

(** The text of a chain of continued lines: the lines without their
    backslashes, in order. *)
Definition joined (chain : list (list Z)) : list Z :=
  concat (before_backslash <$> chain).

(** The logical lines of a sequence of physical lines, rule by rule. *)
Inductive rules : list (list Z) → list Cow → Prop :=
| rule_end : rules [] []
| rule_comment l ls cows :
    is_comment l = true → rules ls cows → rules (l :: ls) cows
| rule_blank l ls cows :
    is_blank l = true → rules ls cows → rules (l :: ls) cows
| rule_continuation l0 chain l ls cows :
    is_comment l0 || is_blank l0 = false →
    Forall (λ l, is_continued l = true) (l0 :: chain) →
    is_continued l = false → rules ls cows →
    rules (l0 :: chain ++ l :: ls) (Owned (joined (l0 :: chain) ++ l) :: cows)
| rule_line l ls cows :
    is_comment l || is_blank l = false → is_continued l = false →
    rules ls cows → rules (l :: ls) (Borrowed l :: cows)
| rule_open l0 chain :
    is_comment l0 || is_blank l0 = false →
    Forall (λ l, is_continued l = true) (l0 :: chain) →
    rules (l0 :: chain) [Owned (joined (l0 :: chain))].

Section rules_facts.
Implicit Types (l line : list Z) (ls chain : list (list Z)) (cows : list Cow).

Lemma joined_cons l chain : joined (l :: chain) = before_backslash l ++ joined chain.
Proof. done. Qed.

(** The lines of a sequence split into the continued lines it starts
    with and the rest. *)
Lemma chain_split ls :
  ∃ chain rest, ls = chain ++ rest
    ∧ Forall (λ l, is_continued l = true) chain
    ∧ (rest = [] ∨ ∃ l rest', rest = l :: rest' ∧ is_continued l = false).
Proof.
  induction ls as [|l ls (chain & rest & -> & Hc & Hr)].
  { exists [], []. auto. }
  destruct (is_continued l) eqn:E.
  - exists (l :: chain), rest. auto.
  - exists [], (l :: chain ++ rest). eauto 10.
Qed.

(** Inside a continuation the continued lines are joined to what is
    pending. *)
Lemma logical_from_chain line chain ls :
  Forall (λ l, is_continued l = true) chain →
  logical_from (Some line) (chain ++ ls)
  = logical_from (Some (line ++ joined chain)) ls.
Proof.
  intros Hc. revert line. induction Hc as [|l chain Hl _ IH]; intros line.
  { unfold joined. simpl. by rewrite (right_id_L [] (++)). }
  simpl. by rewrite Hl, IH, joined_cons, (assoc_L (++)).
Qed.

(** The function is a solution of the rules. *)
Lemma logical_from_rules ls : rules ls (logical_from None ls).
Proof.
  remember (length ls) as n eqn:Hn. revert ls Hn.
  induction (lt_wf n) as [n _ IH]. intros [|l0 ls] ->; [constructor|].
  assert (∀ ls', (length ls' ≤ length ls)%nat → rules ls' (logical_from None ls'))
    as IH' by (intros; eapply IH; [|done]; simpl; lia).
  simpl. destruct (is_comment l0) eqn:Ec; [by apply rule_comment, IH'|].
  destruct (is_blank l0) eqn:Eb; [by apply rule_blank, IH'|]. simpl.
  destruct (is_continued l0) eqn:Ek; [|by apply rule_line; [rewrite Ec, Eb| |apply IH']].
  destruct (chain_split ls) as (chain & rest & -> & Hc & [->|(l & rest' & -> & Hl)]);
    rewrite logical_from_chain by done; simpl.
  - rewrite (right_id_L [] (++)). apply rule_open; [by rewrite Ec, Eb | by constructor].
  - rewrite Hl. apply rule_continuation; [by rewrite Ec, Eb | by constructor | done |].
    apply IH'. rewrite length_app. simpl. lia.
Qed.

(** The rules have no other solution. *)
Lemma rules_logical_from ls cows : rules ls cows → cows = logical_from None ls.
Proof.
  induction 1 as [|l ls cows Hc _ IH|l ls cows Hb _ IH
                 |l0 chain l ls cows Ht [Hk Hc]%list.Forall_cons Hl _ IH
                 |l ls cows Ht Hl _ IH|l0 chain Ht [Hk Hc]%list.Forall_cons];
    simpl; rewrite ?Hc, ?Hb, ?Ht, ?orb_true_r; simpl; try done.
  - rewrite Hk, logical_from_chain by done. simpl. by rewrite Hl, IH.
  - by rewrite Hl, IH.
  - rewrite Hk, <-(right_id_L [] (++) chain), logical_from_chain by done.
    by rewrite (right_id_L [] (++)).
Qed.

(** The rules fix the logical lines. *)
Lemma rules_deterministic ls cows1 cows2 :
  rules ls cows1 → rules ls cows2 → cows1 = cows2.
Proof. intros ->%rules_logical_from ->%rules_logical_from. done. Qed.

(** An owned line is the join of a chain of lines of the text, which a
    line that is not continued, or the end of the lines, ends. *)
Lemma rules_owned ls cows line :
  rules ls cows → Owned line ∈ cows →
  ∃ before l0 chain after,
    ls = before ++ l0 :: chain ++ after
    ∧ is_comment l0 || is_blank l0 = false
    ∧ Forall (λ l, is_continued l = true) (l0 :: chain)
    ∧ ((after = [] ∧ line = joined (l0 :: chain))
       ∨ ∃ l after', after = l :: after' ∧ is_continued l = false
                     ∧ line = joined (l0 :: chain) ++ l).
Proof.
  induction 1 as [|l ls cows _ _ IH|l ls cows _ _ IH
                 |l0 chain l ls cows Ht Hc Hl _ IH
                 |l ls cows _ _ _ IH|l0 chain Ht Hc]; intros Ho.
  - by apply elem_of_nil in Ho.
  - destruct (IH Ho) as (before & ? & ? & ? & -> & ?). by exists (l :: before); eauto.
  - destruct (IH Ho) as (before & ? & ? & ? & -> & ?). by exists (l :: before); eauto.
  - apply elem_of_cons in Ho as [[= ->]|Ho].
    + exists [], l0, chain, (l :: ls). eauto 10.
    + destruct (IH Ho) as (before & ? & ? & ? & -> & ?).
      eexists (l0 :: chain ++ l :: before), _, _, _. split; [|done].
      simpl. by rewrite <-(assoc_L (++)).
  - apply elem_of_cons in Ho as [[=]|Ho].
    destruct (IH Ho) as (before & ? & ? & ? & -> & ?). by exists (l :: before); eauto.
  - apply list_elem_of_singleton in Ho as [= ->].
    exists [], l0, chain, []. rewrite (right_id_L [] (++)). eauto 10.
Qed.

(** The lines of the specification are the solution of the rules on all
    the physical lines of the text, the last one, which no line break
    ends, included, when the text does not end in a backslash. *)
Lemma spec_lines_snoc pending ls tail :
  is_continued tail = false →
  spec_lines pending ls tail = logical_from pending (ls ++ [tail]).
Proof.
  intros Ht. revert pending.
  induction ls as [|l ls IH]; intros pending; simpl.
  - rewrite Ht. by destruct pending, (is_comment tail || is_blank tail).
  - destruct pending; repeat case_match; by rewrite IH.
Qed.

Lemma logical_lines_rules text :
  is_continued (split_lines text).2 = false →
  rules ((split_lines text).1.*1 ++ [(split_lines text).2]) (logical_lines text).
Proof.
  unfold logical_lines. destruct (split_lines text) as [ls tail]. simpl.
  intros Ht. rewrite spec_lines_snoc by done. apply logical_from_rules.
Qed.

End rules_facts.
