(* ===== verification/Refinement.v ===== *)
(** * The line splitter refines its specification

    [RequirementsIterator::next], run from the start of a physical line of a
    valid text, does what [next_spec] says: it returns the first logical
    line of the lines that remain and leaves the cursor at the start of the
    line after it.  The specification is itself an iterator, over the
    physical lines that remain ([spec_next]), and the code simulates it
    ([next_simulates]).  What the consumers of the iterator return is
    proved once, on the specification, by induction on lists, and the
    simulation carries it to the code: the iterator yields
    [iterator_lines], and [Requirements::from_str] parses them in
    order. *)

From Stdlib Require Import ZArith Lia.
From stdpp Require Import base tactics option list numbers strings sets.
From S2P Require Import Prelude Utf8 RustStr Iterator Runs Trivia Lines.
From S2P Require Import Requirements LineSpec.

#[local] Open Scope Z_scope.

(** ** The cursor at the start of a line *)

(** A prefix of the text that ends where a line starts. *)
Definition line_start (pre : list Z) : Prop :=
  pre = [] ∨ ∃ p k, pre = p ++ break_bytes k.

(** The cursor is after [pre], at the start of the physical lines [ls],
    which [tail] follows. *)
Record cursor (text pre : list Z) (ls : list physical_line) (tail : list Z)
    : Prop := Cursor {
  cursor_text : text = pre ++ unsplit ls tail;
  cursor_pre : utf8 pre;
  cursor_rest : utf8 (unsplit ls tail);
  cursor_wf : wf_lines ls tail;
  cursor_start : line_start pre;
  cursor_len : 0 < zlen text ≤ isize_MAX;
}.

Section specification.
Context `{BuildProfile} `{RequirementParser}.

(** What [next] returns from the start of the physical lines [ls], given
    the first logical line of these lines: that line and the cursor after
    it, or, when there is none, what the text after the last line break
    gives, and the cursor on the last byte. *)
Definition next_result (text tail : list Z)
    (r : option (Cow * list physical_line))
    : outcome (option RequirementLine.t * RequirementsIterator.t) :=
  match r with
  | Some (cow, ls) =>
    item ← RequirementLine.from_line cow;
    Done (Some item, {| RequirementsIterator.text := text;
                        RequirementsIterator.index :=
                          zlen text - zlen (unsplit ls tail) |})
  | None =>
    let self := {| RequirementsIterator.text := text;
                   RequirementsIterator.index := zlen text - 1 |} in
    match tail_line tail with
    | [] => Done (None, self)
    | cow :: _ => item ← RequirementLine.from_line cow; Done (Some item, self)
    end
  end.

(** The text of the requirement of a logical line: the line up to the
    length [strip_trivia] gives. *)
Definition requirement_of (cow : Cow) : outcome (list Z) :=
  len ← RequirementLine.strip_trivia (Cow_deref cow);
  Done (ztake len (Cow_deref cow)).

(** The clean span of a line without comment: the line up to its first
    ["--hash"]. *)
Definition clean_span (cow : Cow) : list Z :=
  ztake (RequirementLine.without_hash_extras (Cow_deref cow) (zlen (Cow_deref cow)))
    (Cow_deref cow).

(** The requirements of a sequence of logical lines, after those of [acc]:
    every line is stripped and parsed in turn, and the first error ends
    the parse. *)
Fixpoint parse_lines (cows : list Cow) (acc : list Requirement)
    : outcome (Result (list Requirement) Pep508Error) :=
  match cows with
  | [] => Done (Ok acc)
  | cow :: cows =>
    s ← requirement_of cow;
    match Requirement_from_str s with
    | Ok r => parse_lines cows (acc ++ [r])
    | Err e => Done (Err e)
    end
  end.

(** What [Requirements::from_str] is to return. *)
Definition requirements_spec (text : list Z)
    : outcome (Result Requirements Pep508Error) :=
  r ← parse_lines (iterator_lines text) [];
  Done (match r with
        | Ok v => Ok {| vec := v |}
        | Err e => Err e
        end).

End specification.

(** ** The specification as an iterator *)

(** The states of the specification: the physical lines that remain, or
    the end of the iteration. *)
Definition spec_state : Type := option (list physical_line).

Section spec_machine.
Context `{BuildProfile} `{RequirementParser} (tail : list Z).
Implicit Types (a : spec_state) (ls : list physical_line) (cow : Cow)
  (fuel : nat) (acc : list Requirement).

(** [next] of the specification: the first logical line of the lines
    that remain, stripped by [from_line]; after the last of them, what
    the code makes of [tail], the text after the last line break. *)
Definition spec_next a : outcome (option RequirementLine.t * spec_state) :=
  match a with
  | Some ls =>
    match next_spec ls with
    | Some (cow, ls') =>
      item ← RequirementLine.from_line cow; Done (Some item, Some ls')
    | None =>
      match tail_line tail with
      | [] => Done (None, None)
      | cow :: _ => item ← RequirementLine.from_line cow; Done (Some item, None)
      end
    end
  | None => Done (None, None)
  end.

#[local] Instance spec_iterator : Iterator spec_state RequirementLine.t :=
  {| iter_next := spec_next |}.

(** The lines the specification has yet to yield. *)
Definition remaining a : list Cow :=
  match a with
  | Some ls => logical_from None ls.*1 ++ tail_line tail
  | None => []
  end.

(** [spec_next] yields the first of the lines that remain and leaves the
    others; when none remains it returns [None]. *)
Lemma spec_next_remaining a :
  ∃ a', match remaining a with
        | [] => spec_next a = Done (None, a') ∧ remaining a' = []
        | cow :: cows =>
          spec_next a
          = (item ← RequirementLine.from_line cow; Done (Some item, a'))
          ∧ remaining a' = cows
        end.
Proof.
  destruct a as [ls|]; [|by exists None]. simpl.
  rewrite (logical_from_next_spec ls).
  destruct (next_spec ls) as [[cow ls']|]; simpl; [by exists (Some ls')|].
  exists None. by destruct (tail_line_cases tail) as [-> | ->].
Qed.

(** The specification yields the lines that remain, in order. *)
Lemma spec_drain fuel a :
  (length (remaining a) < fuel)%nat →
  drain fuel a = mapM RequirementLine.from_line (remaining a).
Proof.
  revert a. induction fuel as [|fuel IH]; intros a Hf; [lia|].
  cbn [drain iter_next spec_iterator].
  destruct (spec_next_remaining a) as [a' Ha].
  destruct (remaining a) as [|cow cows]; destruct Ha as [-> Hr]; [done|].
  simpl in *. destruct (RequirementLine.from_line cow); simpl; try done.
  rewrite IH, Hr by (rewrite Hr; lia). by destruct (mapM _ _).
Qed.

(** The loop of [from_str] on the specification parses the lines that
    remain, in order, up to the first error. *)
Lemma spec_try_collect fuel a acc :
  (length (remaining a) < fuel)%nat →
  try_collect parse_line fuel a acc = parse_lines (remaining a) acc.
Proof.
  revert a acc. induction fuel as [|fuel IH]; intros a acc Hf; [lia|].
  cbn [try_collect iter_next spec_iterator].
  destruct (spec_next_remaining a) as [a' Ha].
  destruct (remaining a) as [|cow cows]; destruct Ha as [-> Hr]; [done|].
  unfold parse_line. simpl in *. unfold requirement_of, RequirementLine.from_line.
  destruct (RequirementLine.strip_trivia _) as [n| |] eqn:En; simpl; try done.
  rewrite RequirementLine.as_str_boundary
    by by apply RequirementLine.strip_trivia_boundary.
  simpl. destruct (Requirement_from_str _); [|done].
  by rewrite IH, Hr by (rewrite Hr; lia).
Qed.

End spec_machine.

Section cursor_facts.
Implicit Types (text pre l tail line : list Z) (ls used : list physical_line)
  (k : line_break).

Lemma line_start_last pre : line_start pre → last pre ≠ Some BACKSLASH.
Proof.
  intros [->|(p & k & ->)]; [done|].
  destruct k; simpl; rewrite ?last_app; simpl; by intros [=].
Qed.

(** The cursor at the start of the text. *)
Lemma cursor_init text :
  utf8 text → 0 < zlen text ≤ isize_MAX →
  cursor text [] (split_lines text).1 (split_lines text).2.
Proof.
  intros. split; try done.
  - by rewrite unsplit_split_lines.
  - constructor.
  - by rewrite unsplit_split_lines.
  - apply split_lines_wf.
  - by left.
Qed.

(** The cursor after a physical line. *)
Lemma cursor_next text pre l k ls tail :
  cursor text pre ((l, k) :: ls) tail →
  cursor text (pre ++ l ++ break_bytes k) ls tail.
Proof.
  intros [Ht Hp (Hl & _ & Hr)%utf8_unsplit_cons (_ & _ & Hw) _ ?].
  split; try done.
  - by rewrite Ht, <-!(assoc_L (++)).
  - auto using utf8_app, utf8_break_bytes.
  - right. exists (pre ++ l), k. by rewrite (assoc_L (++)).
Qed.

(** The cursor after several physical lines. *)
Lemma cursor_app text pre used ls tail :
  cursor text pre (used ++ ls) tail →
  cursor text (pre ++ unsplit used []) ls tail.
Proof.
  revert pre. induction used as [|[l k] used IH]; intros pre Hc; simpl.
  { by rewrite (right_id_L [] (++)). }
  apply cursor_next, IH in Hc. by rewrite <-!(assoc_L (++)) in Hc.
Qed.

(** The cursor, from the lines that remain. *)
Lemma cursor_index text pre ls tail :
  cursor text pre ls tail → zlen pre = zlen text - zlen (unsplit ls tail).
Proof. intros [-> _ _ _ _ _]. rewrite zlen_app. lia. Qed.

Lemma cursor_length text pre ls tail :
  cursor text pre ls tail → (length ls ≤ length text)%nat.
Proof.
  intros [-> _ _ _ _ _]. rewrite length_app.
  assert (length ls ≤ length (unsplit ls tail))%nat; [|lia].
  induction ls as [|[l k] ls IH]; simpl; [lia|].
  rewrite !length_app. destruct k; simpl; lia.
Qed.

End cursor_facts.

(** ** The operations of [next] at the start of a line *)

Section line_ops.
Context `{BuildProfile}.
Context {text pre l : list Z} {k : line_break} {ls : list physical_line}
  {tail : list Z}.
Context (Hc : cursor text pre ((l, k) :: ls) tail).

Lemma line_text : text = pre ++ l ++ break_bytes k ++ unsplit ls tail.
Proof. by destruct Hc. Qed.

Lemma line_utf8 :
  utf8 pre ∧ utf8 l ∧ utf8 (break_bytes k ++ unsplit ls tail)
  ∧ utf8 (unsplit ls tail).
Proof.
  destruct Hc as [_ ? Hr _ _ _]. apply utf8_unsplit_cons in Hr. naive_solver.
Qed.

Lemma line_bounds :
  zlen text = zlen pre + zlen l + zlen (break_bytes k) + zlen (unsplit ls tail)
  ∧ 1 ≤ zlen (break_bytes k) ≤ 2 ∧ zlen text ≤ isize_MAX.
Proof.
  destruct Hc as [-> _ _ _ _ ?]. simpl in *. rewrite !zlen_app in *.
  pose proof (break_bytes_length k). zlia.
Qed.

Lemma find_newline_line :
  find_newline (l ++ break_bytes k ++ unsplit ls tail)
  = Some (zlen l, zlen (break_bytes k)).
Proof.
  destruct Hc as [Ht _ _ Hw _ ?]. apply find_newline_unsplit; [done|].
  rewrite Ht, zlen_app in *. zlia.
Qed.

Lemma slice_rest :
  str_slice_from text (zlen pre) = Done (l ++ break_bytes k ++ unsplit ls tail).
Proof. destruct Hc as [-> _ ? _ _ _]. by apply str_slice_from_app. Qed.

Lemma add_start : zlen pre +! zlen l = Done (zlen pre + zlen l).
Proof. pose proof line_bounds. apply usize_add_Done. zlia. Qed.

Lemma slice_line : str_slice text (zlen pre) (zlen pre + zlen l) = Done l.
Proof.
  destruct line_utf8 as (_ & ? & ? & _). rewrite line_text.
  apply str_slice_app; [by apply utf8_app | done].
Qed.

Lemma continued_line :
  RequirementsIterator.continued text (zlen pre + zlen l) = Done (is_continued l).
Proof.
  destruct line_utf8 as (? & ? & ? & _). unfold RequirementsIterator.continued.
  rewrite line_text, (assoc_L (++)), <-zlen_app, str_slice_to_app by done.
  simpl. rewrite last_char_backslash by by apply utf8_app.
  f_equal. apply bool_decide_ext. destruct l as [|b l' _] using rev_ind.
  - rewrite (right_id_L [] (++)). destruct Hc as [_ _ _ _ ?%line_start_last _].
    naive_solver.
  - by rewrite (assoc_L (++)), !last_snoc.
Qed.

Lemma sub_backslash :
  is_continued l = true →
  (zlen pre + zlen l) -! 1 = Done (zlen pre + zlen l - 1).
Proof.
  intros E%is_continued_snoc. apply usize_sub_Done.
  rewrite E, zlen_app, zlen_cons. zlia.
Qed.

Lemma slice_before_backslash :
  is_continued l = true →
  str_slice text (zlen pre) (zlen pre + zlen l - 1) = Done (before_backslash l).
Proof.
  intros E%is_continued_snoc. destruct line_utf8 as (_ & Hl & Hb & _).
  assert (is_ascii BACKSLASH) by (unfold is_ascii, BACKSLASH; lia).
  rewrite E in Hl. apply utf8_app_ascii_inv in Hl as [? _]; [|done].
  rewrite line_text. rewrite E at 1 2. rewrite <-!(assoc_L (++)).
  rewrite zlen_app, zlen_cons, zlen_nil.
  replace (zlen pre + (zlen (before_backslash l) + (1 + 0)) - 1)
    with (zlen pre + zlen (before_backslash l)) by lia.
  apply str_slice_app; simpl; auto using utf8_app, utf8_cons_ascii.
Qed.

Lemma advance_line :
  RequirementsIterator.advance (zlen pre) (zlen l) (zlen (break_bytes k))
  = Done (zlen (pre ++ l ++ break_bytes k)).
Proof.
  pose proof line_bounds. unfold RequirementsIterator.advance.
  rewrite usize_add_Done by zlia. simpl. rewrite usize_add_Done by zlia.
  by rewrite !zlen_app.
Qed.

(** The test for a comment looks at the rest of the text, not at the line:
    on a line that is not blank both see the same char. *)
Lemma comment_line :
  is_blank l = false →
  starts_with (trim_start (l ++ break_bytes k ++ unsplit ls tail)) HASH
  = is_comment l.
Proof.
  intros Hb. destruct line_utf8 as (_ & ? & _). simpl.
  rewrite trim_start_app by done.
  case_decide as E; [by rewrite is_blank_trim_start in Hb|].
  by apply starts_with_app.
Qed.

End line_ops.

(** ** One line at a time *)

Section steps.
Context `{BuildProfile}.
Implicit Types (text pre l tail line : list Z) (ls : list physical_line)
  (k : line_break) (fuel : nat).

(** The cursor at the start of the text after the last line break. *)
Lemma slice_tail text pre tail :
  cursor text pre [] tail → str_slice_from text (zlen pre) = Done tail.
Proof. intros [-> _ ? _ _ _]. by apply str_slice_from_app. Qed.

Lemma find_newline_tail text pre tail :
  cursor text pre [] tail → find_newline tail = None.
Proof. intros [_ _ _ ? _ _]. by apply find_newline_None. Qed.

(** One iteration of the loop of a continuation. *)
Lemma eat_continuations_line fuel text pre l k ls tail line :
  cursor text pre ((l, k) :: ls) tail →
  RequirementsIterator.eat_continuations (S fuel) text (zlen pre) line =
  if is_continued l then
    RequirementsIterator.eat_continuations fuel text
      (zlen (pre ++ l ++ break_bytes k)) (line ++ before_backslash l)
  else Done (line ++ l, zlen (pre ++ l ++ break_bytes k)).
Proof.
  intros Hc. cbn [RequirementsIterator.eat_continuations].
  rewrite (slice_rest Hc). simpl. rewrite (find_newline_line Hc).
  rewrite (add_start Hc). simpl. rewrite (continued_line Hc). simpl.
  destruct (is_continued l) eqn:E.
  - rewrite (sub_backslash E). simpl.
    rewrite (slice_before_backslash Hc E). simpl.
    by rewrite (advance_line Hc).
  - rewrite (slice_line Hc). simpl. by rewrite (advance_line Hc).
Qed.

(** The loop of a continuation ends where the lines end. *)
Lemma eat_continuations_tail fuel text pre tail line :
  cursor text pre [] tail →
  RequirementsIterator.eat_continuations (S fuel) text (zlen pre) line
  = Done (line, zlen pre).
Proof.
  intros Hc. cbn [RequirementsIterator.eat_continuations].
  rewrite (slice_tail _ _ _ Hc). simpl. by rewrite (find_newline_tail _ _ _ Hc).
Qed.

(** The loop of a continuation computes [eat_spec]. *)
Lemma eat_continuations_spec fuel text pre ls tail line :
  cursor text pre ls tail → (length ls < fuel)%nat →
  RequirementsIterator.eat_continuations fuel text (zlen pre) line
  = Done ((eat_spec line ls).1,
          zlen text - zlen (unsplit (eat_spec line ls).2 tail)).
Proof.
  revert fuel pre line.
  induction ls as [|[l k] ls IH]; intros [|fuel] pre line Hc ?;
    cbn [eat_spec length] in *; try lia.
  { rewrite (eat_continuations_tail _ _ _ _ _ Hc).
    by rewrite (cursor_index _ _ _ _ Hc). }
  rewrite (eat_continuations_line _ _ _ _ _ _ _ _ Hc).
  pose proof (cursor_next _ _ _ _ _ _ Hc) as Hc'.
  destruct (is_continued l); [apply IH; [done | lia]|].
  by rewrite (cursor_index _ _ _ _ Hc').
Qed.

(** With one byte left, [next] stops. *)
Lemma next_fuel_sentinel fuel text pre ls tail :
  cursor text pre ls tail → zlen (unsplit ls tail) = 1 →
  RequirementsIterator.next_fuel (S fuel)
    {| RequirementsIterator.text := text; RequirementsIterator.index := zlen pre |}
  = Done (None, {| RequirementsIterator.text := text;
                   RequirementsIterator.index := zlen text - 1 |}).
Proof.
  intros Hc Hr. pose proof (cursor_index _ _ _ _ Hc) as Hi.
  rewrite Hr in Hi. rewrite Hi.
  apply RequirementsIterator.next_fuel_at_last_byte; [apply Hc | done].
Qed.

(** One byte left is one byte after the last line break, or an empty line
    and its line break: no logical line either way. *)
Lemma next_result_sentinel text ls tail :
  zlen (unsplit ls tail) = 1 →
  next_result text tail (next_spec ls)
  = Done (None, {| RequirementsIterator.text := text;
                   RequirementsIterator.index := zlen text - 1 |}).
Proof.
  destruct ls as [|[l k] [|[l' k'] ls]]; simpl; rewrite ?zlen_app.
  - intros Ht. unfold tail_line. by rewrite decide_True.
  - intros Ht. pose proof (break_bytes_length k).
    assert (l = [] ∧ tail = []) as [-> ->] by (split; apply zlen_0; zlia).
    done.
  - pose proof (break_bytes_length k). pose proof (break_bytes_length k'). zlia.
Qed.

(** [next] at the start of a physical line. *)
Lemma next_fuel_line fuel text pre l k ls tail :
  cursor text pre ((l, k) :: ls) tail →
  zlen (unsplit ((l, k) :: ls) tail) ≠ 1 →
  RequirementsIterator.next_fuel (S fuel)
    {| RequirementsIterator.text := text; RequirementsIterator.index := zlen pre |}
  = let index := zlen (pre ++ l ++ break_bytes k) in
    if is_comment l || is_blank l then
      RequirementsIterator.next_fuel fuel
        {| RequirementsIterator.text := text; RequirementsIterator.index := index |}
    else if is_continued l then
      '(line, index) ← RequirementsIterator.eat_continuations fuel text index
                         (before_backslash l);
      item ← RequirementLine.from_line (Owned line);
      Done (Some item, {| RequirementsIterator.text := text;
                          RequirementsIterator.index := index |})
    else
      item ← RequirementLine.from_line (Borrowed l);
      Done (Some item, {| RequirementsIterator.text := text;
                          RequirementsIterator.index := index |}).
Proof.
  intros Hc Hr. pose proof (cursor_index _ _ _ _ Hc) as Hi.
  pose proof (cursor_len _ _ _ _ Hc).
  cbn [RequirementsIterator.next_fuel RequirementsIterator.text
       RequirementsIterator.index].
  rewrite usize_sub_Done by lia. simpl. rewrite decide_False by lia.
  rewrite (slice_rest Hc). simpl. rewrite (find_newline_line Hc).
  rewrite (add_start Hc), (advance_line Hc). simpl.
  rewrite (slice_line Hc), (continued_line Hc). simpl.
  fold (is_blank l). destruct (is_blank l) eqn:Eb.
  { rewrite orb_true_r. by destruct (starts_with _ _). }
  rewrite (comment_line Hc Eb), orb_false_r.
  destruct (is_comment l); [done|].
  destruct (is_continued l) eqn:E; [|done].
  rewrite (sub_backslash E). simpl. by rewrite (slice_before_backslash Hc E).
Qed.

(** [next] at the start of the text after the last line break. *)
Lemma next_fuel_tail fuel text pre tail :
  cursor text pre [] tail → zlen tail ≠ 1 →
  RequirementsIterator.next_fuel (S fuel)
    {| RequirementsIterator.text := text; RequirementsIterator.index := zlen pre |}
  = next_result text tail None.
Proof.
  intros Hc Hr. pose proof (cursor_index _ _ _ _ Hc) as Hi.
  pose proof (cursor_len _ _ _ _ Hc). simpl in Hi.
  cbn [RequirementsIterator.next_fuel RequirementsIterator.text
       RequirementsIterator.index].
  rewrite usize_sub_Done by lia. simpl. rewrite decide_False by lia.
  rewrite (slice_tail _ _ _ Hc). simpl. rewrite (find_newline_tail _ _ _ Hc).
  unfold tail_line. rewrite decide_False by done.
  fold (is_comment tail) (is_blank tail).
  by destruct (is_comment tail), (is_blank tail).
Qed.

(** [next] computes [next_spec]. *)
Lemma next_fuel_spec fuel text pre ls tail :
  cursor text pre ls tail → (length ls < fuel)%nat →
  RequirementsIterator.next_fuel fuel
    {| RequirementsIterator.text := text; RequirementsIterator.index := zlen pre |}
  = next_result text tail (next_spec ls).
Proof.
  revert fuel pre.
  induction ls as [|[l k] ls IH]; intros [|fuel] pre Hc ?;
    cbn [length] in *; try lia.
  - destruct (decide (zlen tail = 1)) as [Hr|Hr]; [|by apply next_fuel_tail].
    rewrite (next_fuel_sentinel _ _ _ _ _ Hc) by done.
    symmetry. by apply (next_result_sentinel text []).
  - destruct (decide (zlen (unsplit ((l, k) :: ls) tail) = 1)) as [Hr|Hr].
    { rewrite (next_fuel_sentinel _ _ _ _ _ Hc) by done.
      symmetry. by apply next_result_sentinel. }
    rewrite (next_fuel_line _ _ _ _ _ _ _ Hc Hr). cbn [next_spec]. cbv zeta.
    pose proof (cursor_next _ _ _ _ _ _ Hc) as Hc'.
    destruct (is_comment l || is_blank l); [apply IH; [done | lia]|].
    destruct (is_continued l).
    + rewrite (eat_continuations_spec _ _ _ _ _ _ Hc') by lia.
      simpl. by destruct (eat_spec _ ls).
    + simpl. by rewrite (cursor_index _ _ _ _ Hc').
Qed.

End steps.

(** ** The whole iteration *)

Section iteration.
Context `{BuildProfile} `{RequirementParser}.
Implicit Types (text pre l tail line : list Z) (ls : list physical_line)
  (k : line_break) (fuel : nat) (cow : Cow).

(** [next], with the fuel it gives itself, computes [next_spec]. *)
Lemma next_cursor text pre ls tail :
  cursor text pre ls tail →
  RequirementsIterator.next
    {| RequirementsIterator.text := text; RequirementsIterator.index := zlen pre |}
  = next_result text tail (next_spec ls).
Proof.
  intros Hc. apply next_fuel_spec; [done|]. simpl.
  pose proof (cursor_length _ _ _ _ Hc). lia.
Qed.

(** The cursor after the first logical line. *)
Lemma cursor_next_spec text pre ls tail cow ls' :
  cursor text pre ls tail → next_spec ls = Some (cow, ls') →
  ∃ pre', cursor text pre' ls' tail
          ∧ zlen pre' = zlen text - zlen (unsplit ls' tail).
Proof.
  intros Hc (used & -> & _)%next_spec_suffix. apply cursor_app in Hc.
  eexists. split; [done|]. by apply cursor_index.
Qed.

(** C23 The invariant of the cursor: when [next] returns a line from the
    start of a physical line of a valid text, it leaves the text as it is
    and the cursor at the start of a later physical line, or on the last
    byte when no physical line is left. *)
Theorem next_preserves_cursor text pre ls tail item self' :
  cursor text pre ls tail →
  RequirementsIterator.next
    {| RequirementsIterator.text := text; RequirementsIterator.index := zlen pre |}
  = Done (Some item, self') →
  RequirementsIterator.text self' = text
  ∧ ((∃ pre' ls', RequirementsIterator.index self' = zlen pre'
                  ∧ cursor text pre' ls' tail ∧ (length ls' < length ls)%nat)
     ∨ (RequirementsIterator.index self' = zlen text - 1 ∧ next_spec ls = None)).
Proof.
  intros Hc. rewrite (next_cursor _ _ _ _ Hc). unfold next_result.
  destruct (next_spec ls) as [[cow ls']|] eqn:E.
  - intros Hn. apply bind_Done in Hn as (item' & _ & [= _ <-]).
    split; [done|]. left.
    destruct (cursor_next_spec _ _ _ _ _ _ Hc E) as (pre' & Hc' & Hi).
    apply next_spec_suffix in E as (used & -> & Hu).
    exists pre', ls'. split_and!; [done..|].
    rewrite length_app. destruct used; [done | simpl; lia].
  - destruct (tail_line tail); [done|]. intros Hn.
    apply bind_Done in Hn as (item' & _ & [= _ <-]). split; [done|]. by right.
Qed.

(** ** The code simulates the specification *)

(** The states of the code that stand for a state of the specification:
    the cursor is at the start of the physical lines that remain, or, at
    the end, on the last byte. *)
Inductive at_state text tail : RequirementsIterator.t → spec_state → Prop :=
| at_line pre ls :
    cursor text pre ls tail →
    at_state text tail {| RequirementsIterator.text := text;
                          RequirementsIterator.index := zlen pre |} (Some ls)
| at_end :
    0 < zlen text →
    at_state text tail {| RequirementsIterator.text := text;
                          RequirementsIterator.index := zlen text - 1 |} None.

(** [RequirementsIterator] simulates the specification: with the
    cursor at the start of the physical lines that remain, [next] returns
    the logical line that the specification returns, or panics as
    [from_line] does on it, and leaves the cursor at the start of the
    lines the specification leaves, or on the last byte when it has come
    to its end; there it returns [None] and stays. *)
Lemma next_simulates text tail :
  simulation (HJ := spec_iterator tail) (at_state text tail).
Proof.
  intros self a [pre ls Hc|Hl];
    cbn [iter_next spec_iterator spec_next RequirementsIterator.iterator].
  2:{ eexists. split; [by apply RequirementsIterator.next_fuel_at_last_byte|].
      by constructor. }
  rewrite (next_cursor _ _ _ _ Hc). unfold next_result.
  destruct (next_spec ls) as [[cow ls']|] eqn:E.
  - destruct (cursor_next_spec _ _ _ _ _ _ Hc E) as (pre' & Hc' & <-).
    pose proof (RequirementLine.from_line_not_OutOfFuel cow).
    destruct (RequirementLine.from_line cow); simpl; [|done..].
    eexists. split; [done|]. by constructor.
  - assert (0 < zlen text) by apply Hc.
    destruct (tail_line tail) as [|cow ?]; simpl.
    { eexists. split; [done|]. by constructor. }
    pose proof (RequirementLine.from_line_not_OutOfFuel cow).
    destruct (RequirementLine.from_line cow); simpl; [|done..].
    eexists. split; [done|]. by constructor.
Qed.

(** The start of the text stands for all its physical lines. *)
Lemma at_state_new text :
  utf8 text → 0 < zlen text ≤ isize_MAX →
  at_state text (split_lines text).2 (RequirementsIterator.new text)
    (Some (split_lines text).1).
Proof. intros Hu Hl. apply (at_line text _ [] _ (cursor_init text Hu Hl)). Qed.

Lemma remaining_new text :
  remaining (split_lines text).2 (Some (split_lines text).1) = iterator_lines text.
Proof. unfold iterator_lines. by destruct (split_lines text). Qed.

(** ** The whole iteration *)

(** From the start of a line, the iterator yields the logical lines of the
    lines that remain and what the text after the last line break gives. *)
Lemma drain_spec fuel text pre ls tail :
  cursor text pre ls tail →
  (length (logical_from None ls.*1 ++ tail_line tail) < fuel)%nat →
  drain fuel {| RequirementsIterator.text := text;
                RequirementsIterator.index := zlen pre |}
  = mapM RequirementLine.from_line (logical_from None ls.*1 ++ tail_line tail).
Proof.
  intros Hc Hf.
  rewrite (simulation_drain _ (next_simulates text tail) _ _ _ (at_line _ _ _ _ Hc)).
  by apply spec_drain.
Qed.

(** From the start of a line, [collect] parses the logical lines of the
    lines that remain, in order, up to the first error. *)
Lemma collect_spec fuel text pre ls tail acc :
  cursor text pre ls tail →
  (length (logical_from None ls.*1 ++ tail_line tail) < fuel)%nat →
  collect fuel {| RequirementsIterator.text := text;
                  RequirementsIterator.index := zlen pre |} acc
  = parse_lines (logical_from None ls.*1 ++ tail_line tail) acc.
Proof.
  intros Hc Hf. unfold collect.
  rewrite (simulation_try_collect _ (next_simulates text tail) _ _ _ _ _
             (at_line _ _ _ _ Hc)).
  by apply spec_try_collect.
Qed.

(** [drain], from the start of the text. *)
Lemma drain_iterator_lines text :
  utf8 text → 0 < zlen text ≤ isize_MAX →
  drain (S (length text)) (RequirementsIterator.new text)
  = mapM RequirementLine.from_line (iterator_lines text).
Proof.
  intros Hu Hl. pose proof (iterator_lines_length text) as Hn.
  pose proof (cursor_init text Hu Hl) as Hc. unfold iterator_lines in *.
  destruct (split_lines text) as [ls tail].
  apply (drain_spec _ _ [] _ _ Hc). simpl. lia.
Qed.

(** C2 The iterator yields the lines of [iterator_lines]: on a valid text
    that is not empty, the calls of [next] up to the first [None] return,
    in order, the logical lines of the physical lines of the text (comment
    and blank lines dropped, continuations joined), then the text after the
    last line break when it is longer than one byte and neither a comment
    nor blank; a panic of [from_line] on a line ends the iteration. *)
Theorem iterator_yields_lines text :
  utf8 text → 0 < zlen text ≤ isize_MAX →
  drain (S (length text)) (RequirementsIterator.new text)
  = mapM RequirementLine.from_line (iterator_lines text).
Proof. apply drain_iterator_lines. Qed.

(** [collect], from the start of the text. *)
Lemma collect_iterator_lines text :
  utf8 text → 0 < zlen text ≤ isize_MAX →
  collect (S (length text)) (RequirementsIterator.new text) []
  = parse_lines (iterator_lines text) [].
Proof.
  intros Hu Hl. pose proof (iterator_lines_length text) as Hn.
  pose proof (cursor_init text Hu Hl) as Hc. unfold iterator_lines in *.
  destruct (split_lines text) as [ls tail].
  rewrite (collect_spec _ _ [] _ _ _ Hc); [done | simpl; lia].
Qed.

(** C1 [Requirements::from_str] refines its specification: on a valid text
    that is not empty it strips and parses the lines of [iterator_lines] in
    order and returns the requirements, or the first error of the parser,
    or panics where [strip_trivia] panics on a line that is reached. *)
Theorem from_str_refines text :
  utf8 text → 0 < zlen text ≤ isize_MAX →
  from_str text = requirements_spec text.
Proof.
  intros. unfold from_str, requirements_spec.
  by rewrite collect_iterator_lines.
Qed.

End iteration.

(** ** Witnesses *)

Lemma iterator_yields_lines_witness :
  @drain _ _ (@RequirementsIterator.iterator debug_build) (S (length (bytes "a \" ++ [LF] ++ bytes "bc")))
    (RequirementsIterator.new (bytes "a \" ++ [LF] ++ bytes "bc"))
  = mapM (@RequirementLine.from_line debug_build)
      (iterator_lines (bytes "a \" ++ [LF] ++ bytes "bc")).
Proof. apply (@iterator_yields_lines debug_build); by_compute. Defined.

Lemma from_str_refines_witness :
  @from_str release_build strict_parser
    (bytes "a" ++ [CR; LF] ++ bytes " # c" ++ [LF] ++ bytes "b c" ++ [LF])
  = @requirements_spec release_build strict_parser
      (bytes "a" ++ [CR; LF] ++ bytes " # c" ++ [LF] ++ bytes "b c" ++ [LF]).
Proof. apply (@from_str_refines release_build strict_parser); by_compute. Defined.

Lemma next_preserves_cursor_witness :
  RequirementsIterator.text
    {| RequirementsIterator.text := bytes "a" ++ [LF] ++ bytes "b" ++ [LF];
       RequirementsIterator.index := 2 |}
  = bytes "a" ++ [LF] ++ bytes "b" ++ [LF]
  ∧ ((∃ pre' ls',
        RequirementsIterator.index
          {| RequirementsIterator.text := bytes "a" ++ [LF] ++ bytes "b" ++ [LF];
             RequirementsIterator.index := 2 |} = zlen pre'
        ∧ cursor (bytes "a" ++ [LF] ++ bytes "b" ++ [LF]) pre' ls' []
        ∧ (length ls' < length [(bytes "a", Lf); (bytes "b", Lf)])%nat)
     ∨ (RequirementsIterator.index
          {| RequirementsIterator.text := bytes "a" ++ [LF] ++ bytes "b" ++ [LF];
             RequirementsIterator.index := 2 |}
        = zlen (bytes "a" ++ [LF] ++ bytes "b" ++ [LF]) - 1
        ∧ next_spec [(bytes "a", Lf); (bytes "b", Lf)] = None)).
Proof.
  apply (@next_preserves_cursor debug_build _ [] _ _
           {| RequirementLine.line := Borrowed (bytes "a"); RequirementLine.len := 1 |});
    [|by vm_compute].
  split; [done | constructor | by_compute | by_compute | by left | by_compute].
Defined.
