(* ===== verification/Correctness.v ===== *)
(** * Correctness of the parse, and where it fails

    What the refinement of [Refinement] gives for the texts of interest:
    the code meets the specification of the line splitter on the texts
    that end cleanly; [from_str] is correct on the texts without [#]; it
    panics on a requirement followed by a comment; the kind of the line
    breaks does not matter; a continuation is joined into one line; one
    byte after the last line break is lost. *)

From Stdlib Require Import ZArith Lia.
From stdpp Require Import base tactics option list numbers strings sets.
From S2P Require Import Prelude Utf8 RustStr Iterator Trivia Lines Requirements.
From S2P Require Import LineSpec Rules Refinement.

#[local] Open Scope Z_scope.

Section correctness.
Context `{BuildProfile} `{RequirementParser}.
Implicit Types (text pre l tail line : list Z) (ls : list physical_line)
  (k : line_break) (fuel : nat) (cow : Cow).

(** On a text that ends cleanly the iterator yields the logical lines of
    rules 3 to 6 of the specification, applied line by line: the physical
    lines of the text without the comment and blank lines, with every
    continuation joined into one line.  A text ends cleanly when it ends
    in a line break, or when no continuation reaches its last line and
    this line is not a requirement of one byte; on every other text the
    lines differ.  [Conformance] adds the edge case policy of the
    specification. *)
Theorem iterator_yields_logical_lines text :
  utf8 text → 0 < zlen text ≤ isize_MAX → ends_cleanly text →
  drain (S (length text)) (RequirementsIterator.new text)
  = mapM RequirementLine.from_line (logical_lines text).
Proof.
  intros Hu Hl He%iterator_lines_logical_lines. rewrite <-He.
  by apply drain_iterator_lines.
Qed.

(** C19 The iterator follows the rules of the line splitter: on a valid
    text that is not empty it yields the logical lines that the rules
    derive from the physical lines of the text, stripped by [from_line],
    and then what the code makes of the text after the last line
    break. *)
Theorem iterator_follows_rules text cows :
  utf8 text → 0 < zlen text ≤ isize_MAX →
  rules (split_lines text).1.*1 cows →
  drain (S (length text)) (RequirementsIterator.new text)
  = mapM RequirementLine.from_line (cows ++ tail_line (split_lines text).2).
Proof.
  intros Hu Hl ->%rules_logical_from. rewrite drain_iterator_lines by done.
  unfold iterator_lines. by destruct (split_lines text).
Qed.

(** The lines after lines that parse. *)
Lemma parse_lines_app cows cows' acc rs :
  parse_lines cows acc = Done (Ok rs) →
  parse_lines (cows ++ cows') acc = parse_lines cows' rs.
Proof.
  revert acc. induction cows as [|cow cows IH]; simpl; intros acc Hp.
  { by simplify_eq. }
  destruct (requirement_of cow); simpl in *; try done.
  destruct (Requirement_from_str _); [auto | done].
Qed.

(** A borrowed line with a [#] makes [strip_trivia] panic. *)
Lemma requirement_of_hash l :
  zlen l ≤ isize_MAX → is_comment l = false → HASH ∈ l →
  requirement_of (Borrowed l) = Panicked SliceIndexOutOfRange.
Proof.
  intros ? Hc ?. unfold requirement_of. simpl.
  rewrite RequirementLine.strip_trivia_hash_panics; [done..| |done].
  intros ?%is_comment_head. congruence.
Qed.

(** A line without [#] is cut at its first ["--hash"]. *)
Lemma requirement_of_no_hash cow :
  HASH ∉ Cow_deref cow →
  requirement_of cow = Done (clean_span cow).
Proof.
  intros ?%memchr_iter_empty. unfold requirement_of.
  by rewrite RequirementLine.strip_trivia_no_hash.
Qed.

(** Lines on which [strip_trivia] returns: the texts it keeps are parsed
    in order. *)
Lemma parse_lines_parse_all (g : Cow → list Z) cows acc :
  Forall (λ cow, requirement_of cow = Done (g cow)) cows →
  parse_lines cows acc
  = Done (match parse_all (g <$> cows) with
          | Ok rs => Ok (acc ++ rs)
          | Err e => Err e
          end).
Proof.
  intros Hc. revert acc. induction Hc as [|cow cows Hg _ IH]; intros acc; simpl.
  { by rewrite (right_id_L [] (++)). }
  rewrite Hg. simpl. destruct (Requirement_from_str _); [|done].
  rewrite IH. destruct (parse_all _); [|done]. by rewrite <-(assoc_L (++)).
Qed.

(** On lines without [#] nothing panics: the clean spans are parsed in
    order. *)
Lemma parse_lines_clean cows acc :
  Forall (λ cow, HASH ∉ Cow_deref cow) cows →
  parse_lines cows acc
  = Done (match parse_all (clean_span <$> cows) with
          | Ok rs => Ok (acc ++ rs)
          | Err e => Err e
          end).
Proof.
  intros Hc. apply parse_lines_parse_all. eapply Forall_impl; [done|].
  intros cow ?. by apply requirement_of_no_hash.
Qed.

(** C9 On a text whose logical lines hold no [#], [from_str] is correct:
    it does not panic and returns the requirements the parser gives for
    the clean span of every logical line, in order, or the first error. *)
Theorem from_str_clean text :
  utf8 text → 0 < zlen text ≤ isize_MAX →
  Forall (λ cow, HASH ∉ Cow_deref cow) (iterator_lines text) →
  from_str text
  = Done (match parse_all (clean_span <$> iterator_lines text) with
          | Ok rs => Ok {| vec := rs |}
          | Err e => Err e
          end).
Proof.
  intros Hu Hl Hc. unfold from_str.
  rewrite collect_iterator_lines, parse_lines_clean by done. simpl.
  by destruct (parse_all _).
Qed.

(** C15 A requirement followed by a comment makes [from_str] panic: when
    the lines before it parse, a line that is not a continuation and holds
    a [#] is reached, and [strip_trivia] panics on it. *)
Theorem from_str_inline_comment_panics text cows l cows' rs :
  utf8 text → 0 < zlen text ≤ isize_MAX →
  iterator_lines text = cows ++ Borrowed l :: cows' →
  parse_lines cows [] = Done (Ok rs) → HASH ∈ l →
  from_str text = Panicked SliceIndexOutOfRange.
Proof.
  intros Hu Hl Hi Hp Hh. unfold from_str.
  rewrite collect_iterator_lines, Hi, (parse_lines_app _ _ _ _ Hp) by done.
  destruct (iterator_lines_borrowed text l) as [? ?]; [rewrite Hi; set_solver|].
  simpl. rewrite requirement_of_hash; [done | lia | done..].
Qed.

(** Where [parse_lines] panics: on the first line on which [strip_trivia]
    does, when the lines before it parse. *)
Lemma parse_lines_Panicked cows acc p :
  parse_lines cows acc = Panicked p ↔
  ∃ cows1 cow cows2 rs,
    cows = cows1 ++ cow :: cows2 ∧ parse_lines cows1 acc = Done (Ok rs)
    ∧ requirement_of cow = Panicked p.
Proof.
  split.
  - revert acc. induction cows as [|cow cows IH]; intros acc; simpl; [done|].
    destruct (requirement_of cow) as [s|p'|] eqn:E; simpl; try done.
    + destruct (Requirement_from_str s) as [r|e] eqn:Er; [|done].
      intros (cows1 & cow' & cows2 & rs & -> & Hp & Hc)%IH.
      exists (cow :: cows1), cow', cows2, rs.
      split_and!; [done | simpl; rewrite E; simpl; by rewrite Er | done].
    + intros [= ->]. by exists [], cow, cows, acc.
  - intros (cows1 & cow & cows2 & rs & -> & Hp & Hc).
    rewrite (parse_lines_app _ _ _ _ Hp). simpl. by rewrite Hc.
Qed.

Lemma requirement_of_Panicked cow p :
  zlen (Cow_deref cow) ≤ isize_MAX →
  requirement_of cow = Panicked p
  ↔ p = SliceIndexOutOfRange ∧ RequirementLine.hash_reached (Cow_deref cow).
Proof.
  intros Hl. rewrite <-RequirementLine.strip_trivia_Panicked by done.
  unfold requirement_of. destruct (RequirementLine.strip_trivia _); naive_solver.
Qed.

(** C7 Where [from_str] panics: on a valid text that is not empty, exactly
    when the loop of [strip_trivia] reaches a [#] after offset 0 on a
    logical line and the lines before that line parse; the panic is a
    slice index out of range, never an overflow or a slice off a char
    boundary. *)
Theorem from_str_panics_iff text p :
  utf8 text → 0 < zlen text ≤ isize_MAX →
  from_str text = Panicked p ↔
  p = SliceIndexOutOfRange
  ∧ ∃ cows cow cows' rs,
      iterator_lines text = cows ++ cow :: cows'
      ∧ parse_lines cows [] = Done (Ok rs)
      ∧ RequirementLine.hash_reached (Cow_deref cow).
Proof.
  intros Hu Hl. unfold from_str. rewrite collect_iterator_lines by done.
  assert (∀ cow, cow ∈ iterator_lines text → zlen (Cow_deref cow) ≤ isize_MAX)
    as Hz by (intros cow ?%iterator_lines_zlen; lia).
  trans (parse_lines (iterator_lines text) [] = Panicked p).
  { destruct (parse_lines _ _); naive_solver. }
  rewrite parse_lines_Panicked. split.
  - intros (cows & cow & cows' & rs & E & Hp & Hc).
    apply requirement_of_Panicked in Hc as [-> ?]; [naive_solver|].
    apply Hz. rewrite E. set_solver.
  - intros (-> & cows & cow & cows' & rs & E & Hp & Hc).
    exists cows, cow, cows', rs. split_and!; [done..|].
    apply requirement_of_Panicked; [|done]. apply Hz. rewrite E. set_solver.
Qed.

(** C14 On a text without [#], [from_str] does not panic: it returns the
    requirements or the first error of the parser. *)
Theorem from_str_no_hash_returns text :
  utf8 text → 0 < zlen text ≤ isize_MAX → HASH ∉ text →
  ∃ r, from_str text = Done r.
Proof.
  intros Hu Hl Hh. unfold from_str.
  rewrite collect_iterator_lines, parse_lines_clean; [by eexists | | done..].
  apply list.Forall_forall. intros cow Hc Hin.
  by apply Hh, (iterator_lines_bytes text cow).
Qed.

(** C32 A text of comment and blank lines only gives the empty
    collection. *)
Theorem from_str_only_trivia text :
  utf8 text → 0 < zlen text ≤ isize_MAX →
  Forall (λ l, is_comment l || is_blank l = true)
    ((split_lines text).1.*1 ++ [(split_lines text).2]) →
  from_str text = Done (Ok {| vec := [] |}).
Proof.
  intros Hu Hl [Hls Ht%Forall_inv]%Forall_app.
  pose proof (cursor_init text Hu Hl) as Hc. unfold from_str.
  pose proof (iterator_lines_length text) as Hn. unfold iterator_lines in Hn.
  destruct (split_lines text) as [ls tail]. cbn [fst snd] in *.
  rewrite (collect_spec _ _ [] _ _ _ Hc) by lia.
  rewrite logical_from_trivia by done. unfold tail_line.
  by rewrite Ht; case_decide.
Qed.

(** C30 The kind of the line breaks does not matter: [from_str] returns
    the same on two valid texts that have the same lines and differ in
    their line breaks only, [\n], [\r\n] or [\r]. *)
Theorem from_str_mixed_endings text1 text2 :
  utf8 text1 → 0 < zlen text1 ≤ isize_MAX →
  utf8 text2 → 0 < zlen text2 ≤ isize_MAX →
  same_lines text1 text2 →
  from_str text1 = from_str text2.
Proof.
  intros ? ? ? ? Hs. unfold from_str.
  by rewrite !collect_iterator_lines, Hs by done.
Qed.

(** In particular, every line break can be replaced by [\n]. *)
Lemma from_str_normalize_breaks text :
  utf8 text → 0 < zlen text ≤ isize_MAX →
  from_str (normalize_breaks text) = from_str text.
Proof.
  intros Hu Hl. pose proof (zlen_normalize_breaks text) as [? Hpos].
  unfold from_str.
  rewrite !collect_iterator_lines, iterator_lines_normalize;
    auto using utf8_normalize_breaks. split; [apply Hpos|]; lia.
Qed.

(** C29 Continuation joining is complete: on a text that starts with a
    line that ends in a backslash, followed by any number of such lines
    and by a line that does not, the first call of [next] returns one owned
    line, the contents of these lines in order without their backslashes,
    and leaves the cursor after the last of them. *)
Theorem next_joins_continuation l0 k0 chain l k ls tail :
  let lines := (l0, k0) :: chain ++ (l, k) :: ls in
  let text := unsplit lines tail in
  utf8 text → zlen text ≤ isize_MAX → wf_lines lines tail →
  is_comment l0 || is_blank l0 = false → is_continued l0 = true →
  Forall (λ p, is_continued p.1 = true) chain → is_continued l = false →
  RequirementsIterator.next (RequirementsIterator.new text)
  = item ← RequirementLine.from_line
             (Owned (concat (before_backslash <$> l0 :: chain.*1) ++ l));
    Done (Some item,
          {| RequirementsIterator.text := text;
             RequirementsIterator.index := zlen text - zlen (unsplit ls tail) |}).
Proof.
  intros lines text Hu Hl Hw Hc0 Hk0 Hch Hk.
  assert (cursor text [] lines tail) as Hc.
  { split; [done | constructor | done | done | by left |].
    split; [|done]. subst text lines. simpl. rewrite !zlen_app.
    pose proof (break_bytes_length k0). zlia. }
  change (RequirementsIterator.new text)
    with {| RequirementsIterator.text := text;
            RequirementsIterator.index := zlen (@nil Z) |}.
  rewrite (next_cursor _ _ _ _ Hc). subst lines. cbn [next_spec].
  rewrite Hc0, Hk0, eat_spec_chain by done. simpl.
  by rewrite <-(assoc_L (++)).
Qed.

(** The requirements of two lists of lines: those of the first, then
    those of the second, unless the first gives an error or a panic. *)
Lemma parse_lines_app_bind cows cows' acc :
  parse_lines (cows ++ cows') acc
  = r ← parse_lines cows acc;
    match r with
    | Ok rs => parse_lines cows' rs
    | Err e => Done (Err e)
    end.
Proof.
  revert acc. induction cows as [|cow cows IH]; intros acc; simpl; [done|].
  destruct (requirement_of cow); simpl; try done.
  by destruct (Requirement_from_str _).
Qed.

Lemma parse_lines_acc cows acc :
  parse_lines cows acc
  = r ← parse_lines cows [];
    Done (match r with
          | Ok rs => Ok (acc ++ rs)
          | Err e => Err e
          end).
Proof.
  revert acc. induction cows as [|cow cows IH]; intros acc; simpl.
  { by rewrite (right_id_L [] (++)). }
  destruct (requirement_of cow); simpl; try done.
  destruct (Requirement_from_str _) as [r|e]; [|done].
  rewrite (IH (acc ++ [r])), (IH [r]).
  destruct (parse_lines cows []) as [[rs|e]| |]; simpl; try done.
  by rewrite <-(assoc_L (++)).
Qed.

(** C24 Two requirements files one after the other: when the first ends in
    [\n] and not inside a continuation, [from_str] on the two texts
    together returns the requirements of the first followed by those of
    the second, and the first error or panic of the two. *)
Theorem from_str_app text1 text2 :
  utf8 text1 → utf8 text2 → 0 < zlen text1 → 0 < zlen text2 →
  zlen (text1 ++ text2) ≤ isize_MAX →
  last text1 = Some LF → pending_after None (split_lines text1).1.*1 = None →
  from_str (text1 ++ text2)
  = r1 ← from_str text1;
    match r1 with
    | Ok v1 =>
      r2 ← from_str text2;
      Done (match r2 with
            | Ok v2 => Ok {| vec := vec v1 ++ vec v2 |}
            | Err e => Err e
            end)
    | Err e => Done (Err e)
    end.
Proof.
  intros Hu1 Hu2 ? ? Hl Hlf Hp. rewrite zlen_app in Hl. unfold from_str.
  rewrite !collect_iterator_lines by (rewrite ?zlen_app; auto using utf8_app with lia).
  rewrite iterator_lines_app, parse_lines_app_bind by done.
  destruct (parse_lines (iterator_lines text1) []) as [[rs|e]| |]; simpl; try done.
  rewrite parse_lines_acc.
  by destruct (parse_lines (iterator_lines text2) []) as [[rs'|e]| |].
Qed.

(** C31 One byte after the last line break is lost: on a valid text that
    ends in a line break, followed by one more byte, [from_str] returns
    what it returns without that byte, so that a requirement of one char
    on a last line without line break is not read. *)
Theorem from_str_last_byte_lost text b :
  utf8 text → 0 < zlen text < isize_MAX → (split_lines text).2 = [] →
  is_ascii b → b ≠ LF → b ≠ CR →
  from_str (text ++ [b]) = from_str text.
Proof.
  intros Hu Hl Ht Hb ? ?. unfold from_str.
  rewrite !collect_iterator_lines, iterator_lines_last_byte; try done.
  - lia.
  - apply utf8_app; [done|]. apply utf8_cons_ascii; [done | constructor].
  - rewrite zlen_app, zlen_cons, (zlen_nil Z). lia.
Qed.

End correctness.

(** ** The two builds *)

Section builds.
Context `{RequirementParser}.
Implicit Types (P Q : BuildProfile) (cow : Cow).

(** On a line a [str] can hold, no addition of [strip_trivia] overflows:
    the result is the same with and without overflow checks. *)
Lemma requirement_of_build P Q cow :
  zlen (Cow_deref cow) ≤ isize_MAX →
  @requirement_of P cow = @requirement_of Q cow.
Proof.
  intros. unfold requirement_of.
  by rewrite !RequirementLine.strip_trivia_eq_result.
Qed.

Lemma parse_lines_build P Q (cows : list Cow) acc :
  Forall (λ cow, zlen (Cow_deref cow) ≤ isize_MAX) cows →
  @parse_lines P _ cows acc = @parse_lines Q _ cows acc.
Proof.
  intros Hc. revert acc. induction Hc as [|cow cows Hl _ IH]; intros acc; [done|].
  simpl. rewrite (requirement_of_build P Q) by done.
  destruct (requirement_of cow); simpl; try done.
  by destruct (Requirement_from_str _).
Qed.

(** C28 Overflow checks change nothing on a text that is not empty: on a
    valid text of at least one byte, [from_str] returns the same, or
    panics the same, in a build with overflow checks and in one without;
    no subtraction or addition of the code leaves the range of [usize]. *)
Theorem from_str_build_independent P Q text :
  utf8 text → 0 < zlen text ≤ isize_MAX →
  @from_str P _ text = @from_str Q _ text.
Proof.
  intros Hu Hl. unfold from_str.
  rewrite !collect_iterator_lines by done.
  rewrite (parse_lines_build P Q); [done|].
  apply list.Forall_forall. intros cow Hc%iterator_lines_zlen. lia.
Qed.

End builds.

(** ** Witnesses *)

Lemma iterator_yields_logical_lines_witness :
  let text := bytes "a \" ++ [LF] ++ bytes "bc" ++ [CR] ++ bytes "de" in
  @drain _ _ (@RequirementsIterator.iterator debug_build)
    (S (length text)) (RequirementsIterator.new text)
  = mapM (@RequirementLine.from_line debug_build) (logical_lines text).
Proof.
  intros text. apply (@iterator_yields_logical_lines debug_build); by_compute.
Defined.

Lemma from_str_last_byte_lost_witness :
  @from_str debug_build echo_parser ((bytes "a" ++ [LF]) ++ [98])
  = @from_str debug_build echo_parser (bytes "a" ++ [LF]).
Proof.
  apply (@from_str_last_byte_lost debug_build echo_parser); by_compute.
Defined.

Lemma from_str_inline_comment_panics_witness :
  @from_str debug_build echo_parser
    (bytes "a" ++ [LF] ++ bytes "b # c" ++ [LF] ++ bytes "d" ++ [LF])
  = Panicked SliceIndexOutOfRange.
Proof.
  apply (@from_str_inline_comment_panics debug_build echo_parser _
           [Borrowed (bytes "a")] (bytes "b # c") [Borrowed (bytes "d")]
           [bytes "a"]);
    [by_compute | by_compute | by vm_compute | by vm_compute | by_compute].
Defined.

Lemma from_str_clean_witness :
  @from_str debug_build strict_parser
    (bytes "# a" ++ [LF] ++ bytes "b==1 \" ++ [LF] ++ bytes " --hash=x" ++ [LF]
     ++ bytes "  # c" ++ [LF] ++ bytes "d" ++ [LF])
  = Done (match @parse_all strict_parser
                  (clean_span <$> iterator_lines
                     (bytes "# a" ++ [LF] ++ bytes "b==1 \" ++ [LF]
                      ++ bytes " --hash=x" ++ [LF] ++ bytes "  # c" ++ [LF]
                      ++ bytes "d" ++ [LF])) with
          | Ok rs => Ok {| vec := rs |}
          | Err e => Err e
          end).
Proof. apply (@from_str_clean debug_build strict_parser); by_compute. Defined.

Lemma from_str_no_hash_returns_witness :
  ∃ r, @from_str debug_build strict_parser (bytes "flask==2.0" ++ [LF]) = Done r.
Proof. apply (@from_str_no_hash_returns debug_build strict_parser); by_compute. Defined.

Lemma from_str_only_trivia_witness :
  @from_str debug_build echo_parser
    (bytes "# comment" ++ [LF; LF] ++ bytes "   " ++ [LF])
  = Done (Ok {| vec := [] |}).
Proof. apply (@from_str_only_trivia debug_build echo_parser); by_compute. Defined.

Lemma from_str_mixed_endings_witness :
  @from_str debug_build echo_parser
    (bytes "a" ++ [CR; LF] ++ bytes "b" ++ [CR] ++ bytes "c" ++ [LF])
  = @from_str debug_build echo_parser
      (bytes "a" ++ [LF] ++ bytes "b" ++ [CR; LF] ++ bytes "c" ++ [CR]).
Proof. apply (@from_str_mixed_endings debug_build echo_parser); by_compute. Defined.

Lemma next_joins_continuation_witness :
  @RequirementsIterator.next debug_build
    (RequirementsIterator.new
       (unsplit ((bytes "a \", Lf) :: [(bytes "b \", CrLf)]
                 ++ (bytes "c", Lf) :: [(bytes "d", Lf)]) []))
  = item ← @RequirementLine.from_line debug_build
             (Owned (concat (before_backslash
                               <$> bytes "a \" :: [(bytes "b \", CrLf)].*1)
                     ++ bytes "c"));
    Done (Some item,
          {| RequirementsIterator.text :=
               unsplit ((bytes "a \", Lf) :: [(bytes "b \", CrLf)]
                        ++ (bytes "c", Lf) :: [(bytes "d", Lf)]) [];
             RequirementsIterator.index :=
               zlen (unsplit ((bytes "a \", Lf) :: [(bytes "b \", CrLf)]
                              ++ (bytes "c", Lf) :: [(bytes "d", Lf)]) [])
               - zlen (unsplit [(bytes "d", Lf)] []) |}).
Proof.
  apply (@next_joins_continuation debug_build (bytes "a \") Lf
           [(bytes "b \", CrLf)] (bytes "c") Lf [(bytes "d", Lf)] []);
    by_compute.
Defined.

Lemma from_str_build_independent_witness :
  @from_str debug_build echo_parser (bytes "a \" ++ [LF] ++ bytes "b" ++ [CR] ++ bytes "c #")
  = @from_str release_build echo_parser
      (bytes "a \" ++ [LF] ++ bytes "b" ++ [CR] ++ bytes "c #").
Proof. apply (@from_str_build_independent echo_parser); by_compute. Defined.

Lemma from_str_panics_iff_witness :
  @from_str release_build echo_parser
    (bytes "a" ++ [LF] ++ bytes "pkg @ https://example.com/x#fragment" ++ [LF])
  = Panicked SliceIndexOutOfRange.
Proof.
  apply (@from_str_panics_iff release_build echo_parser); [by_compute..|].
  split; [done|].
  exists [Borrowed (bytes "a")], (Borrowed (bytes "pkg @ https://example.com/x#fragment")),
    [], [bytes "a"].
  split_and!; [by vm_compute | by vm_compute | by_compute].
Defined.

Lemma from_str_app_witness :
  @from_str debug_build strict_parser
    ((bytes "a" ++ [LF] ++ bytes "# c" ++ [LF])
     ++ (bytes "b" ++ [LF] ++ bytes "c d" ++ [LF]))
  = Done (Err (bytes "c d")).
Proof.
  rewrite (@from_str_app debug_build strict_parser);
    [by vm_compute | by_compute..].
Defined.

Lemma iterator_follows_rules_witness :
  let text := bytes "a \" ++ [LF] ++ bytes "b" ++ [LF] ++ bytes "#c" ++ [CR; LF]
              ++ bytes "d" ++ [LF] in
  @drain _ _ (@RequirementsIterator.iterator release_build)
    (S (length text)) (RequirementsIterator.new text)
  = mapM (@RequirementLine.from_line release_build)
      [Owned (bytes "a b"); Borrowed (bytes "d")].
Proof.
  intros text.
  rewrite (@iterator_follows_rules release_build text
             [Owned (bytes "a b"); Borrowed (bytes "d")]);
    [done | by_compute | by vm_compute |].
  apply (rule_continuation (bytes "a \") [] (bytes "b")); [done | | done |].
  { by repeat constructor. }
  apply rule_comment; [done|]. apply rule_line; [done..|]. constructor.
Defined.
