(* ===== verification/Conformance.v ===== *)
(** * Conformance to the specification

    The specification describes the whole parse in words: its section
    4.1 gives the logical lines of a text, with an edge case policy for a
    chain of continued lines that begins with a comment line, its section
    4.2 the clean span of a line, and its section 4.3 the collection.
    This file writes it down as one function, [spec_from_str], apart from
    the code, and proves where [Requirements::from_str] conforms to it:
    on the texts that end cleanly, in which no comment line is continued,
    and whose lines the code strips as the specification says
    ([from_str_conforms]).  Each of the three conditions is needed: the
    first two are conditions on the lines ([iterator_yields_specified_lines]),
    and where the second fails the code keeps the lines that the
    specification drops ([from_str_comment_line],
    [scenario_comment_chain]). *)

From Stdlib Require Import ZArith Lia.
From stdpp Require Import base tactics option list numbers strings sets.
From S2P Require Import Prelude Utf8 RustStr Chars Iterator Trivia Lines.
From S2P Require Import Requirements LineSpec Refinement Correctness.

#[local] Open Scope Z_scope.

(** ** The specification, end to end *)

(** Where the scan of section 4.1 is: at the start of a logical line,
    inside a continuation, with the lines joined so far, or inside a chain
    that began with a comment line and is dropped as a whole. *)
Inductive scan : Type :=
| Start
| Joining (line : list Z)
| Dropping.

#[export] Instance scan_eq_dec : EqDecision scan.
Proof. solve_decision. Defined.

(** The logical lines of section 4.1, rules 3 to 6 with the edge case
    policy: the suppression checks are made on the first line of a chain,
    and a chain whose first line is suppressed is dropped with the lines
    it continues into.  [ls] are the physical lines that a line break
    ends and [tail] is the last physical line. *)
Fixpoint document_lines (m : scan) (ls : list (list Z)) (tail : list Z)
    : list Cow :=
  match ls with
  | [] =>
    match m with
    | Start => if is_comment tail || is_blank tail then [] else [Borrowed tail]
    | Joining line => [Owned (line ++ tail)]
    | Dropping => []
    end
  | l :: ls =>
    match m with
    | Start =>
      if is_comment l || is_blank l then
        document_lines (if is_continued l then Dropping else Start) ls tail
      else if is_continued l then
        document_lines (Joining (before_backslash l)) ls tail
      else Borrowed l :: document_lines Start ls tail
    | Joining line =>
      if is_continued l then
        document_lines (Joining (line ++ before_backslash l)) ls tail
      else Owned (line ++ l) :: document_lines Start ls tail
    | Dropping =>
      document_lines (if is_continued l then Dropping else Start) ls tail
    end
  end.

(** The logical lines the specification gives for a text. *)
Definition specified_lines (text : list Z) : list Cow :=
  let '(ls, tail) := split_lines text in
  document_lines Start ls.*1 tail.

(** The text of section 4.2 for a logical line: the line up to its clean
    span. *)
Definition specified_span (cow : Cow) : list Z :=
  ztake (RequirementLine.spec_strip_trivia (Cow_deref cow)) (Cow_deref cow).

(** Whether the policy applies to a sequence of physical lines: a
    comment line, met where a logical line starts, ends in a backslash.
    [joining] says that the scan is inside a continuation. *)
Fixpoint comment_chain (joining : bool) (ls : list (list Z)) : bool :=
  match ls with
  | [] => false
  | l :: ls =>
    if joining then comment_chain (is_continued l) ls
    else if is_comment l || is_blank l then
      is_continued l || comment_chain false ls
    else comment_chain (is_continued l) ls
  end.

Definition has_comment_chain (text : list Z) : bool :=
  comment_chain false (split_lines text).1.*1.

(** The scan that stands for a continuation of [LineSpec]. *)
Definition scan_of (pending : option (list Z)) : scan :=
  match pending with
  | Some line => Joining line
  | None => Start
  end.

Section specification.
Context `{RequirementParser}.

(** Section 4.3: the requirements the parser gives for the clean spans of
    the logical lines, in order, or its first error.  The empty text has
    no logical line and gives the empty collection. *)
Definition spec_from_str (text : list Z) : Result Requirements Pep508Error :=
  match parse_all (specified_span <$> specified_lines text) with
  | Ok rs => Ok {| vec := rs |}
  | Err e => Err e
  end.

End specification.

(** ** The lines *)

Section lines.
Implicit Types (text l c rest tail : list Z) (ls : list (list Z)).

(** No blank line is continued: the policy concerns the chains that
    begin with a comment line. *)
Lemma is_blank_not_continued l :
  utf8 l → is_blank l = true → is_continued l = false.
Proof.
  intros Hl Hb. apply not_true_is_false. intros Hc%is_continued_snoc.
  apply is_blank_chars in Hb; [|done]. rewrite Hc in Hl, Hb.
  destruct (utf8_app_ascii_inv _ BACKSLASH [] ltac:(done) Hl) as [Hu _].
  rewrite chars_app in Hb by (done || by_compute).
  by apply Forall_app in Hb as [_ [Hw _]%list.Forall_cons].
Qed.

(** Where no comment line is continued, the policy changes nothing: the
    lines are those of the rules applied line by line. *)
Lemma document_lines_spec_lines pending ls tail :
  comment_chain (bool_decide (is_Some pending)) ls = false →
  document_lines (scan_of pending) ls tail = spec_lines pending ls tail.
Proof.
  revert pending. induction ls as [|l ls IH]; intros pending; simpl.
  { by destruct pending. }
  destruct pending as [line|]; simpl.
  - destruct (is_continued l) eqn:Ek; intros Hc.
    + by apply (IH (Some _)).
    + f_equal. by apply (IH None).
  - destruct (is_comment l || is_blank l) eqn:Et.
    + intros [-> Hc]%orb_false_elim. by apply (IH None).
    + destruct (is_continued l) eqn:Ek; intros Hc.
      * by apply (IH (Some _)).
      * f_equal. by apply (IH None).
Qed.

(** The lines of the code are those of the specification on the texts
    that end cleanly and in which no comment line is continued. *)
Lemma iterator_lines_specified_lines text :
  ends_cleanly text → has_comment_chain text = false →
  iterator_lines text = specified_lines text.
Proof.
  intros He%iterator_lines_logical_lines Hc. rewrite He.
  unfold logical_lines, specified_lines, has_comment_chain in *.
  destruct (split_lines text) as [ls tail].
  symmetry. by apply (document_lines_spec_lines None).
Qed.

(** One comment or blank line in front of a text. *)
Lemma split_lines_line c :
  no_break c → split_lines (c ++ [LF]) = ([(c, Lf)], []).
Proof.
  intros Hc. apply (split_lines_unsplit [(c, Lf)] []). simpl.
  split_and!; [done | done | constructor].
Qed.

Lemma iterator_lines_trivia_line c rest :
  no_break c → is_comment c || is_blank c = true →
  iterator_lines ((c ++ [LF]) ++ rest) = iterator_lines rest.
Proof.
  intros Hc Ht.
  rewrite iterator_lines_app;
    [|by rewrite last_snoc|by rewrite split_lines_line; simpl; rewrite ?Ht].
  unfold iterator_lines at 1. rewrite split_lines_line by done. simpl.
  by rewrite Ht.
Qed.

End lines.

(** ** The code against the specification *)

Section conformance.
Context `{BuildProfile} `{RequirementParser}.
Implicit Types (text l c rest tail : list Z) (cow : Cow).

(** C8 The iterator yields the logical lines of the specification, edge
    case policy included, on every valid text that ends cleanly and in
    which no comment line ends in a backslash: the physical lines without
    the comment and blank lines, every continuation joined into one
    line. *)
Theorem iterator_yields_specified_lines text :
  utf8 text → 0 < zlen text ≤ isize_MAX →
  ends_cleanly text → has_comment_chain text = false →
  drain (S (length text)) (RequirementsIterator.new text)
  = mapM RequirementLine.from_line (specified_lines text).
Proof.
  intros Hu Hl He Hc. rewrite <-iterator_lines_specified_lines by done.
  by apply drain_iterator_lines.
Qed.

(** The text the code gives to the parser for a line it strips as the
    specification says. *)
Lemma requirement_of_specified cow :
  zlen (Cow_deref cow) ≤ isize_MAX →
  RequirementLine.strips_as_specified (Cow_deref cow) →
  requirement_of cow = Done (specified_span cow).
Proof.
  intros Hl Hs. unfold requirement_of.
  by rewrite RequirementLine.strip_trivia_as_specified.
Qed.

(** C3 [Requirements::from_str] conforms to the specification, sections
    4.1 to 4.3: on a valid text that is not empty, that ends cleanly, in
    which no comment line ends in a backslash, and whose logical lines
    hold no [#] but a first byte of a line that does not end in
    whitespace, it returns what the specification says: the requirements
    the parser gives for the clean spans of the logical lines, in order,
    or the first error of the parser. *)
Theorem from_str_conforms text :
  utf8 text → 0 < zlen text ≤ isize_MAX →
  ends_cleanly text → has_comment_chain text = false →
  Forall (λ cow, RequirementLine.strips_as_specified (Cow_deref cow))
    (specified_lines text) →
  from_str text = Done (spec_from_str text).
Proof.
  intros Hu Hl He Hc Hs. unfold from_str, spec_from_str.
  rewrite <-iterator_lines_specified_lines in * by done.
  rewrite collect_iterator_lines by done.
  rewrite (parse_lines_parse_all specified_span); [simpl; by destruct (parse_all _)|].
  apply list.Forall_forall. intros cow Hi. apply requirement_of_specified.
  - apply iterator_lines_zlen in Hi. lia.
  - by eapply (proj1 (list.Forall_forall _ _) Hs).
Qed.

(** C17 A comment line is dropped alone, also when it ends in a backslash:
    on a valid text that begins with a comment or blank line ended by
    [\n], [from_str] returns what it returns on the text after that line.
    The lines a comment line would continue into are kept, where the
    edge case policy of the specification drops them. *)
Theorem from_str_comment_line c rest :
  utf8 c → utf8 rest → no_break c → 0 < zlen rest →
  zlen ((c ++ [LF]) ++ rest) ≤ isize_MAX →
  is_comment c || is_blank c = true →
  from_str ((c ++ [LF]) ++ rest) = from_str rest.
Proof.
  intros Hc Hr Hn ? Hl Ht. unfold from_str.
  assert (utf8 ((c ++ [LF]) ++ rest))
    by (repeat apply utf8_app; done || by_compute).
  rewrite !zlen_app in Hl. pose proof (zlen_nonneg c).
  rewrite !collect_iterator_lines by (rewrite ?zlen_app; done || zlia).
  by rewrite iterator_lines_trivia_line.
Qed.

End conformance.

(** ** Witnesses and scenarios *)

#[local] Existing Instance echo_parser.

(** A comment that ends in a backslash: the specification drops the
    chain, the requirement on the next line included, and the code
    returns that requirement. *)
Example scenario_comment_chain :
  let text := bytes "# c \" ++ [LF] ++ bytes "b==1" ++ [LF] in
  has_comment_chain text = true
  ∧ @spec_from_str _ text = Ok {| vec := [] |}
  ∧ @from_str debug_build _ text = Done (Ok {| vec := [bytes "b==1"] |}).
Proof. split_and!; by vm_compute. Qed.

Lemma iterator_yields_specified_lines_witness :
  let text := bytes "# c" ++ [LF] ++ bytes "a \" ++ [LF] ++ bytes "bc" ++ [CR]
              ++ bytes "de" in
  @drain _ _ (@RequirementsIterator.iterator debug_build)
    (S (length text)) (RequirementsIterator.new text)
  = mapM (@RequirementLine.from_line debug_build) (specified_lines text).
Proof.
  intros text. apply (@iterator_yields_specified_lines debug_build); by_compute.
Defined.

Lemma from_str_conforms_witness :
  let text := bytes "# c" ++ [LF] ++ bytes "a==1 \" ++ [LF]
              ++ bytes " --hash=sha256:abc" ++ [CR; LF] ++ bytes "b==2" ++ [LF] in
  @from_str release_build _ text
  = Done (Ok {| vec := [bytes "a==1  "; bytes "b==2"] |}).
Proof.
  intros text.
  rewrite (@from_str_conforms release_build echo_parser text);
    [by vm_compute | by_compute.. | vm_compute; by repeat constructor].
Defined.

Lemma from_str_comment_line_witness :
  @from_str debug_build _
    ((bytes "# c \" ++ [LF]) ++ bytes "b==1" ++ [LF])
  = @from_str debug_build _ (bytes "b==1" ++ [LF]).
Proof.
  apply (@from_str_comment_line debug_build echo_parser); by_compute.
Defined.
