(* ===== verification/Liveness.v ===== *)
(** * Liveness of the iteration

    The refinement theorems of [Refinement] describe the whole run of the
    iterator, and say nothing of the lines before a line on which
    [from_line] panics.  This file follows the calls of [next] one by one
    ([iter_nth], the method [Iterator::nth]): every logical line of the
    text is reached, by the call of its rank, when the lines before it were
    returned, and the call after the last line returns [None].  It is
    proved on the specification iterator and carried to the code by the
    simulation. *)

From Stdlib Require Import ZArith Lia.
From stdpp Require Import base tactics option list numbers strings.
From S2P Require Import Prelude Utf8 RustStr Iterator Runs Trivia Lines.
From S2P Require Import LineSpec Refinement.

#[local] Open Scope Z_scope.

Section reach.
Context `{BuildProfile}.
Implicit Types (text pre tail : list Z) (ls : list physical_line) (n : nat)
  (cow : Cow) (cows : list Cow).

(** What the call of rank [n] returns on a text whose lines are [cows]:
    the line of rank [n], or [None] when there is none. *)
Definition nth_result cows n : outcome (option RequirementLine.t) :=
  match cows !! n with
  | Some cow => Some <$> RequirementLine.from_line cow
  | None => Done None
  end.

(** The call of rank [n] of the specification returns the line of rank
    [n] of the lines that remain. *)
Lemma spec_iter_nth tail n (a : spec_state) :
  Forall (λ cow, returns (RequirementLine.from_line cow))
    (take n (remaining tail a)) →
  fst <$> iter_nth (H := spec_iterator tail) n a = nth_result (remaining tail a) n.
Proof.
  revert a. induction n as [|n IH]; intros a Hr; unfold nth_result;
    cbn [iter_nth iter_next spec_iterator];
    destruct (spec_next_remaining tail a) as [a' Ha];
    (destruct (remaining tail a) as [|cow cows]; destruct Ha as [-> Hrem]);
    simpl in *; try done.
  - by destruct (RequirementLine.from_line cow).
  - apply list.Forall_cons in Hr as [[item ->] Hr]. simpl.
    rewrite <-Hrem in *. by apply IH.
Qed.

(** From the start of a line, the call of rank [n] returns the logical
    line of rank [n] of the lines that remain. *)
Lemma iter_nth_spec n text pre ls tail :
  cursor text pre ls tail →
  let cows := logical_from None ls.*1 ++ tail_line tail in
  Forall (λ cow, returns (RequirementLine.from_line cow)) (take n cows) →
  fst <$> iter_nth n {| RequirementsIterator.text := text;
                        RequirementsIterator.index := zlen pre |}
  = nth_result cows n.
Proof.
  intros Hc cows Hr.
  rewrite (simulation_iter_nth _ (next_simulates text tail) _ _ _
             (at_line _ _ _ _ Hc)).
  by apply spec_iter_nth.
Qed.

(** C11 Every logical line of the text is reached: on a valid text that is
    not empty, when [from_line] returns on the first [n] lines of
    [iterator_lines], the call of [next] of rank [n] returns the line of
    rank [n], or the panic of [from_line] on it, and [None] when the text
    has no line of that rank; no line is passed over and the iteration
    ends after the last one. *)
Theorem next_reaches_every_line text n :
  utf8 text → 0 < zlen text ≤ isize_MAX →
  Forall (λ cow, returns (RequirementLine.from_line cow))
    (take n (iterator_lines text)) →
  fst <$> iter_nth n (RequirementsIterator.new text)
  = nth_result (iterator_lines text) n.
Proof.
  intros Hu Hl. pose proof (cursor_init text Hu Hl) as Hc.
  unfold iterator_lines. destruct (split_lines text) as [ls tail].
  apply (iter_nth_spec n _ [] _ _ Hc).
Qed.

(** The iteration ends on every text a [str] can hold, valid or not: one
    of the first calls of [next], as many as the text has bytes after the
    cursor and one more, returns [None] or panics. *)
Lemma next_eventually_ends self :
  zlen (RequirementsIterator.text self) ≤ isize_MAX →
  0 ≤ RequirementsIterator.index self →
  ∃ n, Z.of_nat n ≤ Z.max 0 (zlen (RequirementsIterator.text self)
                            - RequirementsIterator.index self)
       ∧ ((∃ self', iter_nth n self = Done (None, self'))
          ∨ ∃ p, iter_nth n self = Panicked p).
Proof.
  intros Hl Hi.
  destruct (iter_nth_ends (IteratorLaws0 := RequirementsIterator.iterator_laws)
              self (conj Hl Hi)) as (n & Hn & Hr).
  exists n. split; [simpl in Hn; lia | done].
Qed.

End reach.

Lemma next_reaches_every_line_witness :
  let text := bytes "a==1" ++ [LF] ++ bytes "b #c" ++ [LF] ++ bytes "d==2" in
  (fst <$> @iter_nth _ _ (@RequirementsIterator.iterator debug_build) 1
     (RequirementsIterator.new text))
  = Panicked SliceIndexOutOfRange.
Proof.
  intros text.
  rewrite (@next_reaches_every_line debug_build text 1);
    [by vm_compute | by_compute | by vm_compute |].
  repeat constructor. by eexists.
Defined.
