(* ===== verification/Machine.v ===== *)
(** * The line splitter as a machine

    [Runs] reads an iterator as a transition system, and [Refinement]
    proves that [RequirementsIterator] simulates the specification, an
    iterator whose states are the physical lines that remain.  The
    properties of the runs of the code are then those of the runs of the
    specification, which are proved on lists:

    - in every state reachable from [new text] the text is the one given
      and the cursor is at the start of a physical line or on the last
      byte ([reachable_cursor]);
    - the call of rank [i] of every run returns the logical line of rank
      [i] of the text, and [None] after the last line
      ([run_yields_lines]); a run goes as far as [from_line] returns
      ([run_exists]);
    - [from_str] returns what the derivations of its loop give
      ([from_str_collects]) and what its loop returns on the
      specification ([from_str_spec_iterator]), and pulls nothing after
      the first error ([from_str_Err_run]). *)

From Stdlib Require Import ZArith Lia.
From stdpp Require Import base tactics option list numbers strings.
From S2P Require Import Prelude Utf8 RustStr Iterator Runs Trivia Lines.
From S2P Require Import Requirements LineSpec Refinement Liveness.

#[local] Open Scope Z_scope.

(** ** The runs of the specification *)

Section spec_runs.
Context `{BuildProfile} (tail : list Z).
Implicit Types (a : spec_state) (ls : list physical_line) (cow : Cow)
  (r : option RequirementLine.t) (rs : list (option RequirementLine.t)).
#[local] Hint Extern 0 (Iterator spec_state _) =>
  exact (spec_iterator tail) : typeclass_instances.

(** One step of the specification yields the first of the lines that
    remain. *)
Lemma spec_step_remaining a r a' :
  step a r a' →
  nth_result (remaining tail a) 0 = Done r
  ∧ ∀ i, nth_result (remaining tail a) (S i) = nth_result (remaining tail a') i.
Proof.
  intros Hs%step_inv. cbn [iter_next spec_iterator] in Hs.
  destruct (spec_next_remaining tail a) as [a2 Ha]. unfold nth_result.
  destruct (remaining tail a) as [|cow cows]; destruct Ha as [E Hrem];
    rewrite E in Hs; simpl.
  - simplify_eq. by rewrite Hrem.
  - apply bind_Done in Hs as (item & -> & [= <- <-]). by rewrite Hrem.
Qed.

(** The runs of the specification: the call of rank [i] returns the line
    of rank [i] of those that remain. *)
Lemma spec_run_lines a rs a' i r :
  run a rs a' → rs !! i = Some r → nth_result (remaining tail a) i = Done r.
Proof.
  intros Hr. revert i. induction Hr as [|a r0 a1 rs a2 Hs _ IH]; intros i Hi;
    [done|].
  destruct (spec_step_remaining _ _ _ Hs) as [H0 HS].
  destruct i as [|i]; simpl in Hi; [by simplify_eq|]. rewrite HS. by apply IH.
Qed.

(** Runs of the specification exist: it yields every prefix of the lines
    that remain on which [from_line] returns. *)
Lemma spec_run_exists a cows items :
  cows `prefix_of` remaining tail a →
  mapM RequirementLine.from_line cows = Done items →
  ∃ a', run a (Some <$> items) a'.
Proof.
  revert a items. induction cows as [|cow cows IH]; intros a items Hp Hm.
  { injection Hm as <-. eexists. constructor. }
  apply bind_Done in Hm as (item & Hi & Hm).
  apply bind_Done in Hm as (items' & Hm & [= <-]).
  destruct (spec_next_remaining tail a) as [a1 Ha].
  destruct (remaining tail a) as [|cow' cows']; [by apply prefix_nil_not in Hp|].
  destruct Ha as [E <-]. apply prefix_cons_inv_1 in Hp as Ec.
  apply prefix_cons_inv_2 in Hp. subst cow'.
  destruct (IH _ _ Hp Hm) as [a' Hr]. exists a'. rewrite fmap_cons.
  eapply run_cons; [|done]. apply step_inv. simpl. by rewrite E, Hi.
Qed.

End spec_runs.

(** ** The runs of the code *)

Section machine.
Context `{BuildProfile}.
Implicit Types (text pre tail : list Z) (ls : list physical_line)
  (self : RequirementsIterator.t) (a : spec_state)
  (r : option RequirementLine.t) (rs : list (option RequirementLine.t)).

(** Where the cursor is between two calls: at the start of a physical
    line of the text, or on its last byte. *)
Definition position text self : Prop := ∃ tail a, at_state text tail self a.

(** At a position the invariant of the type holds, and the cursor is
    inside the text. *)
Lemma position_valid text self :
  utf8 text → zlen text ≤ isize_MAX → position text self →
  RequirementsIterator.text self = text
  ∧ RequirementsIterator.valid self
  ∧ 0 ≤ RequirementsIterator.index self ≤ zlen text.
Proof.
  intros Hu Hl (tail & a & Hp). unfold RequirementsIterator.valid, is_usize.
  assert (isize_MAX ≤ usize_MAX) by done.
  destruct Hp as [pre ls Hc|?]; simpl; [|split_and!; done || lia].
  pose proof (cursor_index _ _ _ _ Hc).
  split_and!; done || zlia.
Qed.

(** C18 In every state the calls of [next] lead to from [new text], for a
    valid text that is not empty, the text is the one given, the cursor is
    at the start of one of its physical lines, with valid text before and
    after it, or on its last byte, and the invariant of the type holds:
    the cursor is a [usize] inside the text. *)
Theorem reachable_cursor text self :
  utf8 text → 0 < zlen text ≤ isize_MAX →
  reachable (RequirementsIterator.new text) self →
  position text self ∧ RequirementsIterator.valid self
  ∧ 0 ≤ RequirementsIterator.index self ≤ zlen text.
Proof.
  intros Hu Hl [rs Hr].
  destruct (simulation_run _ (next_simulates text _) _ _ _ _
              (at_state_new text Hu Hl) Hr) as (a' & _ & Hp).
  assert (position text self) as Hp' by (by eexists _, _).
  destruct (position_valid text self Hu (proj2 Hl) Hp') as (_ & ? & ?). done.
Qed.

(** C20 Every run from [new text], for a valid text that is not empty,
    returns the logical lines of the text in order: the call of rank [i]
    returns the line of rank [i] of [iterator_lines], stripped by
    [from_line], and [None] when the text has no such line. *)
Theorem run_yields_lines text rs self i r :
  utf8 text → 0 < zlen text ≤ isize_MAX →
  run (RequirementsIterator.new text) rs self → rs !! i = Some r →
  nth_result (iterator_lines text) i = Done r.
Proof.
  intros Hu Hl Hr Hi. rewrite <-remaining_new.
  destruct (simulation_run _ (next_simulates text _) _ _ _ _
              (at_state_new text Hu Hl) Hr) as (a' & Hr' & _).
  by eapply spec_run_lines.
Qed.

(** Runs exist: the iterator returns the lines of every prefix of the
    lines of the text on which [from_line] returns. *)
Lemma run_exists text cows items :
  utf8 text → 0 < zlen text ≤ isize_MAX →
  cows `prefix_of` iterator_lines text →
  mapM RequirementLine.from_line cows = Done items →
  ∃ self, run (RequirementsIterator.new text) (Some <$> items) self.
Proof.
  intros Hu Hl Hp Hm. rewrite <-remaining_new in Hp.
  destruct (spec_run_exists _ _ _ _ Hp Hm) as [a' Hr].
  destruct (simulation_run_inv _ (next_simulates text _) _ _ _ _
              (at_state_new text Hu Hl) Hr) as (self & ? & _).
  by exists self.
Qed.

End machine.

(** ** The runs of [from_str] *)

Section builder.
Context `{BuildProfile} `{RequirementParser}.
Implicit Types (text : list Z) (res : Result Requirements Pep508Error).

(** The collection [from_str] makes of the result of its loop. *)
Definition collected (r : Result (list Requirement) Pep508Error)
    : Result Requirements Pep508Error :=
  match r with
  | Ok v => Ok {| vec := v |}
  | Err e => Err e
  end.

(** C22 [from_str] returns exactly what the derivations of its loop give:
    on every text a [str] can hold, it returns [res] when, and only when,
    pulling the lines one by one from [new text] and parsing each as soon
    as it is pulled ends, at the [None] of the iterator or at the first
    error of the parser, with [res]. *)
Theorem from_str_collects text res :
  zlen text ≤ isize_MAX →
  from_str text = Done res ↔
  ∃ evs r, collects parse_line (RequirementsIterator.new text) [] evs r
           ∧ res = collected r.
Proof.
  intros Hl. unfold from_str, collect. rewrite bind_Done.
  assert (∀ r, try_collect parse_line (S (length text))
                 (RequirementsIterator.new text) [] = Done r
               ↔ ∃ evs, collects parse_line (RequirementsIterator.new text) [] evs r)
    as Hiff.
  { intros r. apply (try_collect_iff parse_line
      (IteratorLaws0 := RequirementsIterator.iterator_laws)); simpl;
      [done | unfold zlen; lia]. }
  split.
  - intros (r & (evs & ?)%Hiff & [= <-]). by exists evs, r.
  - intros (evs & r & Hc & ->). exists r. split; [|done]. apply Hiff. eauto.
Qed.

(** [from_str] on the code is [collect] on the specification: the loop
    returns the same when it pulls the lines from the specification. *)
Lemma from_str_spec_iterator text :
  utf8 text → 0 < zlen text ≤ isize_MAX →
  from_str text =
  r ← try_collect (H := spec_iterator (split_lines text).2) parse_line
        (S (length text)) (Some (split_lines text).1) [];
  Done (collected r).
Proof.
  intros Hu Hl. unfold from_str, collect.
  by rewrite (simulation_try_collect _ (next_simulates text _) _ _ _ _ _
                (at_state_new text Hu Hl)).
Qed.

(** [from_str] fails fast: when it returns an error, the iterator was
    called once for every line that parsed and once for the line that the
    parser rejected with this error, and never after. *)
Lemma from_str_Err_run text e :
  from_str text = Done (Err e) →
  ∃ ps item self,
    run (RequirementsIterator.new text) ((Some <$> ps.*1) ++ [Some item]) self
    ∧ Forall (λ p, parse_line p.1 = Done (Ok p.2)) ps
    ∧ parse_line item = Done (Err e).
Proof.
  unfold from_str, collect.
  intros ([v|e'] & [evs Hc]%try_collect_collects & [= <-])%bind_Done.
  destruct (collects_run _ _ _ _ _ Hc) as [self Hr].
  apply collects_pulls in Hc as (ps & Hps & item & Ep & Hi). rewrite Ep in Hr.
  by exists ps, item, self.
Qed.

End builder.

Lemma reachable_cursor_witness :
  let text := bytes "a==1" ++ [LF] ++ bytes "b==2" in
  let self := {| RequirementsIterator.text := text;
                 RequirementsIterator.index := 5 |} in
  position text self ∧ RequirementsIterator.valid self
  ∧ 0 ≤ RequirementsIterator.index self ≤ zlen text.
Proof.
  intros text self.
  apply (@reachable_cursor debug_build); [by_compute | by vm_compute |].
  eexists [_]. eapply run_cons; [|constructor]. constructor. by vm_compute.
Defined.

Lemma run_yields_lines_witness :
  let text := bytes "a==1" ++ [LF] ++ bytes "b" in
  nth_result (H := debug_build) (iterator_lines text) 1 = Done None.
Proof.
  intros text.
  eapply (@run_yields_lines debug_build text [_; None] _ 1 None);
    [by_compute | by vm_compute | | done].
  eapply run_cons; [constructor; by vm_compute|].
  eapply run_cons; [constructor; by vm_compute|]. constructor.
Defined.

Lemma from_str_collects_witness :
  let text := bytes "a b" ++ [LF] ++ bytes "c" ++ [LF] in
  ∃ evs, @collects _ _ _ _ (@RequirementsIterator.iterator debug_build)
           (@parse_line strict_parser)
           (RequirementsIterator.new text) [] evs (Err (bytes "a b")).
Proof.
  intros text.
  destruct (proj1 (@from_str_collects debug_build strict_parser text
                     (Err (bytes "a b")) ltac:(by vm_compute)))
    as (evs & [v|e] & Hc & [= E]); [by vm_compute|].
  exists evs. by rewrite E.
Defined.
