(* ===== verification/Roundtrip.v ===== *)
(** * Writing a requirements file and reading it back

    A round trip through the text: a collection of requirements written
    one per line, with any of the three line breaks after each, is read
    back by [Requirements::from_str] as it was, when the lines are plain
    ([plain]: no comment, no [--hash], no continuation, not blank) and the
    parser reads back what the printer writes.  The same holds one level
    down, for the texts handed to the parser ([requirement_texts]). *)

From Stdlib Require Import ZArith Lia.
From stdpp Require Import base tactics option list numbers strings sets.
From S2P Require Import Prelude Utf8 RustStr Iterator Trivia Lines Requirements.
From S2P Require Import LineSpec Refinement Correctness.

#[local] Open Scope Z_scope.

(** A line that holds a requirement and nothing else. *)
Definition plain (l : list Z) : Prop :=
  utf8 l ∧ no_break l ∧ (is_comment l || is_blank l) = false
  ∧ is_continued l = false ∧ (HASH ∉ l) ∧ str_find l HASH_EXTRAS = None.

#[export] Instance plain_dec l : Decision (plain l).
Proof. unfold plain. apply _. Defined.

(** The text of a list of lines, each with its line break. *)
Definition write_lines (ls : list physical_line) : list Z := unsplit ls [].

Section reading.
Context `{BuildProfile}.

(** The texts [from_str] hands to the parser: the clean span of every line
    the iterator yields. *)
Definition requirement_texts (text : list Z) : outcome (list (list Z)) :=
  items ← drain (S (length text)) (RequirementsIterator.new text);
  mapM RequirementLine.as_str items.

End reading.

Section plain_facts.
Context `{BuildProfile}.
Implicit Types (l text : list Z) (ls : list physical_line).

Lemma plain_nonempty l : plain l → l ≠ [].
Proof. intros (_ & _ & Hb & _) ->. by rewrite is_blank_nil, orb_true_r in Hb. Qed.

(** Plain lines, written out, are the physical lines of the text. *)
Lemma unsplit_head_plain ls : Forall plain ls.*1 → head (unsplit ls []) ≠ Some LF.
Proof.
  destruct ls as [|[l k] ls]; [done|]. rewrite fmap_cons, Forall_cons. simpl.
  intros [Hp _]. pose proof (plain_nonempty l Hp). destruct Hp as (_ & Hn & _).
  destruct l as [|b l]; [done|]. simpl. intros [= ->].
  by apply Forall_cons in Hn as [[? _] _].
Qed.

Lemma wf_lines_plain ls : Forall plain ls.*1 → wf_lines ls [].
Proof.
  induction ls as [|[l k] ls IH]; [by constructor|].
  rewrite fmap_cons, Forall_cons. simpl. intros [Hp Hls].
  split_and!; [apply Hp | intros _; by apply unsplit_head_plain | auto].
Qed.

Lemma utf8_write_lines ls : Forall plain ls.*1 → utf8 (write_lines ls).
Proof.
  unfold write_lines. induction ls as [|[l k] ls IH]; [constructor|].
  rewrite fmap_cons, Forall_cons. simpl. intros [[Hl _] Hls].
  auto using utf8_app, utf8_break_bytes.
Qed.

Lemma write_lines_nonempty ls : ls ≠ [] → 0 < zlen (write_lines ls).
Proof.
  destruct ls as [|[l k] ls]; [done|]. intros _. unfold write_lines. simpl.
  rewrite !zlen_app. pose proof (break_bytes_length k). zlia.
Qed.

(** The logical lines of plain lines are these lines, borrowed. *)
Lemma logical_from_plain (cs : list (list Z)) :
  Forall plain cs → logical_from None cs = Borrowed <$> cs.
Proof.
  induction 1 as [|l cs (_ & _ & Hb & Hc & _) _ IH]; [done|]. simpl.
  by rewrite Hb, Hc, IH.
Qed.

Lemma iterator_lines_write_lines ls :
  Forall plain ls.*1 → iterator_lines (write_lines ls) = Borrowed <$> ls.*1.
Proof.
  intros Hp. unfold iterator_lines, write_lines.
  rewrite split_lines_unsplit by by apply wf_lines_plain.
  by rewrite tail_line_nil, (right_id_L [] (++)), logical_from_plain.
Qed.

(** Nothing is stripped from a plain line. *)
Lemma strip_trivia_plain l :
  plain l → RequirementLine.strip_trivia l = Done (zlen l).
Proof.
  intros (_ & _ & _ & _ & Hh%memchr_iter_empty & He).
  rewrite RequirementLine.strip_trivia_no_hash by done.
  unfold RequirementLine.without_hash_extras. by rewrite ztake_all, He by lia.
Qed.

Lemma clean_span_plain l : plain l → clean_span (Borrowed l) = l.
Proof.
  intros (_ & _ & _ & _ & _ & He). unfold clean_span. simpl.
  unfold RequirementLine.without_hash_extras.
  rewrite (ztake_all (zlen l)), He by lia. simpl. by rewrite ztake_all by lia.
Qed.

End plain_facts.

(** ** The round trip *)

Section roundtrip.
Context `{BuildProfile}.
Implicit Types (l text : list Z) (ls : list physical_line).

(** The line [from_line] builds from a plain line. *)
Definition plain_line (l : list Z) : RequirementLine.t :=
  {| RequirementLine.line := Borrowed l; RequirementLine.len := zlen l |}.

(** On plain lines written out, the iterator yields every line, borrowed
    and whole. *)
Lemma drain_write_lines ls :
  ls ≠ [] → Forall plain ls.*1 → zlen (write_lines ls) ≤ isize_MAX →
  drain (S (length (write_lines ls))) (RequirementsIterator.new (write_lines ls))
  = Done (plain_line <$> ls.*1).
Proof.
  intros Hne Hp Hl. pose proof (write_lines_nonempty ls Hne).
  pose proof (iterator_lines_length (write_lines ls)) as Hn.
  pose proof (cursor_init _ (utf8_write_lines ls Hp) ltac:(done)) as Hc.
  rewrite iterator_lines_write_lines in Hn by done. unfold write_lines in *.
  rewrite split_lines_unsplit in Hc by by apply wf_lines_plain.
  cbn [fst snd] in Hc.
  rewrite (drain_spec _ _ [] _ _ Hc)
    by (rewrite tail_line_nil, (right_id_L [] (++)), logical_from_plain by done;
        simpl; lia).
  rewrite tail_line_nil, (right_id_L [] (++)), logical_from_plain by done.
  rewrite (mapM_Done_fmap _ (plain_line ∘ Cow_deref)); [by rewrite <-list_fmap_compose|].
  apply Forall_fmap. eapply Forall_impl; [done|]. intros l Hpl. simpl.
  unfold RequirementLine.from_line. simpl. by rewrite strip_trivia_plain.
Qed.

(** Written out and read back, plain lines are the texts handed to the
    parser. *)
Lemma requirement_texts_write_lines ls :
  ls ≠ [] → Forall plain ls.*1 → zlen (write_lines ls) ≤ isize_MAX →
  requirement_texts (write_lines ls) = Done ls.*1.
Proof.
  intros. unfold requirement_texts. rewrite drain_write_lines by done. simpl.
  rewrite (mapM_Done_fmap _ (Cow_deref ∘ RequirementLine.line)).
  { by rewrite <-list_fmap_compose, list_fmap_id. }
  apply Forall_fmap, Forall_true. intros l. simpl.
  apply str_slice_to_zlen.
Qed.

End roundtrip.

Section printing.
Context `{BuildProfile} `{RequirementParser}.
Implicit Types (ls : list physical_line).

(** [from_str] on plain lines written out: the parser is given every line,
    whole and in order. *)
Lemma from_str_write_lines ls :
  ls ≠ [] → Forall plain ls.*1 → zlen (write_lines ls) ≤ isize_MAX →
  from_str (write_lines ls)
  = Done (match parse_all ls.*1 with
          | Ok rs => Ok {| vec := rs |}
          | Err e => Err e
          end).
Proof.
  intros Hne Hp Hl. pose proof (write_lines_nonempty ls Hne). unfold from_str.
  rewrite collect_iterator_lines by auto using utf8_write_lines.
  rewrite iterator_lines_write_lines by done. rewrite parse_lines_clean.
  2:{ apply Forall_fmap. eapply Forall_impl; [done|]. intros l Hl'. apply Hl'. }
  rewrite <-list_fmap_compose.
  rewrite (Forall_fmap_ext_1 (clean_span ∘ Borrowed) id), list_fmap_id.
  - simpl. by destruct (parse_all _).
  - eapply Forall_impl; [done|]. intros l Hl'. by apply clean_span_plain.
Qed.

(** A printer of requirements that the parser reads back: [to_string] is
    the [Display] of the external type. *)
Context (to_string : Requirement → list Z).
Context (from_str_to_string : ∀ r, Requirement_from_str (to_string r) = Ok r).

(** The text of a collection: one requirement per line, each followed by
    its line break. *)
Definition write_requirements (rs : list (Requirement * line_break)) : list Z :=
  write_lines (prod_map to_string id <$> rs).

Lemma parse_all_to_string (rs : list Requirement) :
  parse_all (to_string <$> rs) = Ok rs.
Proof.
  induction rs as [|r rs IH]; [done|].
  rewrite fmap_cons. simpl. by rewrite from_str_to_string, IH.
Qed.

(** C10 The round trip through the text: a collection that is not empty,
    written one requirement per line with any line break after each, is
    read back by [from_str] as it was, when the printed requirements are
    plain lines and the parser reads back what the printer writes. *)
Theorem from_str_write_requirements (rs : list (Requirement * line_break)) :
  rs ≠ [] → Forall (λ p, plain (to_string p.1)) rs →
  zlen (write_requirements rs) ≤ isize_MAX →
  from_str (write_requirements rs) = Done (Ok {| vec := rs.*1 |}).
Proof.
  intros Hne Hp Hl. unfold write_requirements in *.
  assert ((prod_map to_string id <$> rs).*1 = to_string <$> rs.*1) as E.
  { rewrite <-!list_fmap_compose. by apply list_fmap_ext; intros ? []. }
  rewrite from_str_write_lines, E, parse_all_to_string; [done | | | done].
  - by destruct rs.
  - rewrite E, !Forall_fmap. exact Hp.
Qed.

End printing.

Lemma from_str_write_requirements_witness :
  let rs : list (@Requirement echo_parser * line_break) :=
    [(bytes "flask==2.0", CrLf); (bytes "caf" ++ [195; 169], Cr);
     (bytes "x @ http://y", Lf)] in
  @from_str debug_build echo_parser
    (@write_requirements echo_parser id rs)
  = Done (Ok {| vec := rs.*1 |}).
Proof.
  intros rs.
  apply (@from_str_write_requirements debug_build echo_parser id);
    [done | done | by_compute | by vm_compute].
Defined.
